(** * cli-battleships: the board, the ships and the targeting heuristic

    A shallow embedding of [battleships.py]: the [Ship] and [Board] classes,
    the helper [adjacent_coordinates_in], and the lines of the main loop that
    bind the module-level name [target_coordinate] before a shot.

    Python integers are [Z].  The numpy grid [self._board] is a finite map
    from (row, column) to the stored integer, read with default [0]
    ([np.zeros]); indexing follows numpy: an index [i] is accepted when
    [-n <= i < n], a negative one counts from the end, anything else raises
    [IndexError].  Ship objects live in a heap (a list indexed by address), and
    [Board.ships] holds addresses, so that identity ([list.remove]) and
    in-place mutation ([Ship.damage]) behave as in Python.  Loops that Python
    runs until a condition fails take fuel; [Diverge] is the outcome of
    running out of it. *)

From stdpp Require Import gmap strings list fin_maps.
From Stdlib Require Import ZArith Lia.

Local Open Scope Z_scope.

(** ** Outcomes of running Python code *)

(** The exceptions the modelled code can raise. *)
Inductive exn := IndexError | ValueError | KeyError | NameError.

(** [Ok] is a normal return, [Raise] an uncaught exception.  [Diverge] is
    returned when a loop was cut by its fuel.  [Stuck] marks a ship address
    that is not in the heap: no Python state has one. *)
Inductive outcome (A : Type) :=
  | Ok (a : A)
  | Raise (e : exn)
  | Diverge
  | Stuck.
Arguments Ok {A} a.
Arguments Raise {A} e.
Arguments Diverge {A}.
Arguments Stuck {A}.

Definition obind {A B} (m : outcome A) (k : A -> outcome B) : outcome B :=
  match m with
  | Ok a => k a
  | Raise e => Raise e
  | Diverge => Diverge
  | Stuck => Stuck
  end.

Notation "x <- m ;;; k" := (obind m (fun x => k))
  (at level 100, m at next level, right associativity).

Definition raises {A} (m : outcome A) : Prop := exists e, m = Raise e.

(** The computation ended: it returned or raised. *)
Definition clean {A} (r : outcome A) : Prop := r <> Diverge /\ r <> Stuck.

(** ** Coordinates and ranges *)

Definition coord : Type := Z * Z.

(** [i in range(n)]. *)
Definition in_range (n i : Z) : bool := (0 <=? i) && (i <? n).

(** Both components in [range(n)]. *)
Definition in_bounds (n : Z) (c : coord) : bool :=
  in_range n (fst c) && in_range n (snd c).

(** numpy index normalisation along one axis of size [n]. *)
Definition norm_index (n i : Z) : option Z :=
  if (0 <=? i) && (i <? n) then Some i
  else if (- n <=? i) && (i <? 0) then Some (i + n)
  else None.

Definition norm_coord (n : Z) (c : coord) : option coord :=
  match norm_index n (fst c), norm_index n (snd c) with
  | Some r, Some k => Some (r, k)
  | _, _ => None
  end.

(** ** class Ship *)

Inductive direction := DirN | DirE | DirS | DirW.

Definition direction_vectors (d : direction) : Z * Z :=
  match d with
  | DirN => (-1, 0)
  | DirS => (1, 0)
  | DirE => (0, 1)
  | DirW => (0, -1)
  end.

(** The dictionary [ship_varieties]; [None] is a [KeyError]. *)
Definition ship_varieties (length : Z) : option string :=
  if length =? 2 then Some "Destroyer"%string
  else if length =? 3 then Some "Submarine"%string
  else if length =? 4 then Some "Battleship"%string
  else if length =? 5 then Some "Aircraft Carrier"%string
  else None.

Record Ship := mkShip {
  _length : Z;
  variety : string;
  condition : Z;
  _points : list coord;
  endpoint : coord
}.

(** [[f(i) for i in range(length)]], by recursion on the number of items
    still to produce. *)
Fixpoint points_from (start dv : Z * Z) (i : Z) (k : nat) : list coord :=
  match k with
  | O => []
  | S k' => (fst start + i * fst dv, snd start + i * snd dv)
            :: points_from start dv (i + 1) k'
  end.

(** [Ship.__init__].  [self._points[-1]] exists since a supported length is
    at least 2. *)
Definition Ship_init (length : Z) (start : coord) (d : direction) : outcome Ship :=
  match ship_varieties length with
  | None => Raise KeyError
  | Some v =>
      let pts := points_from start (direction_vectors d) 0 (Z.to_nat length) in
      match last pts with
      | None => Raise IndexError
      | Some e =>
          Ok {| _length := length; variety := v; condition := length;
                _points := pts; endpoint := e |}
      end
  end.

(** [Ship.damage]. *)
Definition damage (s : Ship) : Ship :=
  {| _length := _length s; variety := variety s; condition := condition s - 1;
     _points := _points s; endpoint := endpoint s |}.

(** [Ship.sunk]: [not bool(self.condition)]. *)
Definition sunk (s : Ship) : bool := condition s =? 0.

(** [coordinate in ship]: iteration over [_points] with tuple equality. *)
Definition ship_contains (c : coord) (s : Ship) : bool :=
  bool_decide (c ∈ _points s).

(** ** class Board *)

Record Board := mkBoard {
  _n : Z;
  _board : gmap (Z * Z) Z;
  ships : list nat;
  _previous_hits : list coord
}.

(** The ship objects, the board, the module-level name [target_coordinate]
    ([None] while it is unbound) and the lines printed so far. *)
Record World := mkWorld {
  heap : list Ship;
  board : Board;
  target_coordinate : option coord;
  stdout : list string
}.

(** [Board.__init__]: [np.zeros] rejects a negative dimension. *)
Definition Board_init (n : Z) : outcome Board :=
  if n <? 0 then Raise ValueError
  else Ok {| _n := n; _board := ∅; ships := []; _previous_hits := [] |}.

(** [self._board[c]]. *)
Definition cell (b : Board) (c : coord) : outcome Z :=
  match norm_coord (_n b) c with
  | None => Raise IndexError
  | Some k => Ok (default 0 (_board b !! k))
  end.

(** [self._board[c] = v]. *)
Definition set_cell (b : Board) (c : coord) (v : Z) : outcome Board :=
  match norm_coord (_n b) c with
  | None => Raise IndexError
  | Some k =>
      Ok {| _n := _n b; _board := <[k := v]> (_board b); ships := ships b;
            _previous_hits := _previous_hits b |}
  end.

Definition deref (h : list Ship) (a : nat) : outcome Ship :=
  match h !! a with
  | Some s => Ok s
  | None => Stuck
  end.

(** [all(i in range(self._n) for i in ship.endpoint)
     and all(self._board[point] != 1 for point in ship)]. *)
Fixpoint all_not_unhit (b : Board) (pts : list coord) : outcome bool :=
  match pts with
  | [] => Ok true
  | p :: rest =>
      v <- cell b p ;;;
      if v =? 1 then Ok false else all_not_unhit b rest
  end.

Definition is_valid_placement (b : Board) (s : Ship) : outcome bool :=
  if in_range (_n b) (fst (endpoint s)) && in_range (_n b) (snd (endpoint s))
  then all_not_unhit b (_points s)
  else Ok false.

(** ** Stateful operations

    A computation reads and updates the world; an exception keeps the
    updates made before it was raised. *)

Definition M (A : Type) : Type := World -> World * outcome A.

Definition ret {A} (a : A) : M A := fun w => (w, Ok a).

Definition bind {A B} (m : M A) (k : A -> M B) : M B :=
  fun w =>
    match m w with
    | (w', Ok a) => k a w'
    | (w', Raise e) => (w', Raise e)
    | (w', Diverge) => (w', Diverge)
    | (w', Stuck) => (w', Stuck)
    end.

Notation "x <~ m ;; k" := (bind m (fun x => k))
  (at level 100, m at next level, right associativity).
Notation "m ;; k" := (bind m (fun _ => k))
  (at level 100, right associativity).

Definition lift {A} (f : World -> outcome A) : M A := fun w => (w, f w).

Definition set_board (b : Board) : M unit :=
  fun w => ({| heap := heap w; board := b;
               target_coordinate := target_coordinate w; stdout := stdout w |},
            Ok tt).

Definition print (line : string) : M unit :=
  fun w => ({| heap := heap w; board := board w;
               target_coordinate := target_coordinate w;
               stdout := stdout w ++ [line] |}, Ok tt).

(** [self._board[c] = v] on the world's board. *)
Definition put_cell (c : coord) (v : Z) : M unit :=
  b <~ lift (fun w => set_cell (board w) c v) ;; set_board b.

Definition with_ships (b : Board) (l : list nat) : Board :=
  {| _n := _n b; _board := _board b; ships := l;
     _previous_hits := _previous_hits b |}.

Definition with_hits (b : Board) (l : list coord) : Board :=
  {| _n := _n b; _board := _board b; ships := ships b; _previous_hits := l |}.

(** Reading the global name [target_coordinate]. *)
Definition read_target : M coord :=
  lift (fun w => match target_coordinate w with
                 | Some t => Ok t
                 | None => Raise NameError
                 end).

(** The main loop's [target_coordinate = ...]. *)
Definition assign_target (c : coord) : M unit :=
  fun w => ({| heap := heap w; board := board w;
               target_coordinate := Some c; stdout := stdout w |}, Ok tt).

(** A new [Ship] object; its address is returned. *)
Definition alloc (s : Ship) : M nat :=
  fun w => ({| heap := heap w ++ [s]; board := board w;
               target_coordinate := target_coordinate w; stdout := stdout w |},
            Ok (length (heap w))).

(** In-place update of the object at address [a]. *)
Definition store (a : nat) (s : Ship) : M unit :=
  fun w => ({| heap := <[a := s]> (heap w); board := board w;
               target_coordinate := target_coordinate w; stdout := stdout w |},
            Ok tt).

(** [list.remove(x)]: drops the first item equal to [x]; [None] is the
    [ValueError] of an absent item. *)
Fixpoint remove_first {A} `{EqDecision A} (x : A) (l : list A) : option (list A) :=
  match l with
  | [] => None
  | y :: rest =>
      if decide (x = y) then Some rest
      else match remove_first x rest with
           | Some rest' => Some (y :: rest')
           | None => None
           end
  end.

(** [Board.place_ship], for the ship object at address [a]. *)
Fixpoint mark_points (pts : list coord) : M unit :=
  match pts with
  | [] => ret tt
  | p :: rest => put_cell p 1 ;; mark_points rest
  end.

Definition place_ship (a : nat) : M unit :=
  (fun w => set_board (with_ships (board w) (ships (board w) ++ [a])) w) ;;
  s <~ lift (fun w => deref (heap w) a) ;;
  mark_points (_points s).

(** [self.ships.remove(ship)], by identity. *)
Definition remove_ship (a : nat) : M unit :=
  fun w =>
    match remove_first a (ships (board w)) with
    | Some l => set_board (with_ships (board w) l) w
    | None => (w, Raise ValueError)
    end.

(** [for point in ship: self._previous_hits.remove(point)]. *)
Fixpoint remove_points (pts : list coord) : M unit :=
  match pts with
  | [] => ret tt
  | p :: rest =>
      (fun w =>
         match remove_first p (_previous_hits (board w)) with
         | Some l => set_board (with_hits (board w) l) w
         | None => (w, Raise ValueError)
         end) ;;
      remove_points rest
  end.

(** The body of [for ship in self.ships] for the ship at address [a]. *)
Definition shot_body (a : nat) : M unit :=
  t <~ read_target ;;
  s <~ lift (fun w => deref (heap w) a) ;;
  if ship_contains t s then
    store a (damage s) ;;
    if sunk (damage s) then
      print (variety s ++ " sunk!") ;;
      remove_ship a ;;
      remove_points (_points s)
    else ret tt
  else ret tt.

(** [for ship in self.ships: ...] as Python runs it: the list iterator keeps
    an index into the list, which the body may shorten. *)
Fixpoint ships_loop (fuel : nat) (i : nat) : M unit :=
  match fuel with
  | O => fun w => (w, Diverge)
  | S fuel' =>
      fun w =>
        match ships (board w) !! i with
        | None => (w, Ok tt)
        | Some a => (shot_body a ;; ships_loop fuel' (S i)) w
        end
  end.

(** [Board.apply_shot]. *)
Definition apply_shot (coordinate : coord) : M unit :=
  v <~ lift (fun w => cell (board w) coordinate) ;;
  if v =? 1 then
    print "Hit!" ;;
    put_cell coordinate 2 ;;
    (fun w => set_board (with_hits (board w)
                           (_previous_hits (board w) ++ [coordinate])) w) ;;
    (fun w => ships_loop (S (length (ships (board w)))) 0 w)
  else
    print "Miss." ;;
    v' <~ lift (fun w => cell (board w) coordinate) ;;
    if v' =? 0 then put_cell coordinate 3 else ret tt.

(** [Board.is_hit]. *)
Definition is_hit (b : Board) (coordinate : coord) : outcome bool :=
  v <- cell b coordinate ;;; Ok (v =? 1).

(** A turn of the main loop on this board: the target is bound to the global
    name, then the shot is applied. *)
Definition fire (c : coord) : M unit :=
  assign_target c ;; apply_shot c.

(** A board of size [n] with nothing on it, no global bound, nothing printed. *)
Definition new_world (n : Z) : World :=
  {| heap := [];
     board := {| _n := n; _board := ∅; ships := []; _previous_hits := [] |};
     target_coordinate := None; stdout := [] |}.

(** Construct a ship, check the placement, place it: what both placement
    routines do once a start and a direction are chosen.  Returns whether
    the ship was placed. *)
Definition try_place (length : Z) (start : coord) (d : direction) : M bool :=
  s <~ lift (fun _ => Ship_init length start d) ;;
  ok <~ lift (fun w => is_valid_placement (board w) s) ;;
  if ok then a <~ alloc s ;; place_ship a ;; ret true else ret false.

(** ** Neighbours *)

(** [Board.vertical_neighbours]. *)
Definition vertical_neighbours (b : Board) (coordinate : coord) : list coord :=
  let '(row, col) := coordinate in
  flat_map (fun dy => if in_range (_n b) (row + dy) then [(row + dy, col)] else [])
           [1; -1].

(** [Board.horizontal_neighbours]. *)
Definition horizontal_neighbours (b : Board) (coordinate : coord) : list coord :=
  let '(row, col) := coordinate in
  flat_map (fun dx => if in_range (_n b) (col + dx) then [(row, col + dx)] else [])
           [1; -1].

(** [Board.all_neighbours]. *)
Definition all_neighbours (b : Board) (coordinate : coord) : list coord :=
  vertical_neighbours b coordinate ++ horizontal_neighbours b coordinate.

(** ** Board.can_contain_ship *)

(** One of the four [while] loops: [probe d] is the index tested against
    [range(self._n)], [at_ d] the cell read, [d] the offset and [len] the
    running length. *)
Fixpoint scan (fuel : nat) (b : Board) (probe : Z -> Z) (at_ : Z -> coord)
    (d len : Z) : outcome Z :=
  match fuel with
  | O => Diverge
  | S fuel' =>
      if in_range (_n b) (probe d) then
        v <- cell b (at_ d) ;;;
        if v <? 3 then scan fuel' b probe at_ (d + 1) (len + 1) else Ok len
      else Ok len
  end.

(** [min(self.ships, key=lambda s: len(s))]: the first ship of least length,
    [ValueError] on an empty list. *)
Fixpoint min_by_len (h : list Ship) (best : Ship) (rest : list nat) : outcome Ship :=
  match rest with
  | [] => Ok best
  | a :: rest' =>
      s <- deref h a ;;;
      min_by_len h (if _length s <? _length best then s else best) rest'
  end.

Definition smallest_ship (h : list Ship) (l : list nat) : outcome Ship :=
  match l with
  | [] => Raise ValueError
  | a :: rest => s <- deref h a ;;; min_by_len h s rest
  end.

Definition scan_fuel (b : Board) : nat := S (Z.to_nat (_n b)).

Definition can_contain_ship (w : World) (coordinate : coord) : outcome bool :=
  let b := board w in
  let '(row, col) := coordinate in
  x1 <- scan (scan_fuel b) b (fun dx => col + dx) (fun dx => (row, col + dx)) 1 1 ;;;
  max_x_len <- scan (scan_fuel b) b (fun dx => col - dx) (fun dx => (row, col - dx)) 1 x1 ;;;
  y1 <- scan (scan_fuel b) b (fun dy => row + dy) (fun dy => (row + dy, col)) 1 1 ;;;
  max_y_len <- scan (scan_fuel b) b (fun dy => row - dy) (fun dy => (row - dy, col)) 1 y1 ;;;
  let max_possible_len := Z.max max_x_len max_y_len in
  smallest <- smallest_ship (heap w) (ships b) ;;;
  v <- cell b coordinate ;;;
  Ok ((v <? 2) && (_length smallest <=? max_possible_len)).

(** ** Targeting *)

(** [adjacent_coordinates_in]. *)
Definition adjacent_coordinates_in (coordinates : list coord) : list (coord * coord) :=
  flat_map (fun coord1 =>
    flat_map (fun coord2 =>
      if ((fst coord1 - fst coord2 =? 1) && (snd coord1 - snd coord2 =? 0))
         || ((fst coord1 - fst coord2 =? 0) && (snd coord1 - snd coord2 =? 1))
      then [(coord1, coord2)] else [])
      coordinates)
    coordinates.

(** [[x for x in l if f(x)]] for a predicate that may raise. *)
Fixpoint filter_ok {A} (f : A -> outcome bool) (l : list A) : outcome (list A) :=
  match l with
  | [] => Ok []
  | x :: rest =>
      keep <- f x ;;;
      rest' <- filter_ok f rest ;;;
      Ok (if keep then x :: rest' else rest')
  end.

(** The neighbours a pair of adjacent hits contributes. *)
Definition line_neighbours (b : Board) (coord_pair : coord * coord) : list coord :=
  let '(coord1, coord2) := coord_pair in
  if fst coord1 - fst coord2 =? 0
  then horizontal_neighbours b coord1 ++ horizontal_neighbours b coord2
  else vertical_neighbours b coord1 ++ vertical_neighbours b coord2.

(** The first [for] loop of [generate_targets]. *)
Fixpoint pairs_loop (w : World) (pairs : list (coord * coord))
    (possible_targets : list coord) : outcome (list coord) :=
  match pairs with
  | [] => Ok possible_targets
  | coord_pair :: rest =>
      filtered <- filter_ok (can_contain_ship w)
                    (possible_targets ++ line_neighbours (board w) coord_pair) ;;;
      pairs_loop w rest filtered
  end.

(** The second [for] loop of [generate_targets]. *)
Fixpoint hits_loop (w : World) (hits : list coord)
    (possible_targets : list coord) : outcome (list coord) :=
  match hits with
  | [] => Ok possible_targets
  | previous_hit :: rest =>
      filtered <- filter_ok (can_contain_ship w)
                    (possible_targets ++ all_neighbours (board w) previous_hit) ;;;
      hits_loop w rest filtered
  end.

(** [[(row, col) for row in range(n) for col in range(n)]]. *)
Definition all_coordinates (n : Z) : list coord :=
  flat_map (fun row => map (fun col => (row, col)) (seqZ 0 n)) (seqZ 0 n).

Definition is_nil {A} (l : list A) : bool :=
  match l with [] => true | _ => false end.

(** [Board.generate_targets]. *)
Definition generate_targets (w : World) : outcome (list coord) :=
  let hits := _previous_hits (board w) in
  found <- (if is_nil (adjacent_coordinates_in hits) then Ok []
            else pairs_loop w (adjacent_coordinates_in hits) []) ;;;
  if negb (is_nil found) then Ok found
  else
    found' <- hits_loop w hits found ;;;
    if negb (is_nil found') then Ok found'
    else filter_ok (can_contain_ship w) (all_coordinates (_n (board w))).

(** ** Random placement

    The random source is the stream of raw values the generator hands out,
    one per call: [random.randint(0, n - 1)] reduces its value into
    [0 .. n - 1] and raises [ValueError] on an empty range,
    [random.choice] of four items reduces its value into [0 .. 3]. *)

Definition randint_below (n raw : Z) : outcome Z :=
  if n <=? 0 then Raise ValueError else Ok (raw mod n).

Definition choice_direction (raw : Z) : direction :=
  let i := raw mod 4 in
  if i =? 0 then DirN else if i =? 1 then DirE else if i =? 2 then DirS else DirW.

(** The [while True] loop of [initialise_ships_randomly] for one ship; [k]
    is the number of values already taken from the source. *)
Fixpoint place_randomly (fuel : nat) (rng : nat -> Z) (k : nat) (ship_length : Z)
    : M nat :=
  match fuel with
  | O => fun w => (w, Diverge)
  | S fuel' =>
      r <~ lift (fun w => randint_below (_n (board w)) (rng k)) ;;
      c <~ lift (fun w => randint_below (_n (board w)) (rng (S k))) ;;
      let d := choice_direction (rng (S (S k))) in
      placed <~ try_place ship_length (r, c) d ;;
      if placed then ret (S (S (S k)))
      else place_randomly fuel' rng (S (S (S k))) ship_length
  end.

(** [Board.initialise_ships_randomly]; every [while] loop gets [fuel]
    attempts. *)
Fixpoint initialise_ships_randomly (fuel : nat) (rng : nat -> Z) (k : nat)
    (ship_lengths : list Z) : M nat :=
  match ship_lengths with
  | [] => ret k
  | ship_length :: rest =>
      k' <~ place_randomly fuel rng k ship_length ;;
      initialise_ships_randomly fuel rng k' rest
  end.

(** ** Notions used by the statements *)

Definition with_target (w : World) (g : option coord) : World :=
  {| heap := heap w; board := board w; target_coordinate := g;
     stdout := stdout w |}.

Definition with_stdout (w : World) (out : list string) : World :=
  {| heap := heap w; board := board w;
     target_coordinate := target_coordinate w; stdout := out |}.

Definition with_board (w : World) (b : Board) : World :=
  {| heap := heap w; board := b;
     target_coordinate := target_coordinate w; stdout := stdout w |}.

Definition with_cells (b : Board) (m : gmap (Z * Z) Z) : Board :=
  {| _n := _n b; _board := m; ships := ships b;
     _previous_hits := _previous_hits b |}.

(** Two coordinates differ by exactly 1 in one axis and 0 in the other. *)
Definition directly_adjacent (c1 c2 : coord) : Prop :=
  (Z.abs (fst c1 - fst c2) = 1 /\ snd c1 = snd c2) \/
  (fst c1 = fst c2 /\ Z.abs (snd c1 - snd c2) = 1).

Definition has_adjacent_hits (b : Board) : Prop :=
  exists c1 c2, c1 ∈ _previous_hits b /\ c2 ∈ _previous_hits b /\
                directly_adjacent c1 c2.

(** [p] continues the line through the adjacent hits [c1] and [c2]: it is a
    neighbour on the board of one of the two, above or below it when the pair
    is vertical (the rows differ), left or right of it when the pair is
    horizontal. *)
Definition extends_line (b : Board) (c1 c2 p : coord) : Prop :=
  (fst c1 <> fst c2 /\
   exists e, (e = c1 \/ e = c2) /\ snd p = snd e /\
             Z.abs (fst p - fst e) = 1 /\ in_range (_n b) (fst p) = true) \/
  (fst c1 = fst c2 /\
   exists e, (e = c1 \/ e = c2) /\ fst p = fst e /\
             Z.abs (snd p - snd e) = 1 /\ in_range (_n b) (snd p) = true).

(** The three candidate pools of the targeting heuristic, each filtered
    through [can_contain_ship]. *)
Definition line_inference_pool (w : World) : outcome (list coord) :=
  filter_ok (can_contain_ship w)
    (flat_map (line_neighbours (board w))
       (adjacent_coordinates_in (_previous_hits (board w)))).

Definition hit_adjacency_pool (w : World) : outcome (list coord) :=
  filter_ok (can_contain_ship w)
    (flat_map (all_neighbours (board w)) (_previous_hits (board w))).

Definition full_scan_pool (w : World) : outcome (list coord) :=
  filter_ok (can_contain_ship w) (all_coordinates (_n (board w))).

(** Two Destroyers on a 3x3 board: object 0 on row 0, object 1 on row 2. *)
Definition two_destroyers : World :=
  fst ((try_place 2 (0, 0) DirE ;; try_place 2 (2, 0) DirE) (new_world 3)).

(** Two Destroyers side by side, each hit once in row 0, after a miss at
    the end of that row. *)
Definition side_by_side : World :=
  fst ((try_place 2 (0, 0) DirS ;; try_place 2 (0, 1) DirS ;;
        fire (0, 2) ;; fire (0, 0) ;; fire (0, 1)) (new_world 3)).

(** A Submarine along row 0, hit on its first two cells. *)
Definition two_hits_in_line : World :=
  fst ((try_place 3 (0, 0) DirE ;; fire (0, 0) ;; fire (0, 1)) (new_world 3)).

(** Every stored cell value is one of Sea (0), UnhitShip (1), HitShip (2),
    Miss (3). *)
Definition cells_valid (b : Board) : Prop :=
  forall k v, _board b !! k = Some v -> 0 <= v <= 3.

(** Every address in [ships] is the address of a ship object. *)
Definition ships_allocated (w : World) : Prop :=
  forall a, a ∈ ships (board w) -> is_Some (heap w !! a).

(** [p] is off the board or a Miss cell. *)
Definition miss_or_edge (b : Board) (p : coord) : Prop :=
  in_bounds (_n b) p = false \/ cell b p = Ok 3.

(** On the line [line], the cells of index [lo] to [hi] are the run of
    non-Miss cells through index [x]: all on the board and none a Miss,
    with a Miss cell or the board edge just beyond each end. *)
Definition run_along (b : Board) (line : Z -> coord) (x lo hi : Z) : Prop :=
  lo <= x <= hi /\
  (forall j, lo <= j <= hi ->
             in_bounds (_n b) (line j) = true /\ cell b (line j) <> Ok 3) /\
  miss_or_edge b (line (lo - 1)) /\ miss_or_edge b (line (hi + 1)).

Definition horizontal_run (b : Board) (c : coord) (lo hi : Z) : Prop :=
  run_along b (fun j => (fst c, j)) (snd c) lo hi.

Definition vertical_run (b : Board) (c : coord) (lo hi : Z) : Prop :=
  run_along b (fun j => (j, snd c)) (fst c) lo hi.

(** [m] is the length of the shortest ship in [ships]. *)
Definition shortest_remaining (w : World) (m : Z) : Prop :=
  (exists a s, a ∈ ships (board w) /\ heap w !! a = Some s /\ _length s = m) /\
  (forall a s, a ∈ ships (board w) -> heap w !! a = Some s -> m <= _length s).

(** The condition under which a coordinate can still hold a ship: the cell
    is Sea or UnhitShip, and the longer of the horizontal and the vertical
    run of non-Miss cells through it has at least [m] cells. *)
Definition feasible_target (b : Board) (c : coord) (m : Z) : Prop :=
  (cell b c = Ok 0 \/ cell b c = Ok 1) /\
  exists lo hi lo' hi',
    horizontal_run b c lo hi /\ vertical_run b c lo' hi' /\
    m <= Z.max (hi - lo + 1) (hi' - lo' + 1).

(** ** Histories of a board *)

(** A board of size [n] after some placements, each made the way both
    placement routines make them (construct the ship, check it with
    [is_valid_placement], place it).  [P] restricts the start coordinates that
    are tried. *)
Inductive placed (P : coord -> Prop) (n : Z) : World -> Prop :=
  | placed_new : 0 <= n -> placed P n (new_world n)
  | placed_ship w length start d w' :
      placed P n w -> P start ->
      try_place length start d w = (w', Ok true) ->
      placed P n w'.

(** Placements from any start, then calls of [apply_shot] on any coordinate
    under any binding [g] of the global name, whether they return or
    raise. *)
Inductive shot_at (n : Z) : World -> Prop :=
  | shot_at_placed w : placed (fun _ => True) n w -> shot_at n w
  | shot_at_shot w g c w' r :
      shot_at n w -> apply_shot c (with_target w g) = (w', r) -> shot_at n w'.

(** The game as the main loop plays it: placements from starts on the
    board, then turns that bind the target, which is on the board, and
    apply the shot. *)
Inductive game (n : Z) : World -> Prop :=
  | game_placed w : placed (fun c => in_bounds n c = true) n w -> game n w
  | game_fire w c w' r :
      game n w -> in_bounds n c = true -> fire c w = (w', r) -> game n w'.

(** Every ship object of [w] is still there in [w'], the same ship, with no
    more health than before. *)
Definition health_not_raised (w w' : World) : Prop :=
  forall a s, heap w !! a = Some s ->
    exists s', heap w' !! a = Some s' /\
               condition s' <= condition s /\
               _length s' = _length s /\ _points s' = _points s.

(** The ships in [ships] are distinct objects with health left, every ship
    object has a health between 0 and its length, and one with health left
    is in [ships]. *)
Record healthy (w : World) : Prop := mk_healthy {
  healthy_nodup : NoDup (ships (board w));
  healthy_afloat : forall a, a ∈ ships (board w) ->
      exists s, heap w !! a = Some s /\ 1 <= condition s;
  healthy_range : forall a s, heap w !! a = Some s ->
      0 <= condition s <= _length s;
  healthy_listed : forall a s, heap w !! a = Some s ->
      0 < condition s -> a ∈ ships (board w)
}.

(** One operation on the board: a placement that went through, or a shot
    under some binding of the global name. *)
Inductive board_step : World -> World -> Prop :=
  | step_place w length start d w' :
      try_place length start d w = (w', Ok true) -> board_step w w'
  | step_shot w g c w' r :
      apply_shot c (with_target w g) = (w', r) -> board_step w w'.

(** [m] relates every world it is run in to the world it leaves, whatever
    its outcome. *)
Definition preserves {A} (R : World -> World -> Prop) (m : M A) : Prop :=
  forall w w' r, m w = (w', r) -> R w w'.

(** The ship objects and the list of ships are the same. *)
Definition same_fleet (w w' : World) : Prop :=
  heap w' = heap w /\ ships (board w') = ships (board w).

Definition keeps_health (w w' : World) : Prop :=
  healthy w -> healthy w' /\ health_not_raised w w'.

(** The value stored for a cell that is on the board. *)
Definition value (b : Board) (p : coord) : Z := default 0 (_board b !! p).

(** How many of the cells [pts] are marked UnhitShip. *)
Fixpoint unhit_cells (b : Board) (pts : list coord) : Z :=
  match pts with
  | [] => 0
  | p :: rest => (if value b p =? 1 then 1 else 0) + unhit_cells b rest
  end.

(** The agreement between the grid, the ship objects, the list of ships and
    the recorded hits that the game maintains on a board of size [n]. *)
Record consistent (n : Z) (w : World) : Prop := mk_consistent {
  cons_size : _n (board w) = n;
  cons_health : forall a s, heap w !! a = Some s ->
      condition s = unhit_cells (board w) (_points s);
  cons_cells : forall a s, heap w !! a = Some s ->
      NoDup (_points s) /\
      forall p, p ∈ _points s ->
        in_bounds n p = true /\ (value (board w) p = 1 \/ value (board w) p = 2);
  cons_listed : forall a s, heap w !! a = Some s ->
      0 < condition s -> a ∈ ships (board w);
  cons_disjoint : forall a a' s s' p,
      heap w !! a = Some s -> heap w !! a' = Some s' ->
      p ∈ _points s -> p ∈ _points s' -> a = a';
  cons_hits_nodup : NoDup (_previous_hits (board w));
  cons_hits : forall p, p ∈ _previous_hits (board w) <->
      value (board w) p = 2 /\
      exists a s, a ∈ ships (board w) /\ heap w !! a = Some s /\ p ∈ _points s;
  cons_unhit : forall p, value (board w) p = 1 ->
      exists a s, heap w !! a = Some s /\ p ∈ _points s
}.

(** No shot has been fired yet. *)
Definition untouched (w : World) : Prop :=
  _previous_hits (board w) = [] /\
  forall p, value (board w) p = 0 \/ value (board w) p = 1.

(** What the loop over the ships leaves when exactly the ship [s0] at
    address [a0] contains the target. *)
Definition hit_result (a0 : nat) (s0 : Ship) (w w' : World) : Prop :=
  heap w' = <[a0 := damage s0]> (heap w) /\
  _n (board w') = _n (board w) /\
  _board (board w') = _board (board w) /\
  if sunk (damage s0)
  then (NoDup (ships (board w')) /\
        forall a, a ∈ ships (board w') <-> a ∈ ships (board w) /\ a <> a0) /\
       (NoDup (_previous_hits (board w')) /\
        forall p, p ∈ _previous_hits (board w') <->
                  p ∈ _previous_hits (board w) /\ p ∉ _points s0)
  else ships (board w') = ships (board w) /\
       _previous_hits (board w') = _previous_hits (board w).

(** The world in which the loop over the ships starts after a hit on a cell
    [c] of the board. *)
Definition hit_marked (c : coord) (w : World) : World :=
  {| heap := heap w;
     board := {| _n := _n (board w); _board := <[c := 2]> (_board (board w));
                 ships := ships (board w);
                 _previous_hits := _previous_hits (board w) ++ [c] |};
     target_coordinate := target_coordinate w;
     stdout := stdout w ++ ["Hit!"%string] |}.

(** The world right after [place_ship] has appended the new ship object [s]
    to [ships], before its cells are marked. *)
Definition launched (s : Ship) (w : World) : World :=
  {| heap := heap w ++ [s];
     board := with_ships (board w) (ships (board w) ++ [length (heap w)]);
     target_coordinate := target_coordinate w;
     stdout := stdout w |}.

(** The two Destroyers after a turn that hit the first of them once. *)
Definition first_destroyer_hit : World := fst (fire (0, 0) two_destroyers).

(** The start and direction that one attempt of the random placement reads
    from the source at position [k], on a board of size [n]. *)
Definition draw (rng : nat -> Z) (n : Z) (k : nat) : coord * direction :=
  ((rng k mod n, rng (S k) mod n), choice_direction (rng (S (S k)))).

(** The [j]-th attempt from position [k] is turned down and leaves the world
    as it is. *)
Definition turned_down (rng : nat -> Z) (k : nat) (ship_length : Z) (w : World)
    (j : nat) : Prop :=
  let d := draw rng (_n (board w)) (k + 3 * j) in
  try_place ship_length (fst d) (snd d) w = (w, Ok false).

(** From position [k] on, the source holds for each ship in turn an attempt
    that goes through. *)
Fixpoint draws_suffice (rng : nat -> Z) (k : nat) (ship_lengths : list Z)
    (w : World) : Prop :=
  match ship_lengths with
  | [] => True
  | ship_length :: rest =>
      exists (j : nat) (w' : World),
        (forall i, (i < j)%nat -> turned_down rng k ship_length w i) /\
        (let d := draw rng (_n (board w)) (k + 3 * j) in
         try_place ship_length (fst d) (snd d) w = (w', Ok true)) /\
        draws_suffice rng (k + 3 * j + 3) rest w'
  end.

(** ** Relations between the worlds before and after an operation *)

(** The grid is the same: same size, same cell values. *)
Definition same_grid (w w' : World) : Prop :=
  _n (board w') = _n (board w) /\ _board (board w') = _board (board w).

(** Lines were printed, none was taken back. *)
Definition printed_more (w w' : World) : Prop :=
  exists more, stdout w' = stdout w ++ more.

(** One step apart in exactly one of the two axes. *)
Definition next_to (c p : coord) : Prop :=
  Z.abs (fst p - fst c) + Z.abs (snd p - snd c) = 1.

(** What the loop over the ships leaves alone: the grid and the global name;
    printed lines are only added. *)
Definition loop_frame (w w' : World) : Prop :=
  same_grid w w' /\ printed_more w w' /\
  target_coordinate w' = target_coordinate w.

(** The world in which the loop over the ships starts after a hit at the
    index [coordinate], which numpy reads as the cell [k]. *)
Definition hit_marked_at (k coordinate : coord) (w : World) : World :=
  {| heap := heap w;
     board := {| _n := _n (board w); _board := <[k := 2]> (_board (board w));
                 ships := ships (board w);
                 _previous_hits := _previous_hits (board w) ++ [coordinate] |};
     target_coordinate := target_coordinate w;
     stdout := stdout w ++ ["Hit!"%string] |}.

(** Every ship object is a ship as [Ship.__init__] builds it, whatever its
    health: a supported length and the cells of a line from some start. *)
Definition well_built (w : World) : Prop :=
  forall a s, heap w !! a = Some s ->
    2 <= _length s <= 5 /\
    exists start d,
      _points s = points_from start (direction_vectors d) 0 (Z.to_nat (_length s)).

(** The ship objects of [w'] are those of [w], with the same cells, length
    and name. *)
Definition same_shapes (w w' : World) : Prop :=
  forall a s', heap w' !! a = Some s' ->
    exists s, heap w !! a = Some s /\ _points s' = _points s /\
              _length s' = _length s /\ variety s' = variety s.

(** ** Rendering

    [ROWS] and [COLS] are the module's lists of row and column names, bound
    by the main block before a board is printed. *)

(** [[f(x) for x in l]] for a function that may raise. *)
Fixpoint map_ok {A B} (f : A -> outcome B) (l : list A) : outcome (list B) :=
  match l with
  | [] => Ok []
  | x :: rest => y <- f x ;;; ys <- map_ok f rest ;;; Ok (y :: ys)
  end.

(** The string [\n]. *)
Definition newline : string := String (Ascii.ascii_of_nat 10) EmptyString.

(** [s * k]. *)
Fixpoint repeat_string (s : string) (k : nat) : string :=
  match k with
  | O => EmptyString
  | S k' => String.append s (repeat_string s k')
  end.

Definition default_symbols : gmap Z string :=
  {[ 0 := "_"; 1 := "#"; 2 := "X"; 3 := "O" ]}%string.

Definition hidden_symbols : gmap Z string :=
  {[ 0 := "~"; 1 := "~"; 2 := "X"; 3 := "O" ]}%string.

(** [symbols[x]]. *)
Definition symbol_of (symbols : gmap Z string) (x : Z) : outcome string :=
  match symbols !! x with
  | Some sym => Ok sym
  | None => Raise KeyError
  end.

(** Row [r] of the array, as the iteration over [self._board] yields it. *)
Definition board_row (b : Board) (r : Z) : list Z :=
  map (fun c => default 0 (_board b !! (r, c))) (seqZ 0 (_n b)).

(** [Board.to_string]; [symbols] is [None] when the argument is left out. *)
Definition to_string (ROWS COLS : list string) (b : Board)
    (symbols : option (gmap Z string)) : outcome string :=
  let symbols :=
    match symbols with
    | Some m => if decide (m = ∅) then default_symbols else m
    | None => default_symbols
    end in
  rows <- map_ok (fun '(row_name, r) =>
            cells <- map_ok (symbol_of symbols) (board_row b r) ;;;
            Ok (String.append row_name
                  (String.append "|"
                     (String.append (String.concat "|" cells) "|"))))
          (zip ROWS (seqZ 0 (_n b))) ;;;
  Ok (String.append
        (String.concat newline
           (String.append "  " (repeat_string "_ " (Z.to_nat (_n b)))
              :: rows ++ [String.append "  " (String.concat " " COLS)]))
        newline).

(** [Board.__str__]. *)
Definition Board_str (ROWS COLS : list string) (b : Board) : outcome string :=
  to_string ROWS COLS b None.

(** [Board.with_hidden_ships]. *)
Definition with_hidden_ships (ROWS COLS : list string) (b : Board)
    : outcome string :=
  to_string ROWS COLS b (Some hidden_symbols).

(** The two boards have the same size and the same Hit and Miss cells. *)
Definition same_shots (b b' : Board) : Prop :=
  _n b' = _n b /\
  forall p, in_bounds (_n b) p = true ->
    (value b p = 2 <-> value b' p = 2) /\ (value b p = 3 <-> value b' p = 3).

(** The cells of the board no shot has landed on yet, in the order of the
    scan of the whole board. *)
Definition open_cells (b : Board) : list coord :=
  filter (fun p => value b p < 2) (all_coordinates (_n b)).

(** The board of [w] has no legal slot left for a ship of length
    [ship_length]: from no start on the board, in no direction, does the ship
    pass [is_valid_placement]. *)
Definition no_slot (ship_length : Z) (w : World) : Prop :=
  forall start d, in_bounds (_n (board w)) start = true ->
    try_place ship_length start d w = (w, Ok false).

(** A 3x3 board with a Submarine across the middle row and a Destroyer at
    the left of the top and of the bottom row: the two cells left free are
    not next to each other. *)
Definition crowded : World :=
  fst ((try_place 3 (1, 0) DirE ;; try_place 2 (0, 0) DirE ;;
        try_place 2 (2, 0) DirE) (new_world 3)).

(** The same 3x3 board holding the fleet of a Submarine and three
    Destroyers. *)
Definition full_board : World :=
  fst ((try_place 3 (0, 0) DirE ;; try_place 2 (1, 0) DirE ;;
        try_place 2 (2, 0) DirE ;; try_place 2 (1, 2) DirS) (new_world 3)).

(** A Destroyer on the top row and a Submarine on the bottom row of a 3x3
    board. *)
Definition destroyer_and_submarine : World :=
  fst ((try_place 2 (0, 0) DirE ;; try_place 3 (2, 0) DirE) (new_world 3)).

(** A turn at (2, 2), then two calls of [apply_shot] on the cells of the
    Destroyer while the global name still holds (2, 2). *)
Definition shots_under_old_target : World * outcome unit :=
  (fire (2, 2) ;; apply_shot (0, 0) ;; apply_shot (0, 1)) destroyer_and_submarine.

(** * Properties *)

(** ** Ship.damage *)

(** C8 (as the code has it): [Ship.damage] lowers [remaining_health] by one
    on every ship and changes nothing else; it has no failure case, so on a
    ship whose health is already zero the health becomes [-1]. *)
Theorem damage_decrements_unconditionally (s : Ship) :
  condition (damage s) = condition s - 1 /\
  _length (damage s) = _length s /\
  _points (damage s) = _points s /\
  variety (damage s) = variety s /\
  endpoint (damage s) = endpoint s /\
  (sunk s = false \/ condition (damage s) = -1).
Proof.
  repeat split. unfold sunk. destruct (Z.eqb_spec (condition s) 0) as [H | H].
  - right. simpl. lia.
  - now left.
Qed.

(** C8 does not hold as stated: damaging a Destroyer a third time, when it is
    already sunk, returns normally and leaves its health at [-1]. *)
Lemma damage_on_sunk_ship_goes_negative :
  (s <- Ship_init 2 (0, 0) DirE ;;;
   Ok (sunk (damage (damage s)), condition (damage (damage (damage s)))))
  = Ok (true, -1).
Proof. reflexivity. Qed.

(** ** Board.apply_shot *)

(** C2 (the code at a failing input): with the global [target_coordinate]
    bound to [(2, 0)], a shot at [(0, 0)] marks [(0, 0)] as hit and records
    it, but damages the ship lying on [(2, 0)], not the one that was hit;
    with the global unbound the same shot raises [NameError] after the cell
    was marked. *)
Theorem apply_shot_looks_up_the_global :
  let hit := apply_shot (0, 0) (with_target two_destroyers (Some (2, 0))) in
  let unbound := apply_shot (0, 0) (with_target two_destroyers None) in
  map _points (heap two_destroyers) = [[(0, 0); (0, 1)]; [(2, 0); (2, 1)]] /\
  map condition (heap two_destroyers) = [2; 2] /\
  snd hit = Ok tt /\
  cell (board (fst hit)) (0, 0) = Ok 2 /\
  _previous_hits (board (fst hit)) = [(0, 0)] /\
  map condition (heap (fst hit)) = [2; 1] /\
  snd unbound = Raise NameError /\
  cell (board (fst unbound)) (0, 0) = Ok 2 /\
  map condition (heap (fst unbound)) = [2; 2].
Proof. vm_compute. repeat split. Qed.

(** C6: a shot at a cell that is already [HitShip] (2) or [Miss] (3) prints
    [Miss.] and leaves the board (cells, ships, recorded hits), the ship
    objects and the global untouched; a shot at a [Sea] cell (0) prints
    [Miss.], stores 3 in that cell and changes nothing else. *)
Theorem apply_shot_off_ship (w : World) (c : coord) (v : Z) :
  cell (board w) c = Ok v ->
  (v = 2 \/ v = 3 ->
   apply_shot c w = (with_stdout w (stdout w ++ ["Miss."%string]), Ok tt)) /\
  (v = 0 ->
   exists k, norm_coord (_n (board w)) c = Some k /\
     apply_shot c w =
       (with_stdout
          (with_board w (with_cells (board w) (<[k := 3]> (_board (board w)))))
          (stdout w ++ ["Miss."%string]),
        Ok tt) /\
     cell (board (fst (apply_shot c w))) c = Ok 3 /\
     forall c' k', norm_coord (_n (board w)) c' = Some k' -> k' <> k ->
       cell (board (fst (apply_shot c w))) c' = cell (board w) c').
Proof.
  intros Hcell. split.
  - intros Hv.
    unfold apply_shot, bind, lift, print, ret. rewrite Hcell.
    destruct Hv as [-> | ->]; simpl; rewrite Hcell; simpl;
      destruct w as [h [n g l ph] t out]; reflexivity.
  - intros ->. pose proof Hcell as Hc. unfold cell in Hc.
    destruct (norm_coord (_n (board w)) c) as [k |] eqn:Hk; [| discriminate].
    exists k. split; [reflexivity |].
    assert (Hrun : apply_shot c w =
      (with_stdout
         (with_board w (with_cells (board w) (<[k := 3]> (_board (board w)))))
         (stdout w ++ ["Miss."%string]), Ok tt)).
    { unfold apply_shot, bind, lift, print, put_cell, bind, lift, set_board.
      rewrite Hcell. simpl. rewrite Hcell. simpl.
      unfold set_cell. rewrite Hk. reflexivity. }
    split; [exact Hrun |]. rewrite Hrun. simpl. split.
    + unfold cell. simpl. rewrite Hk. now rewrite lookup_insert_eq.
    + intros c' k' Hk' Hne. unfold cell. simpl. rewrite Hk'.
      now rewrite lookup_insert_ne.
Qed.

Lemma apply_shot_off_ship_witness :
  let w1 := fst (apply_shot (1, 1) two_destroyers) in
  apply_shot (1, 1) w1 = (with_stdout w1 (stdout w1 ++ ["Miss."%string]), Ok tt) /\
  exists k, norm_coord (_n (board two_destroyers)) (1, 1) = Some k /\
     apply_shot (1, 1) two_destroyers =
       (with_stdout
          (with_board two_destroyers
             (with_cells (board two_destroyers)
                (<[k := 3]> (_board (board two_destroyers)))))
          (stdout two_destroyers ++ ["Miss."%string]),
        Ok tt) /\
     cell (board (fst (apply_shot (1, 1) two_destroyers))) (1, 1) = Ok 3 /\
     forall c' k', norm_coord (_n (board two_destroyers)) c' = Some k' -> k' <> k ->
       cell (board (fst (apply_shot (1, 1) two_destroyers))) c'
       = cell (board two_destroyers) c'.
Proof.
  split.
  - apply (proj1 (apply_shot_off_ship (fst (apply_shot (1, 1) two_destroyers))
                    (1, 1) 3 eq_refl)).
    right. reflexivity.
  - apply (proj2 (apply_shot_off_ship two_destroyers (1, 1) 0 eq_refl)).
    reflexivity.
Defined.

(** ** Geometry of a ship *)

Lemma in_range_spec n i : in_range n i = true <-> 0 <= i < n.
Proof. unfold in_range. rewrite andb_true_iff, Z.leb_le, Z.ltb_lt. tauto. Qed.

Lemma in_bounds_spec n c :
  in_bounds n c = true <-> (0 <= fst c < n) /\ (0 <= snd c < n).
Proof. unfold in_bounds. now rewrite andb_true_iff, !in_range_spec. Qed.

Lemma norm_index_in_range n i : in_range n i = true -> norm_index n i = Some i.
Proof. unfold norm_index, in_range. now intros ->. Qed.

Lemma norm_coord_in_bounds n c : in_bounds n c = true -> norm_coord n c = Some c.
Proof.
  unfold in_bounds, norm_coord. intros [H1 H2]%andb_true_iff.
  rewrite (norm_index_in_range _ _ H1), (norm_index_in_range _ _ H2).
  now destruct c.
Qed.

Lemma cell_in_bounds b c :
  in_bounds (_n b) c = true -> cell b c = Ok (default 0 (_board b !! c)).
Proof. intros H. unfold cell. now rewrite (norm_coord_in_bounds _ _ H). Qed.

Lemma elem_of_points_from start dv i k p :
  p ∈ points_from start dv i k <->
  exists j, i <= j < i + Z.of_nat k /\
            p = (fst start + j * fst dv, snd start + j * snd dv).
Proof.
  revert i. induction k as [| k IH]; intros i; simpl.
  - split; [intros H; inversion H | intros (j & Hj & _); lia].
  - rewrite elem_of_cons, IH. split.
    + intros [-> | (j & Hj & ->)]; [exists i | exists j]; split; auto; lia.
    + intros (j & Hj & ->). destruct (Z.eq_dec j i) as [-> | Hne]; [now left |].
      right. exists j. split; [lia | reflexivity].
Qed.

Lemma last_points_from start dv i k :
  last (points_from start dv i (S k)) =
  Some (fst start + (i + Z.of_nat k) * fst dv, snd start + (i + Z.of_nat k) * snd dv).
Proof.
  revert i. induction k as [| k IH]; intros i.
  - simpl. now rewrite Z.add_0_r.
  - change (points_from start dv i (S (S k)))
      with ((fst start + i * fst dv, snd start + i * snd dv)
              :: points_from start dv (i + 1) (S k)).
    rewrite last_cons, IH.
    replace (i + 1 + Z.of_nat k) with (i + Z.of_nat (S k)) by lia. reflexivity.
Qed.

Lemma NoDup_points_from start dv i k :
  dv <> (0, 0) -> NoDup (points_from start dv i k).
Proof.
  intros Hdv. revert i. induction k as [| k IH]; intros i; simpl.
  - constructor.
  - constructor; [| apply IH].
    rewrite elem_of_points_from. intros (j & Hj & Heq).
    injection Heq as H1 H2. destruct dv as [dr dc]. simpl in *.
    assert (dr = 0) by nia. assert (dc = 0) by nia. congruence.
Qed.

Lemma supported_length length v :
  ship_varieties length = Some v -> 2 <= length <= 5.
Proof.
  unfold ship_varieties.
  destruct (Z.eqb_spec length 2); [intros; lia |].
  destruct (Z.eqb_spec length 3); [intros; lia |].
  destruct (Z.eqb_spec length 4); [intros; lia |].
  destruct (Z.eqb_spec length 5); [intros; lia | discriminate].
Qed.

(** What [Ship.__init__] builds. *)
Lemma Ship_init_ok length start d s :
  Ship_init length start d = Ok s ->
  2 <= length <= 5 /\
  _length s = length /\ condition s = length /\
  _points s = points_from start (direction_vectors d) 0 (Z.to_nat length) /\
  endpoint s = (fst start + (length - 1) * fst (direction_vectors d),
                snd start + (length - 1) * snd (direction_vectors d)).
Proof.
  unfold Ship_init. destruct (ship_varieties length) as [v |] eqn:Hv; [| discriminate].
  apply supported_length in Hv.
  destruct (Z.to_nat length) as [| k] eqn:Hk; [lia |].
  rewrite last_points_from. intros [= <-]. simpl.
  repeat split; try lia. f_equal; f_equal; lia.
Qed.

Lemma Ship_init_total length start d :
  2 <= length <= 5 -> exists s, Ship_init length start d = Ok s.
Proof.
  intros H. unfold Ship_init.
  assert (length = 2 \/ length = 3 \/ length = 4 \/ length = 5) as
    [-> | [-> | [-> | ->]]] by lia; simpl; eauto.
Qed.

Lemma direction_vectors_unit d :
  let dv := direction_vectors d in
  dv <> (0, 0) /\ -1 <= fst dv <= 1 /\ -1 <= snd dv <= 1.
Proof. destruct d; simpl; repeat split; (lia || discriminate). Qed.

Lemma Ship_init_NoDup length start d s :
  Ship_init length start d = Ok s -> NoDup (_points s).
Proof.
  intros (_ & _ & _ & -> & _)%Ship_init_ok.
  apply NoDup_points_from, direction_vectors_unit.
Qed.

(** A ship whose two ends are on the board lies on the board. *)
Lemma ship_between_ends n length start d s :
  Ship_init length start d = Ok s ->
  in_bounds n start = true -> in_bounds n (endpoint s) = true ->
  forall p, p ∈ _points s -> in_bounds n p = true.
Proof.
  intros (Hlen & _ & _ & Hpts & Hend)%Ship_init_ok Hs He p Hp.
  rewrite Hpts, elem_of_points_from in Hp. destruct Hp as (j & Hj & ->).
  rewrite Hend in He. apply in_bounds_spec in Hs, He. apply in_bounds_spec.
  simpl in *. pose proof (direction_vectors_unit d) as (_ & Hr & Hc).
  simpl in Hr, Hc. rewrite Z2Nat.id in Hj by lia. split; nia.
Qed.

Lemma endpoint_is_point length start d s :
  Ship_init length start d = Ok s -> endpoint s ∈ _points s.
Proof.
  intros (Hlen & _ & _ & -> & ->)%Ship_init_ok.
  apply elem_of_points_from. exists (length - 1). split; [lia | reflexivity].
Qed.

(** ** Board.is_valid_placement *)

Lemma all_not_unhit_in_bounds b pts :
  (forall p, p ∈ pts -> in_bounds (_n b) p = true) ->
  exists v, all_not_unhit b pts = Ok v /\
            (v = true <-> forall p, p ∈ pts -> cell b p <> Ok 1).
Proof.
  induction pts as [| p rest IH]; intros Hin; simpl.
  - exists true. split; [reflexivity |]. split; [| reflexivity].
    intros _ p Hp. inversion Hp.
  - rewrite (cell_in_bounds b p) by (apply Hin; left). simpl.
    destruct IH as (v & Hv & Hiff); [intros q Hq; apply Hin; now right |].
    destruct (Z.eqb_spec (default 0 (_board b !! p)) 1) as [H1 | H1].
    + exists false. split; [reflexivity |]. split; [discriminate |].
      intros H. exfalso. apply (H p); [left |].
      rewrite cell_in_bounds by (apply Hin; left). now rewrite H1.
    + exists v. split; [exact Hv |]. rewrite Hiff. split.
      * intros H q [-> | Hq]%elem_of_cons; [| now apply H].
        rewrite cell_in_bounds by (apply Hin; left). congruence.
      * intros H q Hq. apply H. now right.
Qed.

(** C3 (as the code has it): for a ship whose start coordinate is on the
    board, [is_valid_placement] returns, and returns [True] exactly when
    every cell of the ship is within [0,N)x[0,N) and no cell of the ship is
    marked [UnhitShip] (1). *)
Theorem is_valid_placement_start_on_board
    (b : Board) (length : Z) (start : coord) (d : direction) (s : Ship) :
  Ship_init length start d = Ok s ->
  in_bounds (_n b) start = true ->
  exists v, is_valid_placement b s = Ok v /\
    (v = true <->
     (forall p, p ∈ _points s -> in_bounds (_n b) p = true) /\
     (forall p, p ∈ _points s -> cell b p <> Ok 1)).
Proof.
  intros Hs Hstart. unfold is_valid_placement.
  fold (in_bounds (_n b) (endpoint s)).
  destruct (in_bounds (_n b) (endpoint s)) eqn:He.
  - pose proof (ship_between_ends _ _ _ _ _ Hs Hstart He) as Hall.
    destruct (all_not_unhit_in_bounds b (_points s) Hall) as (v & Hv & Hiff).
    exists v. split; [exact Hv |]. rewrite Hiff. tauto.
  - exists false. split; [reflexivity |]. split; [discriminate |].
    intros [Hall _]. rewrite (Hall _ (endpoint_is_point _ _ _ _ Hs)) in He.
    discriminate.
Qed.

Lemma is_valid_placement_start_on_board_witness :
  exists v,
    is_valid_placement (board two_destroyers)
      (mkShip 2 "Destroyer" 2 [(0, 1); (0, 2)] (0, 2)) = Ok v /\
    (v = true <->
     (forall p, p ∈ [(0, 1); (0, 2)] -> in_bounds 3 p = true) /\
     (forall p, p ∈ [(0, 1); (0, 2)] -> cell (board two_destroyers) p <> Ok 1)).
Proof.
  apply (is_valid_placement_start_on_board (board two_destroyers) 2 (0, 1) DirE
           (mkShip 2 "Destroyer" 2 [(0, 1); (0, 2)] (0, 2))); reflexivity.
Defined.

(** C3 does not hold for a start outside the board: on an empty 3x3 board a
    Destroyer starting at [(-1, 0)] and heading south ends on the board and
    its off-board cell is read as row 2, so the check returns [True] although
    one of its cells is outside [0,3)x[0,3). *)
Lemma is_valid_placement_accepts_start_off_board :
  (s <- Ship_init 2 (-1, 0) DirS ;;;
   v <- is_valid_placement (board (new_world 3)) s ;;;
   Ok (_points s, v, forallb (in_bounds 3) (_points s)))
  = Ok ([(-1, 0); (0, 0)], true, false).
Proof. vm_compute. reflexivity. Qed.

(** ** Termination of the scans of can_contain_ship *)

Lemma cell_clean b c : clean (cell b c).
Proof. unfold cell. destruct (norm_coord _ _); split; discriminate. Qed.

Lemma scan_clean_measure (mu : Z -> nat) b probe at_ fuel d len :
  (forall k, in_range (_n b) (probe k) = true -> (mu (k + 1)%Z < mu k)%nat) ->
  (mu d < fuel)%nat ->
  clean (scan fuel b probe at_ d len).
Proof.
  intros Hmu. revert d len. induction fuel as [| fuel IH]; intros d len Hd; [lia |].
  simpl. destruct (in_range (_n b) (probe d)) eqn:Hr; [| split; discriminate].
  pose proof (cell_clean b (at_ d)) as [H1 H2].
  destruct (cell b (at_ d)) as [v | e | |]; simpl; try (split; discriminate);
    try congruence.
  destruct (v <? 3); [| split; discriminate].
  apply IH. specialize (Hmu d Hr). lia.
Qed.

Lemma scan_up_clean b base at_ len :
  clean (scan (scan_fuel b) b (fun k => base + k) at_ 1 len).
Proof.
  apply (scan_clean_measure
           (fun k => if in_range (_n b) (base + k)
                     then Z.to_nat (_n b - (base + k)) else O)).
  - intros k Hk. rewrite Hk. apply in_range_spec in Hk.
    destruct (in_range (_n b) (base + (k + 1))); lia.
  - unfold scan_fuel. destruct (in_range (_n b) (base + 1)) eqn:H; [| lia].
    apply in_range_spec in H. lia.
Qed.

Lemma scan_down_clean b base at_ len :
  clean (scan (scan_fuel b) b (fun k => base - k) at_ 1 len).
Proof.
  apply (scan_clean_measure
           (fun k => if in_range (_n b) (base - k)
                     then Z.to_nat (base - k + 1) else O)).
  - intros k Hk. rewrite Hk. apply in_range_spec in Hk.
    destruct (in_range (_n b) (base - (k + 1))); lia.
  - unfold scan_fuel. destruct (in_range (_n b) (base - 1)) eqn:H; [| lia].
    apply in_range_spec in H. lia.
Qed.

Lemma clean_cases {A} (r : outcome A) :
  clean r -> (exists a, r = Ok a) \/ raises r.
Proof.
  intros [H1 H2]. destruct r as [a | e | |]; try congruence;
    [left | right]; eexists; reflexivity.
Qed.

(** On the board no scan raises. *)
Lemma scan_no_raise b probe at_ fuel d len :
  (forall k, in_range (_n b) (probe k) = true -> in_bounds (_n b) (at_ k) = true) ->
  ~ raises (scan fuel b probe at_ d len).
Proof.
  intros Hat. revert d len. induction fuel as [| fuel IH]; intros d len [e He];
    [discriminate |].
  simpl in He. destruct (in_range (_n b) (probe d)) eqn:Hr; [| discriminate].
  rewrite (cell_in_bounds b (at_ d) (Hat d Hr)) in He. simpl in He.
  destruct (_ <? 3); [| discriminate]. apply (IH (d + 1) (len + 1)). now exists e.
Qed.

Lemma scans_return w row col :
  in_bounds (_n (board w)) (row, col) = true ->
  exists x1 x2 y1 y2,
    scan (scan_fuel (board w)) (board w) (fun dx => col + dx)
         (fun dx => (row, col + dx)) 1 1 = Ok x1 /\
    scan (scan_fuel (board w)) (board w) (fun dx => col - dx)
         (fun dx => (row, col - dx)) 1 x1 = Ok x2 /\
    scan (scan_fuel (board w)) (board w) (fun dy => row + dy)
         (fun dy => (row + dy, col)) 1 1 = Ok y1 /\
    scan (scan_fuel (board w)) (board w) (fun dy => row - dy)
         (fun dy => (row - dy, col)) 1 y1 = Ok y2.
Proof.
  intros [Hrow Hcol]%andb_true_iff. simpl in Hrow, Hcol.
  assert (Hh : forall f : Z -> Z, forall k, in_range (_n (board w)) (f k) = true ->
               in_bounds (_n (board w)) (row, f k) = true).
  { intros f k Hk. unfold in_bounds. simpl. now rewrite Hrow, Hk. }
  assert (Hv : forall f : Z -> Z, forall k, in_range (_n (board w)) (f k) = true ->
               in_bounds (_n (board w)) (f k, col) = true).
  { intros f k Hk. unfold in_bounds. simpl. now rewrite Hcol, Hk. }
  destruct (clean_cases _ (scan_up_clean (board w) col
              (fun dx => (row, col + dx)) 1)) as [[x1 H1] | H1];
    [| now apply scan_no_raise in H1; [| apply (Hh (fun k => col + k))]].
  destruct (clean_cases _ (scan_down_clean (board w) col
              (fun dx => (row, col - dx)) x1)) as [[x2 H2] | H2];
    [| now apply scan_no_raise in H2; [| apply (Hh (fun k => col - k))]].
  destruct (clean_cases _ (scan_up_clean (board w) row
              (fun dy => (row + dy, col)) 1)) as [[y1 H3] | H3];
    [| now apply scan_no_raise in H3; [| apply (Hv (fun k => row + k))]].
  destruct (clean_cases _ (scan_down_clean (board w) row
              (fun dy => (row - dy, col)) y1)) as [[y2 H4] | H4];
    [| now apply scan_no_raise in H4; [| apply (Hv (fun k => row - k))]].
  now exists x1, x2, y1, y2.
Qed.

(** The feasibility check returns or raises; the fuel given to its scans is
    never used up. *)
Lemma can_contain_ship_ends w c : can_contain_ship w c <> Diverge.
Proof.
  unfold can_contain_ship. destruct c as [row col].
  destruct (clean_cases _ (scan_up_clean (board w) col
              (fun dx => (row, col + dx)) 1)) as [[x1 ->] | [e ->]];
    [cbn [obind] | discriminate].
  destruct (clean_cases _ (scan_down_clean (board w) col
              (fun dx => (row, col - dx)) x1)) as [[x2 ->] | [e ->]];
    [cbn [obind] | discriminate].
  destruct (clean_cases _ (scan_up_clean (board w) row
              (fun dy => (row + dy, col)) 1)) as [[y1 ->] | [e ->]];
    [cbn [obind] | discriminate].
  destruct (clean_cases _ (scan_down_clean (board w) row
              (fun dy => (row - dy, col)) y1)) as [[y2 ->] | [e ->]];
    [cbn [obind] | discriminate].
  assert (Hmin : forall best rest, min_by_len (heap w) best rest <> Diverge).
  { intros best rest. revert best. induction rest as [| a rest IH]; intros best;
      simpl; [discriminate |].
    unfold deref. destruct (heap w !! a); simpl; [apply IH | discriminate]. }
  unfold smallest_ship. destruct (ships (board w)) as [| a rest]; [discriminate |].
  unfold deref. destruct (heap w !! a) as [s |]; simpl; [| discriminate].
  specialize (Hmin s rest). destruct (min_by_len (heap w) s rest); simpl;
    try discriminate; [| congruence].
  pose proof (cell_clean (board w) (row, col)) as [Hd _].
  destruct (cell (board w) (row, col)); simpl; try discriminate. congruence.
Qed.

(** ** Targeting on a board without ships *)

Lemma can_contain_ship_no_ships w c :
  ships (board w) = [] -> raises (can_contain_ship w c).
Proof.
  intros Hs. unfold can_contain_ship. destruct c as [row col].
  destruct (clean_cases _ (scan_up_clean (board w) col
              (fun dx => (row, col + dx)) 1)) as [[x1 ->] | [e ->]];
    [cbn [obind] | now exists e].
  destruct (clean_cases _ (scan_down_clean (board w) col
              (fun dx => (row, col - dx)) x1)) as [[x2 ->] | [e ->]];
    [cbn [obind] | now exists e].
  destruct (clean_cases _ (scan_up_clean (board w) row
              (fun dy => (row + dy, col)) 1)) as [[y1 ->] | [e ->]];
    [cbn [obind] | now exists e].
  destruct (clean_cases _ (scan_down_clean (board w) row
              (fun dy => (row - dy, col)) y1)) as [[y2 ->] | [e ->]];
    [cbn [obind] | now exists e].
  rewrite Hs. now exists ValueError.
Qed.

Lemma filter_ok_raises {A} (f : A -> outcome bool) x l :
  (forall y, raises (f y)) -> raises (filter_ok f (x :: l)).
Proof. intros Hf. simpl. destruct (Hf x) as [e ->]. now exists e. Qed.

Lemma pairs_loop_raising w pairs :
  (forall c, raises (can_contain_ship w c)) ->
  pairs_loop w pairs [] = Ok [] \/ raises (pairs_loop w pairs []).
Proof.
  intros Hf. induction pairs as [| p rest IH]; simpl; [now left |].
  destruct (line_neighbours (board w) p) as [| x l].
  - simpl. exact IH.
  - right. destruct (filter_ok_raises _ x l Hf) as [e ->]. now exists e.
Qed.

Lemma hits_loop_raising w hits :
  (forall c, raises (can_contain_ship w c)) ->
  hits_loop w hits [] = Ok [] \/ raises (hits_loop w hits []).
Proof.
  intros Hf. induction hits as [| p rest IH]; simpl; [now left |].
  destruct (all_neighbours (board w) p) as [| x l].
  - simpl. exact IH.
  - right. destruct (filter_ok_raises _ x l Hf) as [e ->]. now exists e.
Qed.

Lemma all_coordinates_cons n :
  0 < n -> exists l, all_coordinates n = (0, 0) :: l.
Proof.
  intros Hn. unfold all_coordinates. rewrite (seqZ_cons 0 n) by lia.
  simpl. eexists. reflexivity.
Qed.

(** C10 (as the code has it): on a board whose [ships] list is empty,
    [can_contain_ship] raises for every coordinate, and on such a board of
    size at least 1 [generate_targets] raises too. *)
Theorem targeting_fails_without_ships (w : World) :
  ships (board w) = [] ->
  (forall c, raises (can_contain_ship w c)) /\
  (forall c, in_bounds (_n (board w)) c = true ->
             can_contain_ship w c = Raise ValueError) /\
  (0 < _n (board w) -> raises (generate_targets w)).
Proof.
  intros Hs. pose proof (fun c => can_contain_ship_no_ships w c Hs) as Hf.
  split; [exact Hf |]. split.
  - intros [row col] Hc. unfold can_contain_ship.
    destruct (scans_return w row col Hc) as (x1 & x2 & y1 & y2 & H1 & H2 & H3 & H4).
    rewrite H1; cbn [obind]. rewrite H2; cbn [obind].
    rewrite H3; cbn [obind]. rewrite H4; cbn [obind]. now rewrite Hs.
  - intros Hn. unfold generate_targets.
    assert (Hfound :
      (if is_nil (adjacent_coordinates_in (_previous_hits (board w)))
       then Ok []
       else pairs_loop w (adjacent_coordinates_in (_previous_hits (board w))) [])
      = Ok [] \/
      raises (if is_nil (adjacent_coordinates_in (_previous_hits (board w)))
       then Ok []
       else pairs_loop w (adjacent_coordinates_in (_previous_hits (board w))) [])).
    { destruct (is_nil _); [now left | now apply pairs_loop_raising]. }
    destruct Hfound as [-> | [e ->]]; [simpl | now exists e].
    destruct (hits_loop_raising w (_previous_hits (board w)) Hf) as [-> | [e ->]];
      [simpl | now exists e].
    destruct (all_coordinates_cons _ Hn) as [l ->].
    now apply filter_ok_raises.
Qed.

Lemma targeting_fails_without_ships_witness :
  (forall c, raises (can_contain_ship (new_world 3) c)) /\
  (forall c, in_bounds 3 c = true ->
             can_contain_ship (new_world 3) c = Raise ValueError) /\
  (0 < 3 -> raises (generate_targets (new_world 3))).
Proof. apply (targeting_fails_without_ships (new_world 3)). reflexivity. Defined.

(** C10 does not hold on a board of size 0: with no row and no column the
    three tiers have nothing to filter, [can_contain_ship] is never called
    and [generate_targets] returns the empty list. *)
Lemma generate_targets_on_empty_grid :
  Board_init 0 = Ok (board (new_world 0)) /\
  ships (board (new_world 0)) = [] /\
  generate_targets (new_world 0) = Ok [].
Proof. repeat split. Qed.


(** ** The tiers of generate_targets *)

Lemma filter_ok_app {A} (f : A -> outcome bool) l1 l2 :
  filter_ok f (l1 ++ l2) =
  (r1 <- filter_ok f l1 ;;; r2 <- filter_ok f l2 ;;; Ok (r1 ++ r2)).
Proof.
  induction l1 as [| x l1 IH]; simpl.
  - destruct (filter_ok f l2); reflexivity.
  - destruct (f x) as [keep | e | |]; simpl; try reflexivity.
    rewrite IH. destruct (filter_ok f l1) as [r1 | e | |]; simpl; try reflexivity.
    destruct (filter_ok f l2) as [r2 | e | |]; simpl; try reflexivity.
    now destruct keep.
Qed.

Lemma filter_ok_kept {A} (f : A -> outcome bool) l r :
  filter_ok f l = Ok r -> forall x, x ∈ r -> f x = Ok true.
Proof.
  revert r. induction l as [| y l IH]; simpl; intros r Hr x Hx.
  - injection Hr as <-. inversion Hx.
  - destruct (f y) as [keep | e | |] eqn:Hy; simpl in Hr; try discriminate.
    destruct (filter_ok f l) as [r' | e | |]; simpl in Hr; try discriminate.
    injection Hr as <-. destruct keep; [| now apply (IH r')].
    apply elem_of_cons in Hx as [-> | Hx]; [exact Hy | now apply (IH r')].
Qed.

Lemma filter_ok_all_kept {A} (f : A -> outcome bool) r :
  (forall x, x ∈ r -> f x = Ok true) -> filter_ok f r = Ok r.
Proof.
  induction r as [| x r IH]; intros H; simpl; [reflexivity |].
  rewrite (H x) by left. simpl. rewrite IH; [reflexivity |].
  intros y Hy. apply H. now right.
Qed.

(** Filtering after every pair amounts to filtering the whole pool once. *)
Lemma pairs_loop_filter w pairs acc :
  (forall x, x ∈ acc -> can_contain_ship w x = Ok true) ->
  pairs_loop w pairs acc =
  (r <- filter_ok (can_contain_ship w) (flat_map (line_neighbours (board w)) pairs) ;;;
   Ok (acc ++ r)).
Proof.
  revert acc. induction pairs as [| p rest IH]; intros acc Hacc; simpl.
  - now rewrite app_nil_r.
  - rewrite !filter_ok_app, (filter_ok_all_kept _ acc Hacc). simpl.
    destruct (filter_ok (can_contain_ship w) (line_neighbours (board w) p))
      as [r2 | e | |] eqn:H2; simpl; try reflexivity.
    rewrite IH.
    + destruct (filter_ok _ (flat_map _ rest)); simpl; try reflexivity.
      now rewrite app_assoc.
    + intros x [Hx | Hx]%elem_of_app; [now apply Hacc |].
      exact (filter_ok_kept _ _ _ H2 x Hx).
Qed.

Lemma hits_loop_filter w hits acc :
  (forall x, x ∈ acc -> can_contain_ship w x = Ok true) ->
  hits_loop w hits acc =
  (r <- filter_ok (can_contain_ship w) (flat_map (all_neighbours (board w)) hits) ;;;
   Ok (acc ++ r)).
Proof.
  revert acc. induction hits as [| p rest IH]; intros acc Hacc; simpl.
  - now rewrite app_nil_r.
  - rewrite !filter_ok_app, (filter_ok_all_kept _ acc Hacc). simpl.
    destruct (filter_ok (can_contain_ship w) (all_neighbours (board w) p))
      as [r2 | e | |] eqn:H2; simpl; try reflexivity.
    rewrite IH.
    + destruct (filter_ok _ (flat_map _ rest)); simpl; try reflexivity.
      now rewrite app_assoc.
    + intros x [Hx | Hx]%elem_of_app; [now apply Hacc |].
      exact (filter_ok_kept _ _ _ H2 x Hx).
Qed.

Lemma elem_of_adjacent_coordinates_in coordinates c1 c2 :
  (c1, c2) ∈ adjacent_coordinates_in coordinates <->
  c1 ∈ coordinates /\ c2 ∈ coordinates /\
  ((fst c1 - fst c2 = 1 /\ snd c1 - snd c2 = 0) \/
   (fst c1 - fst c2 = 0 /\ snd c1 - snd c2 = 1)).
Proof.
  unfold adjacent_coordinates_in.
  rewrite list_elem_of_In, in_flat_map. split.
  - intros (x & Hx & Hin). apply in_flat_map in Hin as (y & Hy & Hin).
    apply list_elem_of_In in Hx, Hy.
    destruct (_ || _) eqn:Hc; [| now destruct Hin].
    destruct Hin as [[= -> ->] | []].
    repeat split; try assumption.
    rewrite orb_true_iff, !andb_true_iff, !Z.eqb_eq in Hc. exact Hc.
  - intros (H1 & H2 & Hadj). exists c1. split; [now apply list_elem_of_In |].
    apply in_flat_map. exists c2. split; [now apply list_elem_of_In |].
    replace (_ || _) with true; [now left |].
    symmetry. now rewrite orb_true_iff, !andb_true_iff, !Z.eqb_eq.
Qed.

(** Some two recorded hits are directly adjacent exactly when the helper
    finds a pair. *)
Lemma has_adjacent_hits_pairs b :
  has_adjacent_hits b <-> adjacent_coordinates_in (_previous_hits b) <> [].
Proof.
  split.
  - intros (c1 & c2 & H1 & H2 & Hadj) Hnil.
    assert (Hin : (c1, c2) ∈ adjacent_coordinates_in (_previous_hits b) \/
                  (c2, c1) ∈ adjacent_coordinates_in (_previous_hits b)).
    { rewrite !elem_of_adjacent_coordinates_in. unfold directly_adjacent in Hadj.
      assert (Hcases :
        ((fst c1 - fst c2 = 1 /\ snd c1 - snd c2 = 0) \/
         (fst c1 - fst c2 = 0 /\ snd c1 - snd c2 = 1)) \/
        ((fst c2 - fst c1 = 1 /\ snd c2 - snd c1 = 0) \/
         (fst c2 - fst c1 = 0 /\ snd c2 - snd c1 = 1))) by lia.
      destruct Hcases as [Hc | Hc]; [left | right]; repeat split; auto. }
    rewrite Hnil in Hin. destruct Hin as [Hin | Hin]; inversion Hin.
  - intros Hne. destruct (adjacent_coordinates_in (_previous_hits b))
      as [| [c1 c2] l] eqn:Hl; [congruence |].
    assert (Hin : (c1, c2) ∈ adjacent_coordinates_in (_previous_hits b))
      by (rewrite Hl; left).
    apply elem_of_adjacent_coordinates_in in Hin as (H1 & H2 & Hadj).
    exists c1, c2. repeat split; auto. unfold directly_adjacent. lia.
Qed.

(** What [generate_targets] returns, tier by tier. *)
Lemma generate_targets_tiers w :
  generate_targets w =
  (pool <- line_inference_pool w ;;;
   if is_nil pool
   then (pool' <- hit_adjacency_pool w ;;;
         if is_nil pool' then full_scan_pool w else Ok pool')
   else Ok pool).
Proof.
  unfold generate_targets, line_inference_pool, hit_adjacency_pool, full_scan_pool.
  assert (Hfound :
    (if is_nil (adjacent_coordinates_in (_previous_hits (board w)))
     then Ok []
     else pairs_loop w (adjacent_coordinates_in (_previous_hits (board w))) [])
    = filter_ok (can_contain_ship w)
        (flat_map (line_neighbours (board w))
           (adjacent_coordinates_in (_previous_hits (board w))))).
  { destruct (adjacent_coordinates_in _) as [| p l] eqn:Hl; [reflexivity |].
    cbn [is_nil]. rewrite pairs_loop_filter by (intros x Hx; inversion Hx).
    now destruct (filter_ok _ _). }
  rewrite Hfound.
  destruct (filter_ok _ (flat_map (line_neighbours _) _)) as [pool | e | |];
    cbn [obind]; try reflexivity.
  destruct pool as [| x pool]; cbn [is_nil negb]; [| reflexivity].
  rewrite hits_loop_filter by (intros x Hx; inversion Hx).
  destruct (filter_ok _ (flat_map (all_neighbours _) _)) as [pool' | e | |];
    cbn [obind app]; try reflexivity.
  now destruct pool'.
Qed.

Lemma filter_ok_elem {A} (f : A -> outcome bool) l r :
  filter_ok f l = Ok r -> forall x, x ∈ r <-> x ∈ l /\ f x = Ok true.
Proof.
  revert r. induction l as [| y l IH]; simpl; intros r Hr x.
  - injection Hr as <-. split; [intros H; inversion H | intros [H _]; inversion H].
  - destruct (f y) as [keep | e | |] eqn:Hy; simpl in Hr; try discriminate.
    destruct (filter_ok f l) as [r' | e | |]; simpl in Hr; try discriminate.
    injection Hr as <-. specialize (IH r' eq_refl x). rewrite elem_of_cons.
    destruct keep.
    + rewrite elem_of_cons, IH. split; [| tauto].
      intros [-> | [H1 H2]]; split; auto.
    + rewrite IH. split; [tauto |]. intros [[-> | H1] H2]; [congruence | tauto].
Qed.

Lemma elem_of_guarded {A} (c : bool) (x p : A) :
  p ∈ (if c then [x] else []) <-> c = true /\ p = x.
Proof.
  destruct c.
  - rewrite list_elem_of_singleton. tauto.
  - rewrite elem_of_nil. split; [tauto | intros [H _]; discriminate].
Qed.

Lemma elem_of_vertical_neighbours b e p :
  p ∈ vertical_neighbours b e <->
  snd p = snd e /\ Z.abs (fst p - fst e) = 1 /\ in_range (_n b) (fst p) = true.
Proof.
  destruct e as [row col], p as [r k]. unfold vertical_neighbours.
  cbn [flat_map fst snd]. rewrite !elem_of_app, !elem_of_guarded, elem_of_nil. split.
  - intros [[H [= -> ->]] | [[H [= -> ->]] | []]]; repeat split; (lia || assumption).
  - intros (-> & Habs & Hr).
    assert (r = row + 1 \/ r = row + -1) as [-> | ->] by lia; auto.
Qed.

Lemma elem_of_horizontal_neighbours b e p :
  p ∈ horizontal_neighbours b e <->
  fst p = fst e /\ Z.abs (snd p - snd e) = 1 /\ in_range (_n b) (snd p) = true.
Proof.
  destruct e as [row col], p as [r k]. unfold horizontal_neighbours.
  cbn [flat_map fst snd]. rewrite !elem_of_app, !elem_of_guarded, elem_of_nil. split.
  - intros [[H [= -> ->]] | [[H [= -> ->]] | []]]; repeat split; (lia || assumption).
  - intros (-> & Habs & Hr).
    assert (k = col + 1 \/ k = col + -1) as [-> | ->] by lia; auto.
Qed.

Lemma elem_of_line_neighbours b c1 c2 p :
  p ∈ line_neighbours b (c1, c2) <-> extends_line b c1 c2 p.
Proof.
  unfold line_neighbours, extends_line.
  destruct (Z.eqb_spec (fst c1 - fst c2) 0) as [H0 | H0];
    rewrite elem_of_app, ?elem_of_horizontal_neighbours, ?elem_of_vertical_neighbours.
  - split.
    + intros [H | H]; right; (split; [lia |]);
        [exists c1 | exists c2]; tauto.
    + intros [[Hne _] | [_ (e & [-> | ->] & H)]]; [lia | tauto | tauto].
  - split.
    + intros [H | H]; left; (split; [lia |]);
        [exists c1 | exists c2]; tauto.
    + intros [[_ (e & [-> | ->] & H)] | [Heq _]]; [tauto | tauto | lia].
Qed.

Lemma extends_line_sym b c1 c2 p : extends_line b c1 c2 p -> extends_line b c2 c1 p.
Proof.
  intros [[Hne (e & He & H)] | [Heq (e & He & H)]]; [left | right];
    (split; [congruence |]); exists e; tauto.
Qed.

(** The cells of the line-inference pool. *)
Lemma elem_of_line_inference_pool w pool p :
  line_inference_pool w = Ok pool ->
  p ∈ pool <->
  can_contain_ship w p = Ok true /\
  exists c1 c2, c1 ∈ _previous_hits (board w) /\ c2 ∈ _previous_hits (board w) /\
                directly_adjacent c1 c2 /\ extends_line (board w) c1 c2 p.
Proof.
  intros Hpool. rewrite (filter_ok_elem _ _ _ Hpool p).
  rewrite list_elem_of_In, in_flat_map. split.
  - intros [([c1 c2] & Hpair & Hp) Hcan]. split; [assumption |].
    apply list_elem_of_In, elem_of_adjacent_coordinates_in in Hpair
      as (H1 & H2 & Hadj).
    exists c1, c2. split; [assumption |]. split; [assumption |].
    split; [unfold directly_adjacent; lia |].
    now apply elem_of_line_neighbours, list_elem_of_In.
  - intros [Hcan (c1 & c2 & H1 & H2 & Hadj & Hline)]. split; [| assumption].
    unfold directly_adjacent in Hadj.
    assert (Hcases :
      ((fst c1 - fst c2 = 1 /\ snd c1 - snd c2 = 0) \/
       (fst c1 - fst c2 = 0 /\ snd c1 - snd c2 = 1)) \/
      ((fst c2 - fst c1 = 1 /\ snd c2 - snd c1 = 0) \/
       (fst c2 - fst c1 = 0 /\ snd c2 - snd c1 = 1))) by lia.
    destruct Hcases as [Hc | Hc]; [exists (c1, c2) | exists (c2, c1)];
      (split; [apply list_elem_of_In, elem_of_adjacent_coordinates_in; tauto |]);
      apply list_elem_of_In, elem_of_line_neighbours;
      [assumption | now apply extends_line_sym].
Qed.

(** C1 (as the code has it): when two recorded hits are directly adjacent,
    [generate_targets] returns exactly the line-inference pool (the cells
    that continue the line of some adjacent pair of hits and pass
    [can_contain_ship]) if that filtered pool is non-empty; if filtering
    leaves it empty, the result is the hit-adjacency pool, or the full-board
    scan when that is empty too. *)
Theorem generate_targets_adjacent_hits (w : World) (pool : list coord) :
  has_adjacent_hits (board w) ->
  line_inference_pool w = Ok pool ->
  adjacent_coordinates_in (_previous_hits (board w)) <> [] /\
  (forall p, p ∈ pool <->
     can_contain_ship w p = Ok true /\
     exists c1 c2, c1 ∈ _previous_hits (board w) /\ c2 ∈ _previous_hits (board w) /\
                   directly_adjacent c1 c2 /\ extends_line (board w) c1 c2 p) /\
  generate_targets w =
    (if is_nil pool
     then (pool' <- hit_adjacency_pool w ;;;
           if is_nil pool' then full_scan_pool w else Ok pool')
     else Ok pool).
Proof.
  intros Hadj Hpool. split; [now apply has_adjacent_hits_pairs |].
  split; [intros p; now apply elem_of_line_inference_pool |].
  now rewrite generate_targets_tiers, Hpool.
Qed.

Lemma generate_targets_adjacent_hits_witness :
  adjacent_coordinates_in (_previous_hits (board two_hits_in_line)) <> [] /\
  (forall p, p ∈ [(0, 2)] <->
     can_contain_ship two_hits_in_line p = Ok true /\
     exists c1 c2, c1 ∈ _previous_hits (board two_hits_in_line) /\
                   c2 ∈ _previous_hits (board two_hits_in_line) /\
                   directly_adjacent c1 c2 /\
                   extends_line (board two_hits_in_line) c1 c2 p) /\
  generate_targets two_hits_in_line =
    (if is_nil [(0, 2)]
     then (pool' <- hit_adjacency_pool two_hits_in_line ;;;
           if is_nil pool' then full_scan_pool two_hits_in_line else Ok pool')
     else Ok [(0, 2)]).
Proof.
  apply (generate_targets_adjacent_hits two_hits_in_line [(0, 2)]).
  - exists (0, 0), (0, 1). split; [left |]. split; [right; left |].
    right. split; reflexivity.
  - vm_compute. reflexivity.
Defined.

(** C1 does not hold as stated: with hits recorded at [(0, 0)] and [(0, 1)],
    which are adjacent, and every cell of their line either hit or missed,
    the line-inference pool is empty after filtering and [generate_targets]
    returns the hit-adjacency pool instead. *)
Lemma generate_targets_falls_through :
  _previous_hits (board side_by_side) = [(0, 0); (0, 1)] /\
  adjacent_coordinates_in (_previous_hits (board side_by_side))
    = [((0, 1), (0, 0))] /\
  line_inference_pool side_by_side = Ok [] /\
  hit_adjacency_pool side_by_side = Ok [(1, 0); (1, 1)] /\
  generate_targets side_by_side = Ok [(1, 0); (1, 1)].
Proof. vm_compute. repeat split. Qed.

(** ** Board.can_contain_ship *)

Lemma scan_spec b probe at_ fuel d len z :
  cells_valid b ->
  (forall k, in_range (_n b) (probe k) = true -> in_bounds (_n b) (at_ k) = true) ->
  scan fuel b probe at_ d len = Ok z ->
  exists m, 0 <= m /\ z = len + m /\
    (forall k, d <= k < d + m ->
       in_bounds (_n b) (at_ k) = true /\ cell b (at_ k) <> Ok 3) /\
    (in_range (_n b) (probe (d + m)) = false \/ cell b (at_ (d + m)) = Ok 3).
Proof.
  intros Hvalid Hat. revert d len.
  induction fuel as [| fuel IH]; intros d len Hscan; [discriminate |].
  simpl in Hscan. destruct (in_range (_n b) (probe d)) eqn:Hr.
  - pose proof (cell_in_bounds b (at_ d) (Hat d Hr)) as Hcell.
    rewrite Hcell in Hscan. simpl in Hscan.
    destruct (Z.ltb_spec (default 0 (_board b !! at_ d)) 3) as [Hlt | Hge].
    + destruct (IH _ _ Hscan) as (m & Hm & -> & Hrun & Hstop).
      exists (m + 1). split; [lia |]. split; [lia |]. split.
      * intros k Hk. destruct (Z.eq_dec k d) as [-> | Hne].
        -- split; [now apply Hat |]. rewrite Hcell. intros [= H3]. lia.
        -- apply Hrun. lia.
      * now replace (d + (m + 1)) with (d + 1 + m) by lia.
    + injection Hscan as <-. exists 0. split; [lia |]. split; [lia |].
      split; [intros k Hk; lia |]. right. rewrite Z.add_0_r, Hcell. f_equal.
      destruct (_board b !! at_ d) as [v |] eqn:Hv; simpl in *; [| lia].
      specialize (Hvalid _ _ Hv). lia.
  - injection Hscan as <-. exists 0. split; [lia |]. split; [lia |].
    split; [intros k Hk; lia |]. left. now rewrite Z.add_0_r.
Qed.

(** The two scans of one axis measure the run through the start index. *)
Lemma two_scans_measure b (line : Z -> coord) x fuel len z1 z2 :
  cells_valid b ->
  (forall j, in_range (_n b) j = true -> in_bounds (_n b) (line j) = true) ->
  (forall j, in_range (_n b) j = false -> in_bounds (_n b) (line j) = false) ->
  scan fuel b (fun k => x + k) (fun k => line (x + k)) 1 len = Ok z1 ->
  scan fuel b (fun k => x - k) (fun k => line (x - k)) 1 z1 = Ok z2 ->
  exists lo hi, z2 = len + (hi - lo) /\ lo <= x <= hi /\
    (forall j, lo <= j <= hi -> j <> x ->
       in_bounds (_n b) (line j) = true /\ cell b (line j) <> Ok 3) /\
    miss_or_edge b (line (lo - 1)) /\ miss_or_edge b (line (hi + 1)).
Proof.
  intros Hvalid Hin Hout Hup Hdown.
  apply scan_spec in Hup as (mr & Hmr & -> & Hr & Hrstop);
    [| assumption | intros k; apply Hin].
  apply scan_spec in Hdown as (ml & Hml & -> & Hl & Hlstop);
    [| assumption | intros k; apply Hin].
  exists (x - ml), (x + mr). split; [lia |]. split; [lia |]. split; [| split].
  - intros j Hj Hne. destruct (Z.lt_ge_cases j x).
    + replace j with (x - (x - j)) by lia. apply Hl. lia.
    + replace j with (x + (j - x)) by lia. apply Hr. lia.
  - replace (x - ml - 1) with (x - (1 + ml)) by lia.
    destruct Hlstop as [H | H]; [left; now apply Hout | now right].
  - replace (x + mr + 1) with (x + (1 + mr)) by lia.
    destruct Hrstop as [H | H]; [left; now apply Hout | now right].
Qed.

Lemma miss_or_edge_contra b p :
  miss_or_edge b p -> in_bounds (_n b) p = true -> cell b p <> Ok 3 -> False.
Proof. intros [H | H] Hin Hc; congruence. Qed.

(** The run through an index is unique. *)
Lemma run_along_unique b line x lo hi lo' hi' :
  run_along b line x lo hi ->
  lo' <= x <= hi' ->
  (forall j, lo' <= j <= hi' -> j <> x ->
     in_bounds (_n b) (line j) = true /\ cell b (line j) <> Ok 3) ->
  miss_or_edge b (line (lo' - 1)) -> miss_or_edge b (line (hi' + 1)) ->
  lo = lo' /\ hi = hi'.
Proof.
  intros (Hx & Hrun & Hlo & Hhi) Hx' Hrun' Hlo' Hhi'. split.
  - destruct (Z.lt_trichotomy lo lo') as [H | [H | H]]; [| assumption |]; exfalso.
    + destruct (Hrun (lo' - 1)) as [H1 H2]; [lia |].
      exact (miss_or_edge_contra _ _ Hlo' H1 H2).
    + destruct (Hrun' (lo - 1)) as [H1 H2]; [lia | lia |].
      exact (miss_or_edge_contra _ _ Hlo H1 H2).
  - destruct (Z.lt_trichotomy hi hi') as [H | [H | H]]; [| assumption |]; exfalso.
    + destruct (Hrun' (hi + 1)) as [H1 H2]; [lia | lia |].
      exact (miss_or_edge_contra _ _ Hhi H1 H2).
    + destruct (Hrun (hi' + 1)) as [H1 H2]; [lia |].
      exact (miss_or_edge_contra _ _ Hhi' H1 H2).
Qed.

Lemma min_by_len_spec h best rest :
  (forall a, a ∈ rest -> is_Some (h !! a)) ->
  exists s, min_by_len h best rest = Ok s /\
    (s = best \/ exists a, a ∈ rest /\ h !! a = Some s) /\
    _length s <= _length best /\
    (forall a s', a ∈ rest -> h !! a = Some s' -> _length s <= _length s').
Proof.
  revert best. induction rest as [| a rest IH]; intros best Hall; simpl.
  - exists best. repeat split; [now left | lia |]. intros a s' Ha. inversion Ha.
  - destruct (Hall a) as [sa Hsa]; [left |]. unfold deref. rewrite Hsa. simpl.
    destruct (IH (if _length sa <? _length best then sa else best))
      as (s & Hs & Hfrom & Hle & Hmin); [intros a' Ha'; apply Hall; now right |].
    exists s. split; [exact Hs |].
    destruct (Z.ltb_spec (_length sa) (_length best)) as [Hlt | Hge].
    + split; [| split; [lia |]].
      * right. destruct Hfrom as [-> | (a' & Ha' & Hs')];
          [exists a; split; [left | assumption]
          | exists a'; split; [now right | assumption]].
      * intros a' s' [-> | Ha']%elem_of_cons Hs'; [| now apply (Hmin a')].
        rewrite Hsa in Hs'. injection Hs' as <-. lia.
    + split; [| split; [lia |]].
      * destruct Hfrom as [-> | (a' & Ha' & Hs')]; [now left |].
        right. exists a'. split; [now right | assumption].
      * intros a' s' [-> | Ha']%elem_of_cons Hs'; [| now apply (Hmin a')].
        rewrite Hsa in Hs'. injection Hs' as <-. lia.
Qed.

Lemma smallest_ship_spec w m :
  ships_allocated w -> shortest_remaining w m ->
  exists s, smallest_ship (heap w) (ships (board w)) = Ok s /\ _length s = m.
Proof.
  intros Halloc [(a0 & s0 & Ha0 & Hs0 & Hm) Hmin]. unfold smallest_ship.
  destruct (ships (board w)) as [| a rest] eqn:Hl; [inversion Ha0 |].
  destruct (Halloc a) as [sa Hsa]; [rewrite Hl; left |].
  unfold deref. rewrite Hsa. simpl.
  destruct (min_by_len_spec (heap w) sa rest) as (s & Hs & Hfrom & Hle & Hall).
  { intros a' Ha'. apply Halloc. rewrite Hl. now right. }
  exists s. split; [exact Hs |].
  assert (Hge : m <= _length s).
  { destruct Hfrom as [-> | (a' & Ha' & Hs')].
    - apply (Hmin a); [left | assumption].
    - apply (Hmin a'); [now right | assumption]. }
  assert (Hle' : _length s <= m).
  { subst m. apply elem_of_cons in Ha0 as [-> | Ha0].
    - rewrite Hsa in Hs0. injection Hs0 as <-. exact Hle.
    - now apply (Hall a0). }
  lia.
Qed.

(** C5: on a board with at least one ship, for a coordinate on the board,
    [can_contain_ship] returns [True] exactly when the cell is Sea or
    UnhitShip and the longer of the two runs of non-Miss cells through the
    coordinate (along its row and along its column, each extending both ways
    up to a Miss cell or the board edge) is at least as long as the shortest
    ship in [ships]. *)
Theorem can_contain_ship_feasible (w : World) (c : coord) (m : Z) :
  cells_valid (board w) ->
  ships_allocated w ->
  shortest_remaining w m ->
  in_bounds (_n (board w)) c = true ->
  exists v, can_contain_ship w c = Ok v /\
            (v = true <-> feasible_target (board w) c m).
Proof.
  intros Hvalid Halloc Hshort Hc. destruct c as [row col].
  pose proof Hc as [Hrow Hcol]%andb_true_iff. simpl in Hrow, Hcol.
  destruct (scans_return w row col Hc) as (x1 & x2 & y1 & y2 & H1 & H2 & H3 & H4).
  destruct (smallest_ship_spec w m Halloc Hshort) as (s & Hs & Hlen).
  assert (Hcell : exists v0, cell (board w) (row, col) = Ok v0 /\ 0 <= v0 <= 3).
  { rewrite cell_in_bounds by assumption. eexists. split; [reflexivity |].
    destruct (_board (board w) !! _) as [v |] eqn:Hv; simpl;
      [exact (Hvalid _ _ Hv) | lia]. }
  destruct Hcell as (v0 & Hcell & Hv0).
  destruct (two_scans_measure (board w) (fun j => (row, j)) col
              (scan_fuel (board w)) 1 x1 x2 Hvalid)
    as (lo & hi & Hx2 & Hlohi & Hrun & Hlo & Hhi); try assumption.
  { intros j Hj. unfold in_bounds. simpl. now rewrite Hrow, Hj. }
  { intros j Hj. unfold in_bounds. simpl. now rewrite Hj, andb_false_r. }
  destruct (two_scans_measure (board w) (fun j => (j, col)) row
              (scan_fuel (board w)) 1 y1 y2 Hvalid)
    as (lo' & hi' & Hy2 & Hlohi' & Hrun' & Hlo' & Hhi'); try assumption.
  { intros j Hj. unfold in_bounds. simpl. now rewrite Hcol, Hj. }
  { intros j Hj. unfold in_bounds. simpl. now rewrite Hj. }
  exists ((v0 <? 2) && (m <=? Z.max x2 y2)). split.
  - unfold can_contain_ship.
    rewrite H1; cbn [obind]. rewrite H2; cbn [obind].
    rewrite H3; cbn [obind]. rewrite H4; cbn [obind].
    rewrite Hs; cbn [obind]. rewrite Hcell; cbn [obind]. now rewrite Hlen.
  - rewrite andb_true_iff, Z.ltb_lt, Z.leb_le. unfold feasible_target.
    rewrite Hcell. split.
    + intros [Hlt Hm].
      split; [assert (v0 = 0 \/ v0 = 1) as [E | E] by lia; rewrite E; auto |].
      exists lo, hi, lo', hi'. split; [| split; [| lia]].
      * split; [exact Hlohi |]. split; [| now split].
        intros j Hj. destruct (Z.eq_dec j col) as [-> | Hne]; [| now apply Hrun].
        split; [exact Hc |]. cbn [fst snd]. rewrite Hcell. intros [= E]. lia.
      * split; [exact Hlohi' |]. split; [| now split].
        intros j Hj. destruct (Z.eq_dec j row) as [-> | Hne]; [| now apply Hrun'].
        split; [exact Hc |]. cbn [fst snd]. rewrite Hcell. intros [= E]. lia.
    + intros (Hsea & l & h & l' & h' & Hh & Hv & Hm).
      split; [destruct Hsea as [[= ->] | [= ->]]; lia |].
      destruct (run_along_unique _ _ _ _ _ lo hi Hh) as [-> ->]; try assumption.
      destruct (run_along_unique _ _ _ _ _ lo' hi' Hv) as [-> ->]; try assumption.
      lia.
Qed.

Lemma can_contain_ship_feasible_witness :
  exists v, can_contain_ship two_destroyers (1, 1) = Ok v /\
            (v = true <-> feasible_target (board two_destroyers) (1, 1) 2).
Proof.
  apply (can_contain_ship_feasible two_destroyers (1, 1) 2).
  - change (map_Forall (fun (_ : Z * Z) v => 0 <= v <= 3)
              (_board (board two_destroyers))).
    apply map_Forall_to_list. vm_compute. repeat constructor; discriminate.
  - unfold ships_allocated. apply Forall_forall. vm_compute.
    repeat constructor; eexists; reflexivity.
  - split.
    + exists 0%nat, (mkShip 2 "Destroyer" 2 [(0, 0); (0, 1)] (0, 1)).
      split; [left | split; reflexivity].
    + intros a s Ha. revert s. revert a Ha.
      apply (proj1 (Forall_forall (fun a => forall s,
               heap two_destroyers !! a = Some s -> 2 <= _length s) _)).
      vm_compute. repeat constructor; intros s [= <-]; discriminate.
  - reflexivity.
Defined.

(** ** Health of the ships *)

Lemma preserves_bind {A B} (R : World -> World -> Prop) (m : M A) (k : A -> M B) :
  (forall w1 w2 w3, R w1 w2 -> R w2 w3 -> R w1 w3) ->
  preserves R m -> (forall a, preserves R (k a)) -> preserves R (bind m k).
Proof.
  intros Htrans Hm Hk w w' r. unfold bind.
  destruct (m w) as [w1 [a | e | |]] eqn:Hw1; intros Hrun;
    try (injection Hrun as <- <-; exact (Hm _ _ _ Hw1)).
  exact (Htrans _ _ _ (Hm _ _ _ Hw1) (Hk a _ _ _ Hrun)).
Qed.

Lemma preserves_lift {A} (R : World -> World -> Prop) (f : World -> outcome A) :
  (forall w, R w w) -> preserves R (lift f).
Proof. intros Hrefl w w' r [= <- _]. apply Hrefl. Qed.

Lemma preserves_ret {A} (R : World -> World -> Prop) (a : A) :
  (forall w, R w w) -> preserves R (ret a).
Proof. intros Hrefl w w' r [= <- _]. apply Hrefl. Qed.

Lemma same_fleet_refl w : same_fleet w w.
Proof. now split. Qed.

Lemma same_fleet_trans w1 w2 w3 :
  same_fleet w1 w2 -> same_fleet w2 w3 -> same_fleet w1 w3.
Proof. intros [H1 H2] [H3 H4]. split; congruence. Qed.

Lemma same_fleet_print line : preserves same_fleet (print line).
Proof. intros w w' r [= <- _]. now split. Qed.

Lemma same_fleet_put_cell c v : preserves same_fleet (put_cell c v).
Proof.
  intros w w' r. unfold put_cell, bind, lift, set_board, set_cell.
  destruct (norm_coord _ c); intros [= <- _]; now split.
Qed.

Lemma same_fleet_mark_points pts : preserves same_fleet (mark_points pts).
Proof.
  induction pts as [| p rest IH]; simpl.
  - apply preserves_ret, same_fleet_refl.
  - apply preserves_bind; [apply same_fleet_trans | apply same_fleet_put_cell |].
    intros _. exact IH.
Qed.

Lemma same_fleet_remove_points pts : preserves same_fleet (remove_points pts).
Proof.
  induction pts as [| p rest IH]; simpl.
  - apply preserves_ret, same_fleet_refl.
  - apply preserves_bind; [apply same_fleet_trans | | intros _; exact IH].
    intros w w' r. destruct (remove_first p _); intros [= <- _]; now split.
Qed.

Lemma health_not_raised_refl w : health_not_raised w w.
Proof. intros a s Hs. exists s. repeat split; [assumption | lia]. Qed.

Lemma health_not_raised_trans w1 w2 w3 :
  health_not_raised w1 w2 -> health_not_raised w2 w3 -> health_not_raised w1 w3.
Proof.
  intros H12 H23 a s Hs. destruct (H12 a s Hs) as (s2 & Hs2 & Hc2 & Hl2 & Hp2).
  destruct (H23 a s2 Hs2) as (s3 & Hs3 & Hc3 & Hl3 & Hp3).
  exists s3. repeat split; [assumption | lia | congruence | congruence].
Qed.

Lemma keeps_health_refl w : keeps_health w w.
Proof. intros H. split; [assumption | apply health_not_raised_refl]. Qed.

Lemma keeps_health_trans w1 w2 w3 :
  keeps_health w1 w2 -> keeps_health w2 w3 -> keeps_health w1 w3.
Proof.
  intros H12 H23 H1. destruct (H12 H1) as [H2 Hle]. destruct (H23 H2) as [H3 Hle'].
  split; [assumption | now apply (health_not_raised_trans _ w2)].
Qed.

Lemma same_fleet_keeps_health w w' : same_fleet w w' -> keeps_health w w'.
Proof.
  intros [Hh Hs] [H1 H2 H3 H4]. split.
  - split; rewrite ?Hh, ?Hs; assumption.
  - intros a s Ha. exists s. rewrite Hh. repeat split; [assumption | lia].
Qed.

Lemma preserves_weaken {A} (R R' : World -> World -> Prop) (m : M A) :
  (forall w w', R w w' -> R' w w') -> preserves R m -> preserves R' m.
Proof. intros HR Hm w w' r Hrun. apply HR, (Hm _ _ _ Hrun). Qed.

Lemma remove_first_spec {A} `{EqDecision A} (x : A) l l' :
  remove_first x l = Some l' ->
  NoDup l -> NoDup l' /\ forall y, y ∈ l' <-> y ∈ l /\ y <> x.
Proof.
  revert l'. induction l as [| z l IH]; simpl; intros l' Hrem Hnd; [discriminate |].
  apply NoDup_cons in Hnd as [Hz Hnd].
  destruct (decide (x = z)) as [-> | Hne].
  - injection Hrem as <-. split; [assumption |].
    intros y. rewrite elem_of_cons. split; [| tauto].
    intros Hy. split; [now right | congruence].
  - destruct (remove_first x l) as [r |] eqn:Hr; [| discriminate].
    injection Hrem as <-. destruct (IH r eq_refl Hnd) as [Hnd' Hiff]. split.
    + apply NoDup_cons. split; [| assumption]. rewrite Hiff. tauto.
    + intros y. rewrite !elem_of_cons, Hiff. split; [| tauto].
      intros [-> | [Hy Hn]]; split; auto.
Qed.

Lemma remove_first_present {A} `{EqDecision A} (x : A) l :
  x ∈ l -> exists l', remove_first x l = Some l'.
Proof.
  induction l as [| z l IH]; intros Hx; [inversion Hx |]. simpl.
  destruct (decide (x = z)) as [-> | Hne]; [eauto |].
  apply elem_of_cons in Hx as [-> | Hx]; [congruence |].
  destruct (IH Hx) as [l' ->]. eauto.
Qed.

Lemma remove_first_length {A} `{EqDecision A} (x : A) l l' :
  remove_first x l = Some l' -> length l = S (length l').
Proof.
  revert l'. induction l as [| z l IH]; simpl; intros l' Hrem; [discriminate |].
  destruct (decide (x = z)); [now injection Hrem as <- |].
  destruct (remove_first x l) as [r |]; [| discriminate].
  injection Hrem as <-. simpl. now rewrite (IH r).
Qed.

(** The body of the loop over the ships keeps the fleet healthy and raises
    no ship's health. *)
Lemma shot_body_keeps_health a w w' r :
  a ∈ ships (board w) -> shot_body a w = (w', r) -> keeps_health w w'.
Proof.
  intros Ha Hrun Hw. destruct Hw as [Hnd Hafloat Hrange Hlisted].
  unfold shot_body, bind, read_target, lift in Hrun.
  destruct (target_coordinate w) as [t |];
    [| injection Hrun as <- <-; now apply keeps_health_refl].
  destruct (Hafloat a Ha) as (s & Hs & Hpos). unfold deref in Hrun. rewrite Hs in Hrun.
  destruct (ship_contains t s);
    [| injection Hrun as <- <-; now apply keeps_health_refl].
  unfold store in Hrun. cbn [heap board target_coordinate stdout] in Hrun.
  pose proof (lookup_lt_Some _ _ _ Hs) as Hlt.
  assert (Hle : forall h' : list Ship, h' = <[a := damage s]> (heap w) ->
            forall a' s', heap w !! a' = Some s' ->
            exists s'', h' !! a' = Some s'' /\ condition s'' <= condition s' /\
                        _length s'' = _length s' /\ _points s'' = _points s').
  { intros h' -> a' s' Hs'. destruct (decide (a' = a)) as [-> | Hne].
    - exists (damage s). rewrite list_lookup_insert_eq by assumption.
      rewrite Hs in Hs'. injection Hs' as <-. simpl. repeat split. lia.
    - exists s'. rewrite list_lookup_insert_ne by congruence.
      repeat split; [assumption | lia]. }
  assert (Hrange' : forall a' s', <[a := damage s]> (heap w) !! a' = Some s' ->
            0 <= condition s' <= _length s').
  { intros a' s' Hs'. destruct (decide (a' = a)) as [-> | Hne].
    - rewrite list_lookup_insert_eq in Hs' by assumption. injection Hs' as <-.
      specialize (Hrange _ _ Hs). simpl. lia.
    - rewrite list_lookup_insert_ne in Hs' by congruence. now apply (Hrange a'). }
  destruct (sunk (damage s)) eqn:Hsunk.
  - unfold print, remove_ship in Hrun. cbn [heap board target_coordinate stdout] in Hrun.
    destruct (remove_first_present a _ Ha) as [l' Hl']. rewrite Hl' in Hrun.
    unfold set_board in Hrun. cbn [heap board target_coordinate stdout] in Hrun.
    destruct (remove_first_spec _ _ _ Hl' Hnd) as [Hnd' Hin'].
    pose proof (same_fleet_remove_points _ _ _ _ Hrun) as [Hh3 Hs3].
    cbn [heap board ships with_ships] in Hh3, Hs3.
    split; [split |].
    + now rewrite Hs3.
    + intros a' Ha'. rewrite Hs3 in Ha'. apply Hin' in Ha' as [Ha' Hne].
      destruct (Hafloat a' Ha') as (s' & Hs' & Hpos'). exists s'.
      rewrite Hh3, list_lookup_insert_ne by congruence. now split.
    + intros a' s'. rewrite Hh3. apply Hrange'.
    + intros a' s'. rewrite Hh3, Hs3. intros Hs' Hpos'. apply Hin'.
      destruct (decide (a' = a)) as [-> | Hne].
      * rewrite list_lookup_insert_eq in Hs' by assumption. injection Hs' as <-.
        unfold sunk in Hsunk. apply Z.eqb_eq in Hsunk. lia.
      * rewrite list_lookup_insert_ne in Hs' by congruence.
        split; [now apply (Hlisted a' s') | assumption].
    + intros a' s' Hs'. now apply (Hle _ Hh3).
  - unfold ret in Hrun. injection Hrun as <- <-.
    unfold sunk in Hsunk. apply Z.eqb_neq in Hsunk. simpl in Hsunk.
    split; [split |]; cbn [heap board].
    + assumption.
    + intros a' Ha'. destruct (decide (a' = a)) as [-> | Hne].
      * exists (damage s). rewrite list_lookup_insert_eq by assumption.
        split; [reflexivity | simpl; lia].
      * destruct (Hafloat a' Ha') as (s' & Hs' & Hpos'). exists s'.
        rewrite list_lookup_insert_ne by congruence. now split.
    + exact Hrange'.
    + intros a' s' Hs' Hpos'. destruct (decide (a' = a)) as [-> | Hne];
        [assumption |].
      rewrite list_lookup_insert_ne in Hs' by congruence. now apply (Hlisted a' s').
    + intros a' s' Hs'. now apply (Hle _ eq_refl).
Qed.

Lemma ships_loop_keeps_health fuel i : preserves keeps_health (ships_loop fuel i).
Proof.
  revert i. induction fuel as [| fuel IH]; intros i w w' r; simpl.
  - intros [= <- _]. apply keeps_health_refl.
  - destruct (ships (board w) !! i) as [a |] eqn:Ha;
      [| intros [= <- _]; apply keeps_health_refl].
    unfold bind. destruct (shot_body a w) as [w1 r1] eqn:Hbody.
    assert (Hstep : keeps_health w w1).
    { apply (shot_body_keeps_health a w w1 r1); [| assumption].
      apply list_elem_of_lookup. now exists i. }
    destruct r1; try (intros [= <- _]; exact Hstep).
    intros Hrest. exact (keeps_health_trans _ _ _ Hstep (IH _ _ _ _ Hrest)).
Qed.

Lemma apply_shot_keeps_health c : preserves keeps_health (apply_shot c).
Proof.
  pose proof (@preserves_weaken unit _ _ (print "Hit!") same_fleet_keeps_health
                (same_fleet_print _)) as Hhit.
  pose proof (@preserves_weaken unit _ _ (print "Miss.") same_fleet_keeps_health
                (same_fleet_print _)) as Hmiss.
  assert (Hput : forall v, preserves keeps_health (put_cell c v)).
  { intros v. exact (preserves_weaken _ _ _ same_fleet_keeps_health
                       (same_fleet_put_cell c v)). }
  unfold apply_shot.
  apply preserves_bind;
    [apply keeps_health_trans | apply preserves_lift, keeps_health_refl |].
  intros v. destruct (v =? 1).
  - apply preserves_bind; [apply keeps_health_trans | exact Hhit | intros _].
    apply preserves_bind; [apply keeps_health_trans | apply Hput | intros _].
    apply preserves_bind; [apply keeps_health_trans | | intros _].
    + intros w w' r [= <- _]. apply same_fleet_keeps_health. now split.
    + intros w w' r. apply ships_loop_keeps_health.
  - apply preserves_bind; [apply keeps_health_trans | exact Hmiss | intros _].
    apply preserves_bind;
      [apply keeps_health_trans | apply preserves_lift, keeps_health_refl |].
    intros v'. destruct (v' =? 0); [apply Hput |].
    apply preserves_ret, keeps_health_refl.
Qed.

(** What a placement that went through has done. *)
Lemma try_place_run length start d w w' :
  try_place length start d w = (w', Ok true) ->
  exists s, Ship_init length start d = Ok s /\
            is_valid_placement (board w) s = Ok true /\
            mark_points (_points s) (launched s w) = (w', Ok tt).
Proof.
  unfold try_place, bind, lift.
  destruct (Ship_init length start d) as [s | e | |]; try discriminate.
  destruct (is_valid_placement (board w) s) as [[|] | e | |] eqn:Hvalid;
    try discriminate.
  unfold alloc, place_ship, bind, set_board, lift, deref.
  cbn [heap board ships with_ships target_coordinate stdout].
  rewrite lookup_app_r, Nat.sub_diag by lia. cbn [lookup list_lookup].
  fold (launched s w).
  destruct (mark_points (_points s) (launched s w)) as [w2 [[] | e | |]] eqn:Hmark;
    try discriminate.
  unfold ret. intros [= <-]. exists s. auto.
Qed.

Lemma try_place_fleet length start d w w' :
  try_place length start d w = (w', Ok true) ->
  exists s, Ship_init length start d = Ok s /\
            is_valid_placement (board w) s = Ok true /\
            heap w' = heap w ++ [s] /\
            ships (board w') = ships (board w) ++ [Datatypes.length (heap w)].
Proof.
  intros (s & Hinit & Hvalid & Hmark)%try_place_run.
  destruct (same_fleet_mark_points _ _ _ _ Hmark) as [Hh Hs].
  exists s. auto.
Qed.

Lemma try_place_keeps_health length start d w w' :
  try_place length start d w = (w', Ok true) -> keeps_health w w'.
Proof.
  intros (s & Hinit & _ & Hh & Hs)%try_place_fleet [Hnd Hafloat Hrange Hlisted].
  apply Ship_init_ok in Hinit as (Hlen & Hl & Hc & _).
  assert (Hold : forall a, a ∈ ships (board w) -> (a < Datatypes.length (heap w))%nat).
  { intros a Ha. destruct (Hafloat a Ha) as (s' & Hs' & _).
    exact (lookup_lt_Some _ _ _ Hs'). }
  split; [split |].
  - rewrite Hs. apply NoDup_app. split; [assumption |]. split; [| apply NoDup_singleton].
    intros a Ha ->%list_elem_of_singleton. specialize (Hold _ Ha). lia.
  - intros a. rewrite Hs, Hh. intros [Ha | ->%list_elem_of_singleton]%elem_of_app.
    + destruct (Hafloat a Ha) as (s' & Hs' & Hpos). exists s'.
      rewrite lookup_app_l by (exact (lookup_lt_Some _ _ _ Hs')). now split.
    + exists s. rewrite lookup_app_r, Nat.sub_diag by lia. split; [reflexivity | lia].
  - intros a s'. rewrite Hh. intros Hs'.
    apply lookup_app_Some in Hs' as [Hs' | [_ Hs']]; [now apply (Hrange a) |].
    apply list_lookup_singleton_Some in Hs' as [_ <-]. lia.
  - intros a s'. rewrite Hh, Hs. intros Hs' Hpos. apply elem_of_app.
    apply lookup_app_Some in Hs' as [Hs' | [Hge Hs']];
      [left; now apply (Hlisted a s') | right].
    apply list_lookup_singleton_Some in Hs' as [Hz _].
    apply list_elem_of_singleton. lia.
  - intros a s' Hs'. exists s'. rewrite Hh.
    rewrite lookup_app_l by (exact (lookup_lt_Some _ _ _ Hs')).
    repeat split; [assumption | lia].
Qed.

Lemma healthy_new_world n : healthy (new_world n).
Proof.
  split; simpl.
  - constructor.
  - intros a Ha. inversion Ha.
  - intros a s Hs. discriminate.
  - intros a s Hs. discriminate.
Qed.

Lemma placed_healthy P n w : placed P n w -> healthy w.
Proof.
  induction 1 as [| w length start d w' _ IH _ Hplace];
    [apply healthy_new_world |].
  now apply (try_place_keeps_health _ _ _ _ _ Hplace).
Qed.

Lemma board_step_keeps_health w w' : board_step w w' -> keeps_health w w'.
Proof.
  intros [w0 length start d w1 Hplace | w0 g c w1 r Hshot].
  - exact (try_place_keeps_health _ _ _ _ _ Hplace).
  - intros Hw. destruct (apply_shot_keeps_health c _ _ _ Hshot) as [H1 Hle];
      [now destruct Hw |].
    now split.
Qed.

Lemma shot_at_healthy n w : shot_at n w -> healthy w.
Proof.
  induction 1 as [w Hp | w g c w' r _ IH Hshot];
    [exact (placed_healthy _ _ _ Hp) |].
  apply (board_step_keeps_health w w'); [| assumption].
  exact (step_shot _ _ _ _ _ Hshot).
Qed.

(** *** The loop over the ships always ends *)

Lemma remove_points_ends pts w : snd (remove_points pts w) <> Diverge.
Proof.
  revert w. induction pts as [| p rest IH]; intros w; simpl; [discriminate |].
  unfold bind. destruct (remove_first p _); [| discriminate].
  unfold set_board. apply IH.
Qed.

Lemma shot_body_ends a w :
  snd (shot_body a w) <> Diverge /\
  (length (ships (board (fst (shot_body a w)))) <= length (ships (board w)))%nat.
Proof.
  unfold shot_body, bind, read_target, lift, deref.
  destruct (target_coordinate w) as [t |]; [| split; [discriminate | reflexivity]].
  destruct (heap w !! a) as [s |]; [| split; [discriminate | reflexivity]].
  destruct (ship_contains t s); [| split; [discriminate | reflexivity]].
  unfold store. destruct (sunk (damage s)); [| split; [discriminate | reflexivity]].
  unfold print, remove_ship. cbn [heap board target_coordinate stdout].
  destruct (remove_first a (ships (board w))) as [l |] eqn:Hl;
    [| split; [discriminate | reflexivity]].
  unfold set_board. cbn [heap board target_coordinate stdout].
  apply remove_first_length in Hl.
  match goal with
  | |- context [remove_points ?pts ?w2] =>
      pose proof (remove_points_ends pts w2) as Hend;
      destruct (remove_points pts w2) as [w3 r3] eqn:Hrun;
      destruct (same_fleet_remove_points _ _ _ _ Hrun) as [_ Hs]
  end.
  cbn [board ships with_ships] in Hs. cbn [fst snd] in *.
  split; [assumption | rewrite Hs, Hl; lia].
Qed.

Lemma ships_loop_ends fuel i w :
  (length (ships (board w)) - i < fuel)%nat -> snd (ships_loop fuel i w) <> Diverge.
Proof.
  revert i w. induction fuel as [| fuel IH]; intros i w Hfuel; [lia |].
  simpl. destruct (ships (board w) !! i) as [a |] eqn:Ha; [| discriminate].
  pose proof (lookup_lt_Some _ _ _ Ha) as Hi.
  unfold bind. destruct (shot_body_ends a w) as [Hend Hlen].
  destruct (shot_body a w) as [w1 [[] | e | |]]; cbn [fst snd] in *;
    try discriminate; [| congruence].
  apply IH. lia.
Qed.

(** A shot returns or raises; the fuel given to its loop is never used up. *)
Lemma apply_shot_ends c w : snd (apply_shot c w) <> Diverge.
Proof.
  unfold apply_shot, bind, lift. pose proof (cell_clean (board w) c) as [Hd _].
  destruct (cell (board w) c) as [v | e | |] eqn:Hcell; try discriminate;
    [| congruence].
  destruct (v =? 1).
  - unfold print, put_cell, bind, lift, set_board, set_cell.
    cbn [heap board target_coordinate stdout].
    destruct (norm_coord _ c); [| discriminate].
    cbn [heap board target_coordinate stdout ships with_hits].
    apply ships_loop_ends. simpl. lia.
  - unfold print. cbn [heap board target_coordinate stdout]. rewrite Hcell.
    destruct (v =? 0); [| discriminate].
    unfold put_cell, bind, lift, set_board, set_cell.
    cbn [heap board target_coordinate stdout].
    destruct (norm_coord _ c); discriminate.
Qed.

(** Whatever the binding of the global name, a ship object is in [ships]
    exactly while it has health left. *)
Lemma shot_at_listed n w :
  shot_at n w ->
  forall a s, heap w !! a = Some s -> (a ∈ ships (board w) <-> 0 < condition s).
Proof.
  intros Hw%shot_at_healthy a s Hs. split.
  - intros Ha. destruct (healthy_afloat _ Hw a Ha) as (s' & Hs' & Hpos).
    rewrite Hs in Hs'. injection Hs' as <-. lia.
  - exact (healthy_listed _ Hw a s Hs).
Qed.

(** C7: at every point of a history made of placements and then shots at any
    coordinates, every ship has a health between 0 and its length; and over
    any further operations the health of a ship never goes up. *)
Theorem ship_health_bounded_and_monotone (n : Z) (w w' : World) :
  shot_at n w -> rtc board_step w w' ->
  (forall a s, heap w !! a = Some s -> 0 <= condition s <= _length s) /\
  (forall a s, heap w' !! a = Some s -> 0 <= condition s <= _length s) /\
  health_not_raised w w'.
Proof.
  intros Hw%shot_at_healthy Hsteps.
  assert (Hkeep : keeps_health w w').
  { clear Hw. induction Hsteps as [w | w1 w2 w3 Hstep _ IH];
      [apply keeps_health_refl |].
    exact (keeps_health_trans _ _ _ (board_step_keeps_health _ _ Hstep) IH). }
  destruct (Hkeep Hw) as [Hw' Hle].
  split; [exact (healthy_range _ Hw) |]. split; [exact (healthy_range _ Hw') | exact Hle].
Qed.

Lemma ship_health_bounded_and_monotone_witness :
  let w' := fst (apply_shot (0, 0) (with_target two_destroyers (Some (2, 0)))) in
  (forall a s, heap two_destroyers !! a = Some s -> 0 <= condition s <= _length s) /\
  (forall a s, heap w' !! a = Some s -> 0 <= condition s <= _length s) /\
  health_not_raised two_destroyers w'.
Proof.
  apply (ship_health_bounded_and_monotone 3).
  - apply shot_at_placed.
    apply (placed_ship _ 3 (fst (try_place 2 (0, 0) DirE (new_world 3)))
             2 (2, 0) DirE); [| exact I | reflexivity].
    apply (placed_ship _ 3 (new_world 3) 2 (0, 0) DirE);
      [| exact I | reflexivity].
    apply placed_new. lia.
  - apply rtc_once.
    apply (step_shot two_destroyers (Some (2, 0)) (0, 0) _ (Ok tt)). reflexivity.
Defined.

(** ** The loop over the ships when one ship is hit *)

Lemma shot_body_idle a w t s :
  target_coordinate w = Some t -> heap w !! a = Some s ->
  ship_contains t s = false -> shot_body a w = (w, Ok tt).
Proof.
  intros Ht Hs Hc. unfold shot_body, bind, read_target, lift, deref.
  now rewrite Ht, Hs, Hc.
Qed.

Lemma ships_loop_idle fuel i w t :
  target_coordinate w = Some t ->
  (forall j a, (i <= j)%nat -> ships (board w) !! j = Some a ->
     exists s, heap w !! a = Some s /\ ship_contains t s = false) ->
  (length (ships (board w)) - i < fuel)%nat ->
  ships_loop fuel i w = (w, Ok tt).
Proof.
  intros Ht. revert i. induction fuel as [| fuel IH]; intros i Hidle Hfuel; [lia |].
  simpl. destruct (ships (board w) !! i) as [a |] eqn:Ha; [| reflexivity].
  destruct (Hidle i a (Nat.le_refl _) Ha) as (s & Hs & Hc).
  unfold bind. rewrite (shot_body_idle a w t s Ht Hs Hc).
  apply IH.
  - intros j a' Hj. apply Hidle. lia.
  - pose proof (lookup_lt_Some _ _ _ Ha). lia.
Qed.

(** Removing the cells of a sunk ship from the recorded hits goes through
    when they are all there. *)
Lemma remove_points_present pts w :
  NoDup pts -> NoDup (_previous_hits (board w)) ->
  (forall p, p ∈ pts -> p ∈ _previous_hits (board w)) ->
  exists w', remove_points pts w = (w', Ok tt) /\
    heap w' = heap w /\ ships (board w') = ships (board w) /\
    _n (board w') = _n (board w) /\ _board (board w') = _board (board w) /\
    target_coordinate w' = target_coordinate w /\
    NoDup (_previous_hits (board w')) /\
    forall p, p ∈ _previous_hits (board w') <->
              p ∈ _previous_hits (board w) /\ p ∉ pts.
Proof.
  revert w. induction pts as [| q rest IH]; intros w Hnd Hhits Hall.
  - exists w. simpl. repeat split; try assumption; try tauto.
    intros Hx. inversion Hx.
  - apply NoDup_cons in Hnd as [Hq Hnd]. simpl. unfold bind.
    destruct (remove_first_present q (_previous_hits (board w))) as [l Hl];
      [apply Hall; left |].
    rewrite Hl. unfold set_board. cbn [fst snd].
    destruct (remove_first_spec _ _ _ Hl Hhits) as [Hnd' Hin'].
    match goal with
    | |- context [remove_points rest ?w1] => destruct (IH w1) as (w' & Hrun & Hrest)
    end; cbn [heap board ships _n _board _previous_hits with_hits target_coordinate];
      try assumption.
    { intros p Hp. apply Hin'. split; [apply Hall; now right | congruence]. }
    exists w'. split; [exact Hrun |].
    cbn [heap board ships _n _board _previous_hits with_hits target_coordinate] in Hrest.
    destruct Hrest as (H1 & H2 & H3 & H4 & H5 & H6 & H7).
    repeat split; try assumption.
    + apply H7 in H. apply Hin', H.
    + apply H7 in H as [Hp Hn]. apply Hin' in Hp as [_ Hne].
      intros [-> | Hr]%elem_of_cons; [congruence | contradiction].
    + intros [Hp Hn]. apply H7. rewrite elem_of_cons in Hn. split; [| tauto].
      apply Hin'. split; [assumption |]. intros ->. tauto.
Qed.

Lemma ships_loop_hit fuel i w t k a0 s0 :
  target_coordinate w = Some t ->
  NoDup (ships (board w)) ->
  ships (board w) !! k = Some a0 -> heap w !! a0 = Some s0 ->
  ship_contains t s0 = true ->
  (forall a, a ∈ ships (board w) -> a <> a0 ->
     exists s, heap w !! a = Some s /\ ship_contains t s = false) ->
  NoDup (_previous_hits (board w)) -> NoDup (_points s0) ->
  (sunk (damage s0) = true ->
   forall p, p ∈ _points s0 -> p ∈ _previous_hits (board w)) ->
  (i <= k)%nat -> (length (ships (board w)) - i < fuel)%nat ->
  exists w', ships_loop fuel i w = (w', Ok tt) /\ hit_result a0 s0 w w'.
Proof.
  intros Ht Hnd Hk Hs0 Hc Hothers Hhits Hpts Hall. revert i.
  induction fuel as [| fuel IH]; intros i Hi Hfuel; [lia |].
  pose proof (lookup_lt_Some _ _ _ Hk) as Hklt.
  pose proof (lookup_lt_Some _ _ _ Hs0) as Ha0lt.
  simpl. destruct (decide (i = k)) as [-> | Hne].
  - rewrite Hk. unfold bind at 1.
    unfold shot_body, bind, read_target, lift, deref. rewrite Ht, Hs0, Hc.
    unfold store. destruct (sunk (damage s0)) eqn:Hsunk.
    + unfold print, remove_ship. cbn [heap board target_coordinate stdout].
      destruct (remove_first_present a0 (ships (board w))) as [l' Hl'];
        [apply list_elem_of_lookup; now exists k |].
      rewrite Hl'. unfold set_board. cbn [heap board target_coordinate stdout].
      destruct (remove_first_spec _ _ _ Hl' Hnd) as [Hnd' Hin'].
      pose proof (remove_first_length _ _ _ Hl') as Hlen.
      match goal with
      | |- context [remove_points _ ?w2] =>
          destruct (remove_points_present (_points s0) w2 Hpts)
            as (w3 & Hrun & Hh3 & Hsh3 & Hn3 & Hb3 & Ht3 & Hnd3 & Hin3)
      end; cbn [heap board ships _n _board _previous_hits with_ships
                target_coordinate] in *; [assumption | now apply Hall |].
      rewrite Hrun. exists w3. split.
      * apply (ships_loop_idle _ _ _ t); [congruence | | rewrite Hsh3; lia].
        intros j a _ Ha. rewrite Hsh3 in Ha.
        assert (Hal : a ∈ l') by (apply list_elem_of_lookup; now exists j).
        apply Hin' in Hal as [Hal Hne]. destruct (Hothers a Hal Hne) as (s & Hs & Hcs).
        exists s. rewrite Hh3, list_lookup_insert_ne by congruence. now split.
      * unfold hit_result. rewrite Hsunk.
        split; [assumption |]. split; [assumption |]. split; [assumption |].
        split; split; [now rewrite Hsh3 | | assumption | exact Hin3].
        intros a. rewrite Hsh3. apply Hin'.
    + unfold ret. cbn [heap board target_coordinate stdout].
      eexists. split.
      * apply (ships_loop_idle _ _ _ t); [exact Ht | | simpl; lia].
        cbn [heap board]. intros j a Hj Ha.
        assert (Hne : a <> a0).
        { intros ->. pose proof (NoDup_lookup _ _ _ _ Hnd Ha Hk). lia. }
        destruct (Hothers a) as (s & Hs & Hcs);
          [apply list_elem_of_lookup; now exists j | assumption |].
        exists s. rewrite list_lookup_insert_ne by congruence. now split.
      * unfold hit_result. rewrite Hsunk. now repeat split.
  - destruct (ships (board w) !! i) as [a |] eqn:Ha;
      [| apply lookup_ge_None in Ha; lia].
    assert (Hne' : a <> a0).
    { intros ->. pose proof (NoDup_lookup _ _ _ _ Hnd Ha Hk). lia. }
    destruct (Hothers a) as (s & Hs & Hcs);
      [apply list_elem_of_lookup; now exists i | assumption |].
    unfold bind. rewrite (shot_body_idle a w t s Ht Hs Hcs).
    apply IH; lia.
Qed.

(** ** Counting the unhit cells of a ship *)

Lemma unhit_cells_ext b b' pts :
  (forall p, p ∈ pts -> (value b' p = 1 <-> value b p = 1)) ->
  unhit_cells b' pts = unhit_cells b pts.
Proof.
  induction pts as [| q rest IH]; intros H; simpl; [reflexivity |].
  rewrite IH by (intros p Hp; apply H; now right).
  specialize (H q ltac:(left)).
  destruct (Z.eqb_spec (value b' q) 1), (Z.eqb_spec (value b q) 1); tauto || lia.
Qed.

Lemma unhit_cells_hit b b' pts c :
  NoDup pts -> c ∈ pts -> value b c = 1 -> value b' c <> 1 ->
  (forall p, p <> c -> value b' p = value b p) ->
  unhit_cells b' pts = unhit_cells b pts - 1.
Proof.
  intros Hnd Hc Hv Hv' Hsame. induction pts as [| q rest IH]; [inversion Hc |].
  apply NoDup_cons in Hnd as [Hq Hnd]. simpl.
  destruct (decide (q = c)) as [-> | Hne].
  - rewrite (unhit_cells_ext b b' rest).
    + rewrite Hv. destruct (Z.eqb_spec (value b' c) 1); [contradiction | simpl; lia].
    + intros p Hp. rewrite Hsame; [reflexivity | congruence].
  - apply elem_of_cons in Hc as [-> | Hc]; [congruence |].
    rewrite IH by assumption. rewrite Hsame by assumption. lia.
Qed.

Lemma unhit_cells_nonneg b pts : 0 <= unhit_cells b pts.
Proof. induction pts as [| q rest IH]; simpl; [lia |]. destruct (_ =? 1); lia. Qed.

Lemma unhit_cells_zero b pts :
  unhit_cells b pts = 0 -> forall p, p ∈ pts -> value b p <> 1.
Proof.
  induction pts as [| q rest IH]; simpl; intros H p Hp; [inversion Hp |].
  pose proof (unhit_cells_nonneg b rest).
  destruct (Z.eqb_spec (value b q) 1); [lia |].
  apply elem_of_cons in Hp as [-> | Hp]; [assumption | apply IH; [lia | assumption]].
Qed.

Lemma unhit_cells_pos b pts c :
  c ∈ pts -> value b c = 1 -> 1 <= unhit_cells b pts.
Proof.
  induction pts as [| q rest IH]; intros Hc Hv; [inversion Hc |]. simpl.
  pose proof (unhit_cells_nonneg b rest).
  apply elem_of_cons in Hc as [<- | Hc].
  - rewrite Hv. simpl. lia.
  - specialize (IH Hc Hv). destruct (_ =? 1); lia.
Qed.

Lemma unhit_cells_all b pts :
  (forall p, p ∈ pts -> value b p = 1) -> unhit_cells b pts = Z.of_nat (length pts).
Proof.
  induction pts as [| q rest IH]; intros H; [reflexivity |].
  simpl unhit_cells. rewrite IH by (intros p Hp; apply H; now right).
  rewrite (H q) by left. change (1 =? 1) with true. cbn [length]. lia.
Qed.

(** ** A shot, branch by branch *)

Lemma cell_value b c :
  in_bounds (_n b) c = true -> cell b c = Ok (value b c).
Proof. apply cell_in_bounds. Qed.

Lemma apply_shot_hit c w :
  in_bounds (_n (board w)) c = true -> value (board w) c = 1 ->
  apply_shot c w = ships_loop (S (length (ships (board w)))) 0 (hit_marked c w).
Proof.
  intros Hc Hv. unfold apply_shot, bind, lift.
  rewrite (cell_value _ _ Hc), Hv. cbn [Z.eqb Pos.eqb].
  unfold print, put_cell, bind, lift, set_cell, set_board.
  cbn [heap board target_coordinate stdout _n _board].
  rewrite (norm_coord_in_bounds _ _ Hc). reflexivity.
Qed.

Lemma apply_shot_miss c w :
  in_bounds (_n (board w)) c = true -> value (board w) c <> 1 ->
  exists w', apply_shot c w = (w', Ok tt) /\
    heap w' = heap w /\ _n (board w') = _n (board w) /\
    ships (board w') = ships (board w) /\
    _previous_hits (board w') = _previous_hits (board w) /\
    forall p, value (board w') p =
              if decide (p = c)
              then (if value (board w) c =? 0 then 3 else value (board w) c)
              else value (board w) p.
Proof.
  intros Hc Hv. unfold apply_shot, bind, lift.
  rewrite (cell_value _ _ Hc).
  destruct (Z.eqb_spec (value (board w) c) 1) as [| _]; [contradiction |].
  unfold print. cbn [heap board target_coordinate stdout].
  rewrite (cell_value _ _ Hc).
  destruct (Z.eqb_spec (value (board w) c) 0) as [H0 | H0].
  - unfold put_cell, bind, lift, set_cell, set_board.
    cbn [heap board target_coordinate stdout _n _board].
    rewrite (norm_coord_in_bounds _ _ Hc). eexists. split; [reflexivity |].
    cbn [heap board _n ships _previous_hits]. repeat split.
    intros p. unfold value. cbn [_board]. destruct (decide (p = c)) as [-> | Hne].
    + now rewrite lookup_insert_eq.
    + now rewrite lookup_insert_ne by congruence.
  - unfold ret. eexists. split; [reflexivity |].
    cbn [heap board]. repeat split.
    intros p. now destruct (decide (p = c)) as [-> | Hne].
Qed.

(** ** The game keeps the board consistent *)

Lemma consistent_same_marks n w w' :
  consistent n w ->
  heap w' = heap w -> _n (board w') = _n (board w) ->
  ships (board w') = ships (board w) ->
  _previous_hits (board w') = _previous_hits (board w) ->
  (forall p, (value (board w') p = 1 <-> value (board w) p = 1) /\
             (value (board w') p = 2 <-> value (board w) p = 2)) ->
  consistent n w'.
Proof.
  intros [Hsize Hhealth Hcells Hlisted Hdisj Hhnd Hhits Hunhit] Hh Hn Hs Hp Hval.
  split; rewrite ?Hh, ?Hn, ?Hs, ?Hp; try assumption.
  - intros a s Ha. rewrite (Hhealth a s Ha). symmetry. apply unhit_cells_ext.
    intros p _. apply Hval.
  - intros a s Ha. destruct (Hcells a s Ha) as [Hnd Hin]. split; [assumption |].
    intros p Hpin. destruct (Hin p Hpin) as [Hb Hv]. split; [assumption |].
    destruct (Hval p) as [H1 H2]. tauto.
  - intros p. rewrite Hhits. destruct (Hval p) as [_ H2]. now rewrite H2.
  - intros p Hv. apply Hunhit. now apply Hval.
Qed.

Lemma value_hit_marked c w p :
  value (board (hit_marked c w)) p = if decide (p = c) then 2 else value (board w) p.
Proof.
  unfold value, hit_marked. cbn [board _board].
  destruct (decide (p = c)) as [-> | Hne].
  - now rewrite lookup_insert_eq.
  - now rewrite lookup_insert_ne by congruence.
Qed.

Lemma apply_shot_consistent n w c w' r :
  consistent n w -> healthy w -> in_bounds n c = true ->
  target_coordinate w = Some c ->
  apply_shot c w = (w', r) ->
  r = Ok tt /\ consistent n w'.
Proof.
  intros Hcons Hw Hc Ht Hrun. pose proof Hcons as Hcons'.
  destruct Hcons as [Hsize Hhealth Hcells Hlisted Hdisj Hhnd Hhits Hunhit].
  rewrite <- Hsize in Hc.
  destruct (decide (value (board w) c = 1)) as [Hv | Hv].
  2: { destruct (apply_shot_miss c w Hc Hv) as (w1 & Hrun1 & Hh & Hn & Hs & Hp & Hval).
       rewrite Hrun1 in Hrun. injection Hrun as <- <-. split; [reflexivity |].
       apply (consistent_same_marks n w w1); try assumption.
       intros p. rewrite Hval. destruct (decide (p = c)) as [-> | Hne]; [| tauto].
       destruct (Z.eqb_spec (value (board w) c) 0); lia. }
  rewrite apply_shot_hit in Hrun by assumption.
  destruct (Hunhit c Hv) as (a0 & s0 & Hs0 & Hc0).
  destruct (Hcells a0 s0 Hs0) as [Hnd0 Hin0].
  assert (Hpos : 1 <= condition s0).
  { rewrite (Hhealth a0 s0 Hs0). now apply (unhit_cells_pos _ _ c). }
  assert (Ha0 : a0 ∈ ships (board w)) by (apply (Hlisted a0 s0 Hs0); lia).
  destruct (proj1 (list_elem_of_lookup _ _) Ha0) as [k Hk].
  assert (Hcfresh : c ∉ _previous_hits (board w)).
  { intros [H2 _]%Hhits. lia. }
  assert (Hhnd1 : NoDup (_previous_hits (board w) ++ [c])).
  { apply NoDup_app. split; [assumption |]. split; [| apply NoDup_singleton].
    intros x Hx ->%list_elem_of_singleton. contradiction. }
  assert (Hcount : unhit_cells (board (hit_marked c w)) (_points s0)
                   = condition s0 - 1).
  { rewrite (Hhealth a0 s0 Hs0).
    apply (unhit_cells_hit _ _ _ c); try assumption.
    - rewrite value_hit_marked. destruct (decide (c = c)); [lia | congruence].
    - intros p Hne. rewrite value_hit_marked. now destruct (decide (p = c)). }
  destruct (ships_loop_hit (S (length (ships (board w)))) 0 (hit_marked c w)
              c k a0 s0) as (w1 & Hloop & Hheap & Hn & Hb & Hres);
    try assumption; try (exact Ht); try (exact (healthy_nodup _ Hw));
    try (cbn [hit_marked board ships]; lia).
  { unfold ship_contains. now apply bool_decide_eq_true. }
  { intros a Ha Hne. destruct (healthy_afloat _ Hw a Ha) as (s & Hs & _).
    exists s. split; [exact Hs |]. apply bool_decide_eq_false. intros Hin.
    apply Hne. exact (Hdisj a a0 s s0 c Hs Hs0 Hin Hc0). }
  { intros Hsunk p Hp. cbn [hit_marked board _previous_hits].
    apply elem_of_app. destruct (decide (p = c)) as [-> | Hne]; [right; left |].
    left. apply Hhits. split; [| now exists a0, s0].
    unfold sunk in Hsunk. apply Z.eqb_eq in Hsunk. simpl in Hsunk.
    assert (H0 : unhit_cells (board (hit_marked c w)) (_points s0) = 0) by lia.
    pose proof (unhit_cells_zero _ _ H0 p Hp) as Hp1.
    rewrite value_hit_marked in Hp1. destruct (decide (p = c)); [congruence |].
    destruct (Hin0 p Hp) as [_ [H1 | H2]]; [contradiction | assumption]. }
  rewrite Hloop in Hrun. injection Hrun as <- <-. split; [reflexivity |].
  cbn [hit_marked heap board _n _board ships _previous_hits] in Hheap, Hn, Hb, Hres.
  pose proof (lookup_lt_Some _ _ _ Hs0) as Ha0lt.
  assert (Hval : forall p, value (board w1) p
                           = if decide (p = c) then 2 else value (board w) p).
  { intros p. rewrite <- value_hit_marked. unfold value. now rewrite Hb. }
  assert (Hnew : forall a s, heap w1 !! a = Some s ->
            exists s', heap w !! a = Some s' /\ _points s = _points s' /\
              ((a = a0 /\ s = damage s0 /\ s' = s0) \/ (a <> a0 /\ s = s'))).
  { intros a s. rewrite Hheap. destruct (decide (a = a0)) as [-> | Hne].
    - rewrite list_lookup_insert_eq by assumption. intros [= <-].
      exists s0. split; [assumption |]. split; [reflexivity | now left].
    - rewrite list_lookup_insert_ne by congruence. intros Hs.
      exists s. split; [assumption |]. split; [reflexivity | now right]. }
  assert (Hold : forall a s', heap w !! a = Some s' ->
            exists s, heap w1 !! a = Some s /\ _points s = _points s').
  { intros a s' Hs'. rewrite Hheap. destruct (decide (a = a0)) as [-> | Hne].
    - rewrite list_lookup_insert_eq by assumption. exists (damage s0).
      split; [reflexivity |]. rewrite Hs0 in Hs'. now injection Hs' as <-.
    - rewrite list_lookup_insert_ne by congruence. now exists s'. }
  assert (Hships : forall a, a ∈ ships (board w1) <->
            a ∈ ships (board w) /\ (sunk (damage s0) = true -> a <> a0)).
  { intros a. destruct (sunk (damage s0)).
    - destruct Hres as [[_ Hin] _]. rewrite Hin. tauto.
    - destruct Hres as [-> _]. split; [intros H; split; [assumption | discriminate] | tauto]. }
  assert (Hhits1 : forall p, p ∈ _previous_hits (board w1) <->
            (p ∈ _previous_hits (board w) \/ p = c) /\
            (sunk (damage s0) = true -> p ∉ _points s0)).
  { intros p. destruct (sunk (damage s0)).
    - destruct Hres as [_ [_ Hin]]. rewrite Hin, elem_of_app, list_elem_of_singleton.
      tauto.
    - destruct Hres as [_ ->]. rewrite elem_of_app, list_elem_of_singleton.
      split; [intros H; split; [assumption | discriminate] | tauto]. }
  assert (Hhnd' : NoDup (_previous_hits (board w1))).
  { destruct (sunk (damage s0)); [apply Hres | destruct Hres as [_ ->]; assumption]. }
  split.
  - congruence.
  - intros a s Hs. destruct (Hnew a s Hs) as (s' & Hs' & Hpts & Hcase). rewrite Hpts.
    destruct Hcase as [(-> & -> & ->) | (Hne & ->)].
    + rewrite (unhit_cells_ext (board (hit_marked c w)) (board w1))
        by (intros p _; now rewrite Hval, value_hit_marked).
      rewrite Hcount. reflexivity.
    + rewrite (Hhealth a s' Hs'). symmetry. apply unhit_cells_ext.
      intros p Hp. rewrite Hval. destruct (decide (p = c)) as [-> | Hpc]; [| tauto].
      exfalso. apply Hne. exact (Hdisj a a0 s' s0 c Hs' Hs0 Hp Hc0).
  - intros a s Hs. destruct (Hnew a s Hs) as (s' & Hs' & Hpts & _). rewrite Hpts.
    destruct (Hcells a s' Hs') as [Hnd Hin]. split; [assumption |].
    intros p Hp. destruct (Hin p Hp) as [Hbound Hmark]. split; [assumption |].
    rewrite Hval. destruct (decide (p = c)); [now right | assumption].
  - intros a s Hs Hcond. destruct (Hnew a s Hs) as (s' & Hs' & _ & Hcase).
    apply Hships. destruct Hcase as [(-> & -> & ->) | (Hne & ->)].
    + split; [assumption |]. unfold sunk. intros Hz%Z.eqb_eq. lia.
    + split; [now apply (Hlisted a s') | now intros _].
  - intros a a' s s' p Hs Hs' Hp Hp'.
    destruct (Hnew a s Hs) as (t & Ht' & Hpts & _).
    destruct (Hnew a' s' Hs') as (t' & Ht'' & Hpts' & _).
    rewrite Hpts in Hp. rewrite Hpts' in Hp'.
    exact (Hdisj a a' t t' p Ht' Ht'' Hp Hp').
  - exact Hhnd'.
  - intros p. rewrite Hhits1, Hval. split.
    + intros [[Hp | ->] Hnot].
      * apply Hhits in Hp as (H2 & a & s & Ha & Hs & Hps).
        assert (Hpc : p <> c) by (intros ->; lia).
        destruct (decide (p = c)); [contradiction |]. split; [assumption |].
        destruct (Hold a s Hs) as (s1 & Hs1 & Hpts1). exists a, s1.
        split; [| split; [assumption | now rewrite Hpts1]].
        apply Hships. split; [assumption |]. intros Hsunk ->.
        apply (Hnot Hsunk). rewrite Hs0 in Hs. now injection Hs as ->.
      * destruct (decide (c = c)); [| congruence]. split; [reflexivity |].
        destruct (Hold a0 s0 Hs0) as (s1 & Hs1 & Hpts1). exists a0, s1.
        split; [| split; [assumption | now rewrite Hpts1]].
        apply Hships. split; [assumption |]. intros Hsunk _.
        now apply (Hnot Hsunk).
    + intros (H2 & a & s & Ha & Hs & Hps).
      apply Hships in Ha as [Ha Hne].
      destruct (Hnew a s Hs) as (s' & Hs' & Hpts & _). rewrite Hpts in Hps. split.
      * destruct (decide (p = c)) as [-> | Hpc]; [now right |]. left.
        apply Hhits. split; [assumption |]. now exists a, s'.
      * intros Hsunk Hp0. apply (Hne Hsunk).
        exact (Hdisj a a0 s' s0 p Hs' Hs0 Hps Hp0).
  - intros p. rewrite Hval. destruct (decide (p = c)); [lia |].
    intros (a & s' & Hs' & Hp)%Hunhit.
    destruct (Hold a s' Hs') as (s & Hs & Hpts). exists a, s.
    split; [assumption | now rewrite Hpts].
Qed.

(** ** Placements keep the board consistent *)

Lemma length_points_from start dv i k : length (points_from start dv i k) = k.
Proof. revert i. induction k as [| k IH]; intros i; simpl; [| rewrite IH]; reflexivity. Qed.

Lemma is_valid_placement_true b length start d s :
  Ship_init length start d = Ok s ->
  in_bounds (_n b) start = true ->
  is_valid_placement b s = Ok true ->
  (forall p, p ∈ _points s -> in_bounds (_n b) p = true) /\
  (forall p, p ∈ _points s -> value b p <> 1).
Proof.
  intros Hs Hstart. unfold is_valid_placement.
  fold (in_bounds (_n b) (endpoint s)).
  destruct (in_bounds (_n b) (endpoint s)) eqn:He; [| discriminate].
  pose proof (ship_between_ends _ _ _ _ _ Hs Hstart He) as Hall.
  destruct (all_not_unhit_in_bounds b (_points s) Hall) as (v & Hv & Hiff).
  rewrite Hv. intros [= ->]. split; [exact Hall |].
  intros p Hp H1. apply (proj1 Hiff eq_refl p Hp).
  rewrite (cell_value _ _ (Hall p Hp)). now rewrite H1.
Qed.

Lemma mark_points_cells pts w :
  (forall p, p ∈ pts -> in_bounds (_n (board w)) p = true) ->
  exists w', mark_points pts w = (w', Ok tt) /\
    heap w' = heap w /\ _n (board w') = _n (board w) /\
    ships (board w') = ships (board w) /\
    _previous_hits (board w') = _previous_hits (board w) /\
    forall q, value (board w') q = if decide (q ∈ pts) then 1 else value (board w) q.
Proof.
  revert w. induction pts as [| p rest IH]; intros w Hin.
  - exists w. simpl. repeat split.
  - simpl. unfold bind at 1. unfold put_cell, bind, lift, set_cell, set_board.
    rewrite (norm_coord_in_bounds _ _ (Hin p ltac:(left))).
    cbn [heap board target_coordinate stdout _n _board ships _previous_hits].
    match goal with
    | |- context [mark_points rest ?w1] =>
        destruct (IH w1) as (w' & Hrun & Hh & Hn & Hs & Hp & Hval)
    end.
    { intros q Hq. cbn [board _n]. apply Hin. now right. }
    exists w'. split; [exact Hrun |].
    cbn [heap board _n _board ships _previous_hits] in Hh, Hn, Hs, Hp, Hval.
    repeat split; try assumption.
    intros q. rewrite Hval. unfold value at 1. cbn [_board].
    destruct (decide (q ∈ rest)) as [Hq | Hq].
    + destruct (decide (q ∈ p :: rest)) as [_ | Hn']; [reflexivity |].
      exfalso. apply Hn'. now right.
    + destruct (decide (q = p)) as [-> | Hne].
      * rewrite lookup_insert_eq.
        destruct (decide (p ∈ p :: rest)) as [_ | Hn']; [reflexivity |].
        exfalso. apply Hn'. left.
      * rewrite lookup_insert_ne by congruence.
        destruct (decide (q ∈ p :: rest)) as [Hq' | _]; [| reflexivity].
        apply elem_of_cons in Hq' as [-> | Hq']; contradiction.
Qed.

Lemma try_place_consistent n w length start d w' :
  consistent n w -> untouched w -> in_bounds n start = true ->
  try_place length start d w = (w', Ok true) ->
  consistent n w' /\ untouched w'.
Proof.
  intros [Hsize Hhealth Hcells Hlisted Hdisj Hhnd Hhits Hunhit] [Hnohits Hfresh]
         Hstart (s & Hinit & Hvalid & Hmark)%try_place_run.
  rewrite <- Hsize in Hstart.
  destruct (is_valid_placement_true _ _ _ _ _ Hinit Hstart Hvalid) as [Hon Hfree].
  destruct (mark_points_cells (_points s) (launched s w)) as
    (w1 & Hrun & Hh & Hn & Hs & Hp & Hval); [exact Hon |].
  rewrite Hrun in Hmark. injection Hmark as ->.
  cbn [launched heap board _n ships _previous_hits with_ships] in Hh, Hn, Hs, Hp, Hval.
  change (forall q, value (board w') q =
                    if decide (q ∈ _points s) then 1 else value (board w) q) in Hval.
  pose proof (Ship_init_NoDup _ _ _ _ Hinit) as Hnds.
  pose proof (Ship_init_ok _ _ _ _ Hinit) as (Hlen & _ & Hcond & Hpts & _).
  assert (Hmarked : forall a t p, heap w !! a = Some t -> p ∈ _points t ->
                                  value (board w) p = 1).
  { intros a t p Ht Hpin. destruct (Hcells a t Ht) as [_ Hin].
    destruct (Hin p Hpin) as [_ [H1 | H2]]; [assumption |].
    destruct (Hfresh p); lia. }
  assert (Hlook : forall a t, heap w' !! a = Some t ->
            heap w !! a = Some t \/ (a = Datatypes.length (heap w) /\ t = s)).
  { intros a t. rewrite Hh. intros Ht.
    apply lookup_app_Some in Ht as [Ht | [Hge Ht]]; [now left | right].
    apply list_lookup_singleton_Some in Ht as [Hz <-]. split; [lia | reflexivity]. }
  split; [split |].
  - congruence.
  - intros a t [Ht | [-> ->]]%Hlook.
    + rewrite (Hhealth a t Ht). symmetry. apply unhit_cells_ext.
      intros p Hpin. rewrite Hval. rewrite (Hmarked a t p Ht Hpin).
      destruct (decide (p ∈ _points s)); tauto.
    + rewrite unhit_cells_all.
      * rewrite Hcond, Hpts, length_points_from. lia.
      * intros p Hpin. rewrite Hval. now destruct (decide (p ∈ _points s)).
  - intros a t [Ht | [-> ->]]%Hlook.
    + destruct (Hcells a t Ht) as [Hnd Hin]. split; [assumption |].
      intros p Hpin. destruct (Hin p Hpin) as [Hb _]. split; [assumption |].
      rewrite Hval, (Hmarked a t p Ht Hpin). left.
      now destruct (decide (p ∈ _points s)).
    + split; [assumption |]. intros p Hpin. split; [rewrite <- Hsize; now apply Hon |].
      left. rewrite Hval. now destruct (decide (p ∈ _points s)).
  - intros a t [Ht | [-> ->]]%Hlook Hpos; rewrite Hs; apply elem_of_app.
    + left. now apply (Hlisted a t).
    + right. left.
  - intros a a' t t' p [Ht | [-> ->]]%Hlook [Ht' | [-> ->]]%Hlook Hpin Hpin'.
    + exact (Hdisj a a' t t' p Ht Ht' Hpin Hpin').
    + exfalso. apply (Hfree p Hpin'). exact (Hmarked a t p Ht Hpin).
    + exfalso. apply (Hfree p Hpin). exact (Hmarked a' t' p Ht' Hpin').
    + reflexivity.
  - rewrite Hp, Hnohits. constructor.
  - intros p. rewrite Hp, Hnohits, Hval. split; [intros H; inversion H |].
    intros [H2 _]. destruct (decide (p ∈ _points s)); [lia |].
    destruct (Hfresh p); lia.
  - intros p. rewrite Hval. destruct (decide (p ∈ _points s)) as [Hpin | _].
    + intros _. exists (Datatypes.length (heap w)), s. split; [| assumption].
      rewrite Hh, lookup_app_r, Nat.sub_diag by lia. reflexivity.
    + intros (a & t & Ht & Hpin)%Hunhit. exists a, t. split; [| assumption].
      rewrite Hh. apply lookup_app_l_Some, Ht.
  - split; [now rewrite Hp |]. intros p. rewrite Hval.
    destruct (decide (p ∈ _points s)); [now right | apply Hfresh].
Qed.

Lemma new_world_consistent n : consistent n (new_world n) /\ untouched (new_world n).
Proof.
  assert (Hv : forall p, value (board (new_world n)) p = 0).
  { intros p. unfold value. simpl. now rewrite lookup_empty. }
  assert (Hheap : forall a s, heap (new_world n) !! a = Some s -> False).
  { intros a s Hs. simpl in Hs. now rewrite lookup_nil in Hs. }
  split; [split |].
  - reflexivity.
  - intros a s Hs. destruct (Hheap a s Hs).
  - intros a s Hs. destruct (Hheap a s Hs).
  - intros a s Hs. destruct (Hheap a s Hs).
  - intros a a' s s' p Hs. destruct (Hheap a s Hs).
  - constructor.
  - intros p. split; [intros H; inversion H |]. rewrite Hv. intros [H _]. lia.
  - intros p. rewrite Hv. lia.
  - split; [reflexivity |]. intros p. left. apply Hv.
Qed.

Lemma placed_consistent n w :
  placed (fun c => in_bounds n c = true) n w -> consistent n w /\ untouched w.
Proof.
  induction 1 as [| w length start d w' _ [IHc IHu] Hstart Hplace];
    [apply new_world_consistent |].
  exact (try_place_consistent _ _ _ _ _ _ IHc IHu Hstart Hplace).
Qed.

Lemma fire_as_shot c w : fire c w = apply_shot c (with_target w (Some c)).
Proof. reflexivity. Qed.

Lemma game_consistent n w : game n w -> consistent n w /\ healthy w.
Proof.
  induction 1 as [w Hp | w c w' r _ [IHc IHh] Hc Hfire].
  - split; [apply (placed_consistent _ _ Hp) | apply (placed_healthy _ _ _ Hp)].
  - rewrite fire_as_shot in Hfire.
    assert (Hc0 : consistent n (with_target w (Some c))) by (destruct IHc; now split).
    assert (Hh0 : healthy (with_target w (Some c))) by (destruct IHh; now split).
    split.
    + exact (proj2 (apply_shot_consistent _ _ _ _ _ Hc0 Hh0 Hc eq_refl Hfire)).
    + exact (proj1 (apply_shot_keeps_health c _ _ _ Hfire Hh0)).
Qed.

(** Every turn of the game returns normally. *)
Lemma game_fire_returns n w c w' r :
  game n w -> in_bounds n c = true -> fire c w = (w', r) -> r = Ok tt.
Proof.
  intros [Hcons Hh]%game_consistent Hc Hfire. rewrite fire_as_shot in Hfire.
  assert (Hc0 : consistent n (with_target w (Some c))) by (destruct Hcons; now split).
  assert (Hh0 : healthy (with_target w (Some c))) by (destruct Hh; now split).
  exact (proj1 (apply_shot_consistent _ _ _ _ _ Hc0 Hh0 Hc eq_refl Hfire)).
Qed.

(** A ship is listed exactly while it has health left, and no cell of a ship
    without health is among the recorded hits. *)
Lemma game_sink_consistency n w :
  game n w ->
  (forall a s, heap w !! a = Some s ->
     (a ∈ ships (board w) <-> 0 < condition s)) /\
  (forall a s p, heap w !! a = Some s -> condition s = 0 ->
     p ∈ _points s -> p ∉ _previous_hits (board w)).
Proof.
  intros [Hcons Hh]%game_consistent. split.
  - intros a s Hs. split.
    + intros Ha. destruct (healthy_afloat _ Hh a Ha) as (s' & Hs' & Hpos).
      rewrite Hs in Hs'. injection Hs' as <-. lia.
    + apply (cons_listed _ _ Hcons a s Hs).
  - intros a s p Hs Hz Hp [_ (a' & s' & Ha' & Hs' & Hp')]%(cons_hits _ _ Hcons).
    assert (a = a') as <- by exact (cons_disjoint _ _ Hcons a a' s s' p Hs Hs' Hp Hp').
    destruct (healthy_afloat _ Hh a Ha') as (s'' & Hs'' & Hpos).
    rewrite Hs in Hs''. injection Hs'' as <-. lia.
Qed.

(** X18: in every state of a game as the main loop plays it (placements on
    the board, then turns that bind the global name to the target), a
    ship is in [ships] iff its health is above zero; a turn returns
    normally, and a ship whose health it brings to zero is no longer in
    [ships] afterwards and none of its cells is left in the recorded hits. *)
Theorem sunk_ships_leave_the_board (n : Z) (w : World) :
  game n w ->
  (forall a s, heap w !! a = Some s ->
     (a ∈ ships (board w) <-> 0 < condition s)) /\
  (forall c w' r, in_bounds n c = true -> fire c w = (w', r) ->
     r = Ok tt /\
     (forall a s s', heap w !! a = Some s -> heap w' !! a = Some s' ->
        0 < condition s -> condition s' = 0 ->
        (a ∉ ships (board w')) /\
        (forall p, p ∈ _points s' -> p ∉ _previous_hits (board w')))).
Proof.
  intros Hgame. split; [apply (game_sink_consistency n w Hgame) |].
  intros c w' r Hc Hfire. split; [exact (game_fire_returns _ _ _ _ _ Hgame Hc Hfire) |].
  intros a s s' Hs Hs' Hpos Hz.
  destruct (game_sink_consistency n w' (game_fire _ _ _ _ _ Hgame Hc Hfire))
    as [Hlisted Hgone].
  split.
  - intros Ha. apply (Hlisted a s' Hs') in Ha. lia.
  - intros p Hp. exact (Hgone a s' p Hs' Hz Hp).
Qed.

Lemma sunk_ships_leave_the_board_witness :
  (forall a s, heap first_destroyer_hit !! a = Some s ->
     (a ∈ ships (board first_destroyer_hit) <-> 0 < condition s)) /\
  (forall c w' r, in_bounds 3 c = true -> fire c first_destroyer_hit = (w', r) ->
     r = Ok tt /\
     (forall a s s', heap first_destroyer_hit !! a = Some s ->
        heap w' !! a = Some s' ->
        0 < condition s -> condition s' = 0 ->
        (a ∉ ships (board w')) /\
        (forall p, p ∈ _points s' -> p ∉ _previous_hits (board w')))).
Proof.
  apply (sunk_ships_leave_the_board 3).
  apply (game_fire 3 two_destroyers (0, 0) _ (Ok tt)); [| reflexivity | reflexivity].
  apply game_placed.
  apply (placed_ship _ 3 (fst (try_place 2 (0, 0) DirE (new_world 3)))
           2 (2, 0) DirE); [| reflexivity | reflexivity].
  apply (placed_ship _ 3 (new_world 3) 2 (0, 0) DirE);
    [| reflexivity | reflexivity].
  apply placed_new. lia.
Defined.

(** C4 (where the code departs from it): [apply_shot] looks the ship up
    under the global name, so a call made while that name holds another
    coordinate damages the wrong ship.  After valid placements and a turn at
    (2, 2), two calls of [apply_shot] on the cells of the Destroyer, made
    while the name still holds (2, 2), bring the health of the Submarine to
    zero: it is taken out of [ships], the removal of its cells from the
    recorded hits raises [ValueError] at the first cell that was never
    recorded, and its cell (2, 2) is left among the recorded hits.  The
    Destroyer, hit on both cells, keeps its full health. *)
Theorem sunk_ship_stays_in_recorded_hits :
  shot_at 3 (fst shots_under_old_target) /\
  snd shots_under_old_target = Raise ValueError /\
  map condition (heap (fst shots_under_old_target)) = [2; 0] /\
  map _points (heap (fst shots_under_old_target))
    = [[(0, 0); (0, 1)]; [(2, 0); (2, 1); (2, 2)]] /\
  ships (board (fst shots_under_old_target)) = [0%nat] /\
  _previous_hits (board (fst shots_under_old_target)) = [(2, 2); (0, 0); (0, 1)] /\
  cell (board (fst shots_under_old_target)) (0, 0) = Ok 2 /\
  cell (board (fst shots_under_old_target)) (0, 1) = Ok 2.
Proof.
  split; [| vm_compute; repeat split].
  apply (shot_at_shot 3 (fst ((fire (2, 2) ;; apply_shot (0, 0)) destroyer_and_submarine))
           (Some (2, 2)) (0, 1) _ (Raise ValueError)); [| vm_compute; reflexivity].
  apply (shot_at_shot 3 (fst (fire (2, 2) destroyer_and_submarine))
           (Some (2, 2)) (0, 0) _ (Ok tt)); [| vm_compute; reflexivity].
  apply (shot_at_shot 3 destroyer_and_submarine (Some (2, 2)) (2, 2) _ (Ok tt));
    [| vm_compute; reflexivity].
  apply shot_at_placed.
  apply (placed_ship _ 3 (fst (try_place 2 (0, 0) DirE (new_world 3)))
           3 (2, 0) DirE); [| exact I | vm_compute; reflexivity].
  apply (placed_ship _ 3 (new_world 3) 2 (0, 0) DirE);
    [| exact I | vm_compute; reflexivity].
  apply placed_new. lia.
Qed.

Example sinking_scenario :
  let w := fst (fire (0, 1) first_destroyer_hit) in
  snd (fire (0, 1) first_destroyer_hit) = Ok tt /\
  map condition (heap w) = [0; 2] /\
  ships (board w) = [1%nat] /\
  _previous_hits (board w) = [] /\
  stdout w = ["Hit!"; "Hit!"; "Destroyer sunk!"]%string.
Proof. vm_compute. repeat split. Qed.

(** ** Random placement *)

Lemma randint_below_pos n raw : 0 < n -> randint_below n raw = Ok (raw mod n).
Proof. intros H. unfold randint_below. destruct (Z.leb_spec n 0); [lia | reflexivity]. Qed.

(** One attempt of the loop. *)
Lemma place_randomly_step fuel rng k ship_length w :
  0 < _n (board w) ->
  place_randomly (S fuel) rng k ship_length w =
  (let d := draw rng (_n (board w)) k in
   placed <~ try_place ship_length (fst d) (snd d) ;;
   if placed then ret (S (S (S k)))
   else place_randomly fuel rng (S (S (S k))) ship_length) w.
Proof.
  intros Hn. cbn [place_randomly]. unfold bind at 1 2, lift.
  now rewrite !randint_below_pos by assumption.
Qed.

Lemma place_randomly_never fuel rng k ship_length w :
  0 < _n (board w) ->
  (forall j, turned_down rng k ship_length w j) ->
  place_randomly fuel rng k ship_length w = (w, Diverge).
Proof.
  intros Hn. revert k. induction fuel as [| fuel IH]; intros k Hdown; [reflexivity |].
  rewrite place_randomly_step by assumption. cbv zeta. unfold bind.
  pose proof (Hdown 0%nat) as H0. unfold turned_down in H0.
  rewrite Nat.mul_0_r, Nat.add_0_r in H0. cbv zeta in H0. rewrite H0.
  apply IH. intros j. specialize (Hdown (S j)). unfold turned_down in *.
  now replace (S (S (S k)) + 3 * j)%nat with (k + 3 * S j)%nat by lia.
Qed.

Lemma place_randomly_first fuel rng k ship_length w j w' :
  0 < _n (board w) ->
  (forall i, (i < j)%nat -> turned_down rng k ship_length w i) ->
  (let d := draw rng (_n (board w)) (k + 3 * j) in
   try_place ship_length (fst d) (snd d) w = (w', Ok true)) ->
  (j < fuel)%nat ->
  place_randomly fuel rng k ship_length w = (w', Ok (k + 3 * j + 3)%nat).
Proof.
  intros Hn. revert k fuel. induction j as [| j IH]; intros k fuel Hdown Hgo Hfuel;
    (destruct fuel as [| fuel]; [lia |]);
    rewrite place_randomly_step by assumption; cbv zeta in *; unfold bind.
  - rewrite Nat.mul_0_r, Nat.add_0_r in Hgo. rewrite Hgo. unfold ret.
    do 2 f_equal. lia.
  - pose proof (Hdown 0%nat ltac:(lia)) as H0. unfold turned_down in H0.
    rewrite Nat.mul_0_r, Nat.add_0_r in H0. cbv zeta in H0. rewrite H0.
    replace (k + 3 * S j + 3)%nat with (S (S (S k)) + 3 * j + 3)%nat by lia.
    apply IH; [| | lia].
    + intros i Hi. specialize (Hdown (S i) ltac:(lia)). unfold turned_down in *.
      now replace (S (S (S k)) + 3 * i)%nat with (k + 3 * S i)%nat by lia.
    + now replace (S (S (S k)) + 3 * j)%nat with (k + 3 * S j)%nat by lia.
Qed.

Lemma same_size_mark_points pts :
  preserves (fun w w' => _n (board w') = _n (board w)) (mark_points pts).
Proof.
  induction pts as [| p rest IH]; simpl.
  - now apply preserves_ret.
  - apply preserves_bind; [intros w1 w2 w3; congruence | | intros _; exact IH].
    intros w w' r. unfold put_cell, bind, lift, set_board, set_cell.
    destruct (norm_coord _ p); now intros [= <- _].
Qed.

Lemma try_place_same_size length start d w w' :
  try_place length start d w = (w', Ok true) -> _n (board w') = _n (board w).
Proof.
  intros (s & _ & _ & Hmark)%try_place_run.
  exact (same_size_mark_points _ _ _ _ Hmark).
Qed.

(** With a supported length and a start on the board an attempt returns:
    the ship is placed, or the world is left as it was. *)
Lemma try_place_total length start d w :
  2 <= length <= 5 -> in_bounds (_n (board w)) start = true ->
  (exists w', try_place length start d w = (w', Ok true)) \/
  try_place length start d w = (w, Ok false).
Proof.
  intros Hlen Hstart. destruct (Ship_init_total length start d Hlen) as [s Hs].
  unfold try_place, bind, lift. rewrite Hs.
  unfold is_valid_placement. fold (in_bounds (_n (board w)) (endpoint s)).
  destruct (in_bounds (_n (board w)) (endpoint s)) eqn:He; [| now right].
  pose proof (ship_between_ends _ _ _ _ _ Hs Hstart He) as Hall.
  destruct (all_not_unhit_in_bounds (board w) (_points s) Hall) as (v & -> & _).
  destruct v; [left | now right].
  unfold alloc, place_ship, bind, set_board, lift, deref.
  cbn [heap board ships with_ships target_coordinate stdout].
  rewrite lookup_app_r, Nat.sub_diag by lia. cbn [lookup list_lookup].
  fold (launched s w).
  destruct (mark_points_cells (_points s) (launched s w) Hall) as (w' & -> & _).
  now exists w'.
Qed.

(** An attempt that is turned down leaves the world as it was. *)
Lemma try_place_turned_down length start d w w' :
  try_place length start d w = (w', Ok false) -> w' = w.
Proof.
  unfold try_place, bind, lift.
  destruct (Ship_init length start d) as [s | e | |]; try discriminate.
  destruct (is_valid_placement (board w) s) as [[|] | e | |]; try discriminate.
  - destruct (alloc s w) as [w1 [a | e | |]]; try discriminate.
    destruct (place_ship a w1) as [w2 [[] | e | |]]; discriminate.
  - unfold ret. now intros [= <-].
Qed.

Lemma draw_in_bounds rng n k : 0 < n -> in_bounds n (fst (draw rng n k)) = true.
Proof.
  intros Hn. apply in_bounds_spec. simpl.
  pose proof (Z.mod_pos_bound (rng k) n Hn).
  pose proof (Z.mod_pos_bound (rng (S k)) n Hn). lia.
Qed.

(** The loop for one ship raises nothing: it places the ship or runs out of
    fuel. *)
Lemma place_randomly_clean fuel rng k ship_length w :
  0 < _n (board w) -> 2 <= ship_length <= 5 ->
  exists w', _n (board w') = _n (board w) /\
    (place_randomly fuel rng k ship_length w = (w', Diverge) \/
     exists k', place_randomly fuel rng k ship_length w = (w', Ok k')).
Proof.
  intros Hn Hlen. revert k. induction fuel as [| fuel IH]; intros k.
  - exists w. split; [reflexivity | now left].
  - rewrite place_randomly_step by assumption. cbv zeta. unfold bind.
    destruct (try_place_total ship_length (fst (draw rng (_n (board w)) k))
                (snd (draw rng (_n (board w)) k)) w Hlen
                (draw_in_bounds rng _ k Hn)) as [[w' Hgo] | Hdown].
    + rewrite Hgo. exists w'. split; [exact (try_place_same_size _ _ _ _ _ Hgo) |].
      right. now exists (S (S (S k))).
    + rewrite Hdown. apply IH.
Qed.

Lemma initialise_ships_randomly_clean fuel rng k ship_lengths w :
  0 < _n (board w) ->
  (forall l, l ∈ ship_lengths -> 2 <= l <= 5) ->
  exists w', initialise_ships_randomly fuel rng k ship_lengths w = (w', Diverge) \/
             exists k', initialise_ships_randomly fuel rng k ship_lengths w = (w', Ok k').
Proof.
  revert k w. induction ship_lengths as [| l rest IH]; intros k w Hn Hlens.
  - exists w. right. now exists k.
  - simpl. unfold bind.
    destruct (place_randomly_clean fuel rng k l w Hn (Hlens l ltac:(left)))
      as (w1 & Hn1 & [-> | [k1 ->]]).
    + exists w1. now left.
    + apply IH; [lia |]. intros l' Hl'. apply Hlens. now right.
Qed.

Lemma initialise_ships_randomly_returns rng k ship_lengths w :
  0 < _n (board w) ->
  draws_suffice rng k ship_lengths w ->
  exists fuel0 w' k', forall fuel, (fuel0 <= fuel)%nat ->
    initialise_ships_randomly fuel rng k ship_lengths w = (w', Ok k').
Proof.
  revert k w. induction ship_lengths as [| l rest IH]; intros k w Hn Hdraws.
  - exists 0%nat, w, k. reflexivity.
  - destruct Hdraws as (j & w1 & Hdown & Hgo & Hrest).
    destruct (IH (k + 3 * j + 3)%nat w1) as (fuel0 & w' & k' & Hrun); [| exact Hrest |].
    { cbv zeta in Hgo. rewrite (try_place_same_size _ _ _ _ _ Hgo). exact Hn. }
    exists (Nat.max (S j) fuel0), w', k'. intros fuel Hfuel. simpl. unfold bind.
    rewrite (place_randomly_first fuel rng k l w j w1 Hn Hdown Hgo) by lia.
    apply Hrun. lia.
Qed.

(** When the loop for one ship returns, one attempt passed, after attempts
    that were all turned down. *)
Lemma place_randomly_returned fuel rng k ship_length w w' k' :
  place_randomly fuel rng k ship_length w = (w', Ok k') ->
  0 < _n (board w) /\
  exists j, (j < fuel)%nat /\ k' = (k + 3 * j + 3)%nat /\
    (forall i, (i < j)%nat -> turned_down rng k ship_length w i) /\
    (let d := draw rng (_n (board w)) (k + 3 * j) in
     try_place ship_length (fst d) (snd d) w = (w', Ok true)).
Proof.
  revert k. induction fuel as [| fuel IH]; intros k; [discriminate |].
  destruct (Z.leb_spec (_n (board w)) 0) as [Hn | Hn].
  - cbn [place_randomly]. unfold bind at 1, lift, randint_below.
    destruct (Z.leb_spec (_n (board w)) 0); [discriminate | lia].
  - rewrite place_randomly_step by assumption. cbv zeta. unfold bind.
    destruct (try_place ship_length _ _ w) as [w1 [[|] | e | |]] eqn:Htry;
      try discriminate.
    + unfold ret. intros [= <- <-]. split; [assumption |].
      exists 0%nat. split; [lia |]. split; [lia |]. split; [intros i Hi; lia |].
      cbv zeta. now rewrite Nat.mul_0_r, Nat.add_0_r.
    + pose proof (try_place_turned_down _ _ _ _ _ Htry) as ->. intros Hrun.
      destruct (IH _ Hrun) as (_ & j & Hj & -> & Hdown & Hgo). split; [assumption |].
      exists (S j). split; [lia |]. split; [lia |]. split.
      * intros [| i] Hi.
        -- unfold turned_down. cbv zeta. now rewrite Nat.mul_0_r, Nat.add_0_r.
        -- specialize (Hdown i ltac:(lia)). unfold turned_down in *.
           now replace (k + 3 * S i)%nat with (S (S (S k)) + 3 * i)%nat by lia.
      * cbv zeta in *.
        now replace (k + 3 * S j)%nat with (S (S (S k)) + 3 * j)%nat by lia.
Qed.

(** The attempt that goes through is the first one that is not turned
    down: the source leaves no choice. *)
Lemma first_valid_unique rng k ship_length w j j' w1 w1' :
  (forall i, (i < j)%nat -> turned_down rng k ship_length w i) ->
  (let d := draw rng (_n (board w)) (k + 3 * j) in
   try_place ship_length (fst d) (snd d) w = (w1, Ok true)) ->
  (forall i, (i < j')%nat -> turned_down rng k ship_length w i) ->
  (let d := draw rng (_n (board w)) (k + 3 * j') in
   try_place ship_length (fst d) (snd d) w = (w1', Ok true)) ->
  j = j' /\ w1 = w1'.
Proof.
  intros Hdown Hgo Hdown' Hgo'. cbv zeta in *.
  destruct (Nat.lt_trichotomy j j') as [Hlt | [<- | Hlt]].
  - specialize (Hdown' j Hlt). unfold turned_down in Hdown'. cbv zeta in Hdown'.
    rewrite Hdown' in Hgo. discriminate.
  - rewrite Hgo in Hgo'. now injection Hgo' as <-.
  - specialize (Hdown j' Hlt). unfold turned_down in Hdown. cbv zeta in Hdown.
    rewrite Hdown in Hgo'. discriminate.
Qed.

Lemma initialise_ships_randomly_returned fuel rng k ship_lengths w w' k' :
  initialise_ships_randomly fuel rng k ship_lengths w = (w', Ok k') ->
  draws_suffice rng k ship_lengths w.
Proof.
  revert k w. induction ship_lengths as [| l rest IH]; intros k w; simpl; [trivial |].
  unfold bind.
  destruct (place_randomly fuel rng k l w) as [w1 [k1 | e | |]] eqn:Hone;
    try discriminate.
  intros Hrest.
  destruct (place_randomly_returned _ _ _ _ _ _ _ Hone)
    as (_ & j & _ & -> & Hdown & Hgo).
  exists j, w1. split; [assumption |]. split; [assumption |].
  exact (IH _ _ Hrest).
Qed.

(** What the source holds for the ships after a prefix that was placed. *)
Lemma draws_suffice_after fuel rng k pre post w w1 k1 :
  initialise_ships_randomly fuel rng k pre w = (w1, Ok k1) ->
  draws_suffice rng k (pre ++ post) w -> draws_suffice rng k1 post w1.
Proof.
  revert k w. induction pre as [| l pre IH]; intros k w; simpl.
  - unfold ret. now intros [= <- <-].
  - unfold bind.
    destruct (place_randomly fuel rng k l w) as [w2 [k2 | e | |]] eqn:Hone;
      try discriminate.
    intros Hrest (j & w2' & Hdown & Hgo & Hmore).
    destruct (place_randomly_returned _ _ _ _ _ _ _ Hone)
      as (_ & j' & _ & -> & Hdown' & Hgo').
    destruct (first_valid_unique _ _ _ _ _ _ _ _ Hdown Hgo Hdown' Hgo') as [<- <-].
    exact (IH _ _ Hrest Hmore).
Qed.

Lemma initialise_ships_randomly_same_size fuel rng k ship_lengths w w' k' :
  initialise_ships_randomly fuel rng k ship_lengths w = (w', Ok k') ->
  _n (board w') = _n (board w).
Proof.
  revert k w. induction ship_lengths as [| l rest IH]; intros k w; simpl.
  - unfold ret. now intros [= <- _].
  - unfold bind.
    destruct (place_randomly fuel rng k l w) as [w1 [k1 | e | |]] eqn:Hone;
      try discriminate.
    intros Hrest.
    destruct (place_randomly_returned _ _ _ _ _ _ _ Hone)
      as (_ & j & _ & _ & _ & Hgo).
    cbv zeta in Hgo.
    now rewrite (IH _ _ Hrest), (try_place_same_size _ _ _ _ _ Hgo).
Qed.

(** With no legal slot left every attempt is turned down, whatever the
    source. *)
Lemma no_slot_turned_down rng k ship_length w :
  0 < _n (board w) -> no_slot ship_length w ->
  forall j, turned_down rng k ship_length w j.
Proof.
  intros Hn Hnone j. unfold turned_down. cbv zeta.
  apply Hnone. now apply draw_in_bounds.
Qed.

(** C9 (as the code has it): random placement retries without a bound and
    has no error for a fleet that does not fit.  On a board of size at
    least 1, with supported ship lengths, it raises nothing: it returns or
    it is still looping when the fuel runs out.  It returns exactly when
    the random source holds, for each ship in turn, an attempt that passes
    [is_valid_placement] on the board as the earlier ships left it, and then
    with the same result however many attempts are allowed beyond those it
    needs; otherwise it never returns.  That is so, for every random source,
    as soon as the ships placed so far leave no legal slot for the next
    one. *)
Theorem random_placement_retries_without_bound
    (rng : nat -> Z) (k : nat) (ship_lengths : list Z) (w : World) :
  0 < _n (board w) ->
  (forall l, l ∈ ship_lengths -> 2 <= l <= 5) ->
  (forall fuel, exists w',
     initialise_ships_randomly fuel rng k ship_lengths w = (w', Diverge) \/
     exists k', initialise_ships_randomly fuel rng k ship_lengths w = (w', Ok k')) /\
  ((exists fuel w' k',
      initialise_ships_randomly fuel rng k ship_lengths w = (w', Ok k')) <->
   draws_suffice rng k ship_lengths w) /\
  (draws_suffice rng k ship_lengths w ->
   exists fuel0 w' k', forall fuel, (fuel0 <= fuel)%nat ->
     initialise_ships_randomly fuel rng k ship_lengths w = (w', Ok k')) /\
  (~ draws_suffice rng k ship_lengths w ->
   forall fuel,
     snd (initialise_ships_randomly fuel rng k ship_lengths w) = Diverge) /\
  (forall pre l post fuel0 w1 k1,
     ship_lengths = pre ++ l :: post ->
     initialise_ships_randomly fuel0 rng k pre w = (w1, Ok k1) ->
     no_slot l w1 ->
     forall fuel,
       snd (initialise_ships_randomly fuel rng k ship_lengths w) = Diverge).
Proof.
  intros Hn Hlens.
  assert (Hstall : ~ draws_suffice rng k ship_lengths w ->
            forall fuel,
              snd (initialise_ships_randomly fuel rng k ship_lengths w) = Diverge).
  { intros Hnot fuel.
    destruct (initialise_ships_randomly_clean fuel rng k ship_lengths w Hn Hlens)
      as (w' & [-> | [k' Hrun]]); [reflexivity |].
    destruct Hnot. exact (initialise_ships_randomly_returned _ _ _ _ _ _ _ Hrun). }
  split; [| split; [| split; [| split]]].
  - intros fuel. now apply initialise_ships_randomly_clean.
  - split.
    + intros (fuel & w' & k' & Hrun).
      exact (initialise_ships_randomly_returned _ _ _ _ _ _ _ Hrun).
    + intros Hdraws.
      destruct (initialise_ships_randomly_returns rng k ship_lengths w Hn Hdraws)
        as (fuel0 & w' & k' & Hrun).
      exists fuel0, w', k'. now apply Hrun.
  - now apply initialise_ships_randomly_returns.
  - exact Hstall.
  - intros pre l post fuel0 w1 k1 -> Hpre Hnone. apply Hstall. intros Hdraws.
    pose proof (draws_suffice_after _ _ _ _ _ _ _ _ Hpre Hdraws)
      as (j & w2 & _ & Hgo & _).
    assert (Hn1 : 0 < _n (board w1))
      by now rewrite (initialise_ships_randomly_same_size _ _ _ _ _ _ _ Hpre).
    pose proof (no_slot_turned_down rng k1 l w1 Hn1 Hnone j) as Hdown.
    unfold turned_down in Hdown. cbv zeta in Hgo, Hdown.
    rewrite Hdown in Hgo. discriminate.
Qed.

(** On a 1x1 board no Destroyer fits, and for every random source and every
    number of attempts the placement of the fleet [[2]] is still looping; it
    neither returns nor raises. *)
Lemma random_placement_never_ends_on_a_small_board :
  ~ exists (rng : nat -> Z) (fuel : nat),
      snd (initialise_ships_randomly fuel rng 0 [2] (new_world 1)) <> Diverge.
Proof.
  intros (rng & fuel & H). apply H. simpl. unfold bind.
  rewrite place_randomly_never; [reflexivity | simpl; lia |].
  intros j. unfold turned_down, draw. cbn [new_world board _n].
  rewrite !Z.mod_1_r. cbv zeta. cbn [fst snd].
  destruct (choice_direction _); reflexivity.
Qed.

(** On the board [crowded] no Destroyer can be placed any more. *)
Lemma crowded_no_slot : no_slot 2 crowded.
Proof.
  assert (Hsize : _n (board crowded) = 3) by (vm_compute; reflexivity).
  intros [r c] d [Hr Hc]%in_bounds_spec. rewrite Hsize in Hr, Hc.
  cbn [fst snd] in Hr, Hc.
  assert (r = 0 \/ r = 1 \/ r = 2) as [-> | [-> | ->]] by lia;
    (assert (c = 0 \/ c = 1 \/ c = 2) as [-> | [-> | ->]] by lia);
    destruct d; vm_compute; reflexivity.
Qed.

(** C9 does not hold as stated.  The 3x3 board is large enough to hold a
    Submarine and three Destroyers ([full_board] holds them).  Yet when the
    random source first draws the middle row for the Submarine and the left
    of the top and of the bottom row for two Destroyers, no legal slot is
    left for the third: whatever the source draws next and however many
    attempts are made, the placement is still looping; it does not return
    and it raises no error. *)
Lemma random_placement_loops_when_nothing_fits :
  (placed (fun c => in_bounds 3 c = true) 3 full_board /\
   map _length (heap full_board) = [3; 2; 2; 2]) /\
  forall rng : nat -> Z,
    map rng (seq 0 9) = [1; 0; 1; 0; 0; 1; 2; 0; 1] ->
    forall fuel,
      snd (initialise_ships_randomly fuel rng 0 [3; 2; 2; 2] (new_world 3))
      = Diverge.
Proof.
  split.
  - split; [| reflexivity].
    apply (placed_ship _ 3
             (fst ((try_place 3 (0, 0) DirE ;; try_place 2 (1, 0) DirE ;;
                    try_place 2 (2, 0) DirE) (new_world 3))) 2 (1, 2) DirS);
      [| reflexivity | vm_compute; reflexivity].
    apply (placed_ship _ 3
             (fst ((try_place 3 (0, 0) DirE ;; try_place 2 (1, 0) DirE)
                     (new_world 3))) 2 (2, 0) DirE);
      [| reflexivity | vm_compute; reflexivity].
    apply (placed_ship _ 3 (fst (try_place 3 (0, 0) DirE (new_world 3)))
             2 (1, 0) DirE); [| reflexivity | vm_compute; reflexivity].
    apply (placed_ship _ 3 (new_world 3) 3 (0, 0) DirE);
      [| reflexivity | vm_compute; reflexivity].
    apply placed_new. lia.
  - intros rng Hrng fuel. cbn [map seq] in Hrng.
    injection Hrng as H0 H1 H2 H3 H4 H5 H6 H7 H8.
    destruct fuel as [| fuel]; [reflexivity |].
    assert (E1 : place_randomly (S fuel) rng 0 3 (new_world 3)
                 = (fst (try_place 3 (1, 0) DirE (new_world 3)), Ok 3%nat)).
    { apply (place_randomly_first (S fuel) rng 0 3 (new_world 3) 0);
        [reflexivity | intros i Hi; lia | | lia].
      cbv zeta. unfold draw. cbn [Nat.add Nat.mul]. rewrite H0, H1, H2.
      vm_compute. reflexivity. }
    assert (E2 : place_randomly (S fuel) rng 3 2
                   (fst (try_place 3 (1, 0) DirE (new_world 3)))
                 = (fst ((try_place 3 (1, 0) DirE ;; try_place 2 (0, 0) DirE)
                           (new_world 3)), Ok 6%nat)).
    { apply (place_randomly_first (S fuel) rng 3 2 _ 0);
        [reflexivity | intros i Hi; lia | | lia].
      cbv zeta. unfold draw. cbn [Nat.add Nat.mul]. rewrite H3, H4, H5.
      vm_compute. reflexivity. }
    assert (E3 : place_randomly (S fuel) rng 6 2
                   (fst ((try_place 3 (1, 0) DirE ;; try_place 2 (0, 0) DirE)
                           (new_world 3)))
                 = (crowded, Ok 9%nat)).
    { apply (place_randomly_first (S fuel) rng 6 2 _ 0);
        [reflexivity | intros i Hi; lia | | lia].
      cbv zeta. unfold draw. cbn [Nat.add Nat.mul]. rewrite H6, H7, H8.
      vm_compute. reflexivity. }
    cbn [initialise_ships_randomly]. unfold bind at 1. rewrite E1.
    unfold bind at 1. rewrite E2. unfold bind at 1. rewrite E3. unfold bind at 1.
    rewrite (place_randomly_never (S fuel) rng 9 2 crowded);
      [reflexivity | reflexivity |].
    apply no_slot_turned_down; [reflexivity | exact crowded_no_slot].
Qed.

Lemma random_placement_retries_without_bound_witness :
  (forall fuel, exists w',
     initialise_ships_randomly fuel (fun k => Z.of_nat k) 0 [2] (new_world 3)
       = (w', Diverge) \/
     exists k', initialise_ships_randomly fuel (fun k => Z.of_nat k) 0 [2] (new_world 3)
                = (w', Ok k')) /\
  ((exists fuel w' k',
      initialise_ships_randomly fuel (fun k => Z.of_nat k) 0 [2] (new_world 3)
        = (w', Ok k')) <->
   draws_suffice (fun k => Z.of_nat k) 0 [2] (new_world 3)) /\
  (draws_suffice (fun k => Z.of_nat k) 0 [2] (new_world 3) ->
   exists fuel0 w' k', forall fuel, (fuel0 <= fuel)%nat ->
     initialise_ships_randomly fuel (fun k => Z.of_nat k) 0 [2] (new_world 3)
       = (w', Ok k')) /\
  (~ draws_suffice (fun k => Z.of_nat k) 0 [2] (new_world 3) ->
   forall fuel,
     snd (initialise_ships_randomly fuel (fun k => Z.of_nat k) 0 [2] (new_world 3))
     = Diverge) /\
  (forall pre l post fuel0 w1 k1,
     [2] = pre ++ l :: post ->
     initialise_ships_randomly fuel0 (fun k => Z.of_nat k) 0 pre (new_world 3)
       = (w1, Ok k1) ->
     no_slot l w1 ->
     forall fuel,
       snd (initialise_ships_randomly fuel (fun k => Z.of_nat k) 0 [2] (new_world 3))
       = Diverge).
Proof.
  apply (random_placement_retries_without_bound (fun k => Z.of_nat k) 0 [2]
           (new_world 3)).
  - simpl. lia.
  - intros l Hl. apply list_elem_of_singleton in Hl. lia.
Defined.

Example random_placement_first_draw :
  draws_suffice (fun k => Z.of_nat k) 0 [2] (new_world 3) /\
  map _points (heap (fst (initialise_ships_randomly 1 (fun k => Z.of_nat k) 0 [2]
                            (new_world 3))))
    = [[(0, 1); (1, 1)]].
Proof.
  split; [| reflexivity].
  exists 0%nat. eexists. split; [intros i Hi; lia |]. split; [reflexivity | exact I].
Qed.

(** ** The scenarios of the standard game *)

Example destroyer_hit_then_sunk :
  let w0 := fst (try_place 2 (0, 0) DirE (new_world 10)) in
  let w1 := fst (fire (0, 0) w0) in
  let w2 := fst (fire (0, 1) w1) in
  map _points (heap w0) = [[(0, 0); (0, 1)]] /\
  is_hit (board w0) (0, 0) = Ok true /\
  stdout w1 = ["Hit!"%string] /\ ships (board w1) = [0%nat] /\
  _previous_hits (board w1) = [(0, 0)] /\
  stdout w2 = ["Hit!"; "Hit!"; "Destroyer sunk!"]%string /\
  ships (board w2) = [] /\ _previous_hits (board w2) = [].
Proof. vm_compute. repeat split. Qed.

Example line_inference_on_a_row :
  let w := fst ((try_place 4 (2, 1) DirE ;; fire (2, 2) ;; fire (2, 3))
                  (new_world 10)) in
  _previous_hits (board w) = [(2, 2); (2, 3)] /\
  generate_targets w = Ok [(2, 4); (2, 1)].
Proof. vm_compute. repeat split. Qed.

(** * Further properties of the code *)

(** ** Ship.__init__ *)

Lemma lookup_points_from start dv i k j :
  (j < k)%nat ->
  points_from start dv i k !! j =
  Some (fst start + (i + Z.of_nat j) * fst dv, snd start + (i + Z.of_nat j) * snd dv).
Proof.
  revert i j. induction k as [| k IH]; intros i j Hj; [lia |].
  destruct j as [| j]; simpl.
  - now rewrite Z.add_0_r.
  - rewrite IH by lia. do 3 f_equal; lia.
Qed.

(** X1: [Ship(length, start, direction)] raises [KeyError] exactly for a
    length other than 2, 3, 4, 5.  Otherwise the ship has [length] distinct
    cells, the [i]-th one [i] steps from [start] along the direction vector,
    full health, and [endpoint] is the cell farthest from [start]. *)
Theorem Ship_init_geometry (length : Z) (start : coord) (d : direction) :
  (~ 2 <= length <= 5 /\ Ship_init length start d = Raise KeyError) \/
  (2 <= length <= 5 /\
   exists s, Ship_init length start d = Ok s /\
     _length s = length /\ condition s = length /\
     ship_varieties length = Some (variety s) /\
     Z.of_nat (Datatypes.length (_points s)) = length /\
     NoDup (_points s) /\
     (forall i, 0 <= i < length ->
        _points s !! Z.to_nat i =
        Some (fst start + i * fst (direction_vectors d),
              snd start + i * snd (direction_vectors d))) /\
     endpoint s = (fst start + (length - 1) * fst (direction_vectors d),
                   snd start + (length - 1) * snd (direction_vectors d))).
Proof.
  destruct (ship_varieties length) as [v |] eqn:Hv.
  - right. pose proof (supported_length _ _ Hv) as Hlen. split; [exact Hlen |].
    destruct (Ship_init_total length start d Hlen) as [s Hs]. exists s.
    pose proof (Ship_init_ok _ _ _ _ Hs) as (_ & Hl & Hc & Hpts & Hend).
    split; [exact Hs |]. split; [exact Hl |]. split; [exact Hc |].
    split; [| split; [| split; [exact (Ship_init_NoDup _ _ _ _ Hs) | split]]].
    + unfold Ship_init in Hs. rewrite Hv in Hs.
      destruct (last _); [| discriminate]. now injection Hs as <-.
    + rewrite Hpts, length_points_from. lia.
    + intros i Hi. rewrite Hpts, lookup_points_from by lia.
      rewrite Z2Nat.id by lia. reflexivity.
    + exact Hend.
  - left. split.
    + intros Hlen. destruct (Ship_init_total length start d Hlen) as [s Hs].
      unfold Ship_init in Hs. now rewrite Hv in Hs.
    + unfold Ship_init. now rewrite Hv.
Qed.

(** ** The neighbours of a coordinate *)

Lemma NoDup_vertical_neighbours b c : NoDup (vertical_neighbours b c).
Proof.
  destruct c as [row col]. unfold vertical_neighbours. cbn [flat_map].
  destruct (in_range _ (row + 1)), (in_range _ (row + -1)); simpl;
    repeat (constructor; [rewrite ?elem_of_cons, ?elem_of_nil; intros H;
      repeat (destruct H as [H | H]); try (injection H as H; lia); easy |]);
    constructor.
Qed.

Lemma NoDup_horizontal_neighbours b c : NoDup (horizontal_neighbours b c).
Proof.
  destruct c as [row col]. unfold horizontal_neighbours. cbn [flat_map].
  destruct (in_range _ (col + 1)), (in_range _ (col + -1)); simpl;
    repeat (constructor; [rewrite ?elem_of_cons, ?elem_of_nil; intros H;
      repeat (destruct H as [H | H]); try (injection H as H; lia); easy |]);
    constructor.
Qed.

Lemma elem_of_all_neighbours b c p :
  in_bounds (_n b) c = true ->
  p ∈ all_neighbours b c <-> in_bounds (_n b) p = true /\ next_to c p.
Proof.
  intros [Hr Hc]%in_bounds_spec. unfold all_neighbours, next_to.
  rewrite elem_of_app, elem_of_vertical_neighbours, elem_of_horizontal_neighbours.
  rewrite in_bounds_spec, !in_range_spec. lia.
Qed.

(** X2: for a coordinate on the board, [all_neighbours] lists, without
    repetition, exactly the cells of the board one step away along a row or
    a column; so being a neighbour is symmetric between cells of the
    board.  There are at most four of them, at least two on a board with
    more than one row, and none on the 1x1 board. *)
Theorem all_neighbours_on_board (b : Board) (c : coord) :
  in_bounds (_n b) c = true ->
  NoDup (all_neighbours b c) /\
  (forall p, p ∈ all_neighbours b c <->
             in_bounds (_n b) p = true /\ next_to c p) /\
  (forall p, in_bounds (_n b) p = true ->
             (p ∈ all_neighbours b c <-> c ∈ all_neighbours b p)) /\
  (length (all_neighbours b c) <= 4)%nat /\
  (2 <= _n b -> (2 <= length (all_neighbours b c))%nat) /\
  (_n b = 1 -> all_neighbours b c = []).
Proof.
  intros Hc.
  assert (Hcount : (length (all_neighbours b c) <= 4)%nat /\
            (2 <= _n b -> (2 <= length (all_neighbours b c))%nat) /\
            (_n b = 1 -> all_neighbours b c = [])).
  { destruct c as [row col]. apply in_bounds_spec in Hc as [Hr Hk].
    cbn [fst snd] in Hr, Hk.
    unfold all_neighbours, vertical_neighbours, horizontal_neighbours.
    cbn [flat_map app].
    destruct (in_range (_n b) (row + 1)) eqn:E1;
      [apply in_range_spec in E1
      | apply not_true_iff_false in E1; rewrite in_range_spec in E1];
    (destruct (in_range (_n b) (row + -1)) eqn:E2;
      [apply in_range_spec in E2
      | apply not_true_iff_false in E2; rewrite in_range_spec in E2]);
    (destruct (in_range (_n b) (col + 1)) eqn:E3;
      [apply in_range_spec in E3
      | apply not_true_iff_false in E3; rewrite in_range_spec in E3]);
    (destruct (in_range (_n b) (col + -1)) eqn:E4;
      [apply in_range_spec in E4
      | apply not_true_iff_false in E4; rewrite in_range_spec in E4]);
    cbn [app Datatypes.length];
    (split; [lia | split; [intros Hn; lia | intros Hn; first [reflexivity | lia]]]). }
  split; [| split; [| split; [| exact Hcount]]].
  - unfold all_neighbours. apply NoDup_app.
    split; [apply NoDup_vertical_neighbours |].
    split; [| apply NoDup_horizontal_neighbours].
    intros p Hv Hh. apply elem_of_vertical_neighbours in Hv.
    apply elem_of_horizontal_neighbours in Hh. lia.
  - intros p. now apply elem_of_all_neighbours.
  - intros p Hp. rewrite !elem_of_all_neighbours by assumption.
    unfold next_to. split; intros [_ H]; (split; [assumption | lia]).
Qed.

Lemma all_neighbours_on_board_witness :
  NoDup (all_neighbours (board (new_world 3)) (0, 1)) /\
  (forall p, p ∈ all_neighbours (board (new_world 3)) (0, 1) <->
             in_bounds 3 p = true /\ next_to (0, 1) p) /\
  (forall p, in_bounds 3 p = true ->
             (p ∈ all_neighbours (board (new_world 3)) (0, 1) <->
              (0, 1) ∈ all_neighbours (board (new_world 3)) p)) /\
  (length (all_neighbours (board (new_world 3)) (0, 1)%Z) <= 4)%nat /\
  (2 <= 3 -> (2 <= length (all_neighbours (board (new_world 3)) (0, 1)%Z))%nat) /\
  (3 = 1 -> all_neighbours (board (new_world 3)) (0, 1) = []).
Proof. apply (all_neighbours_on_board (board (new_world 3)) (0, 1)). reflexivity. Defined.

(** ** adjacent_coordinates_in *)

(** X3: [adjacent_coordinates_in] returns exactly the pairs of members of
    its argument that are directly adjacent, each in one order only: the one
    whose first component is the lower or the right-hand coordinate. *)
Theorem adjacent_coordinates_in_once (coordinates : list coord) (c1 c2 : coord) :
  ((c1, c2) ∈ adjacent_coordinates_in coordinates <->
   c1 ∈ coordinates /\ c2 ∈ coordinates /\ directly_adjacent c1 c2 /\
   (fst c1 = fst c2 + 1 \/ snd c1 = snd c2 + 1)) /\
  (((c1, c2) ∈ adjacent_coordinates_in coordinates \/
    (c2, c1) ∈ adjacent_coordinates_in coordinates) <->
   c1 ∈ coordinates /\ c2 ∈ coordinates /\ directly_adjacent c1 c2) /\
  ~ ((c1, c2) ∈ adjacent_coordinates_in coordinates /\
     (c2, c1) ∈ adjacent_coordinates_in coordinates).
Proof.
  rewrite !elem_of_adjacent_coordinates_in. unfold directly_adjacent.
  split; [| split].
  - split.
    + intros (H1 & H2 & Hadj). repeat split; try assumption; lia.
    + intros (H1 & H2 & Hadj & Hdir). repeat split; try assumption. lia.
  - split.
    + intros [(H1 & H2 & Hadj) | (H1 & H2 & Hadj)]; repeat split;
        try assumption; lia.
    + intros (H1 & H2 & Hadj).
      assert (Hcases :
        ((fst c1 - fst c2 = 1 /\ snd c1 - snd c2 = 0) \/
         (fst c1 - fst c2 = 0 /\ snd c1 - snd c2 = 1)) \/
        ((fst c2 - fst c1 = 1 /\ snd c2 - snd c1 = 0) \/
         (fst c2 - fst c1 = 0 /\ snd c2 - snd c1 = 1))) by lia.
      destruct Hcases; [left | right]; auto.
  - intros [(_ & _ & Hadj) (_ & _ & Hadj')]. lia.
Qed.

(** ** What a shot leaves alone *)

Lemma loop_frame_refl w : loop_frame w w.
Proof. repeat split. exists []. now rewrite app_nil_r. Qed.

Lemma loop_frame_trans w1 w2 w3 :
  loop_frame w1 w2 -> loop_frame w2 w3 -> loop_frame w1 w3.
Proof.
  intros ([Hn Hb] & [m Hm] & Ht) ([Hn' Hb'] & [m' Hm'] & Ht').
  repeat split; try congruence.
  exists (m ++ m'). now rewrite Hm', Hm, app_assoc.
Qed.

Lemma loop_frame_remove_points pts : preserves loop_frame (remove_points pts).
Proof.
  induction pts as [| p rest IH]; simpl.
  - apply preserves_ret, loop_frame_refl.
  - apply preserves_bind; [apply loop_frame_trans | | intros _; exact IH].
    intros w w' r. destruct (remove_first p _); intros [= <- _];
      [| apply loop_frame_refl].
    repeat split. exists []. simpl. now rewrite app_nil_r.
Qed.

Lemma loop_frame_shot_body a : preserves loop_frame (shot_body a).
Proof.
  unfold shot_body.
  apply preserves_bind; [apply loop_frame_trans | apply preserves_lift, loop_frame_refl |].
  intros t.
  apply preserves_bind; [apply loop_frame_trans | apply preserves_lift, loop_frame_refl |].
  intros s. destruct (ship_contains t s); [| apply preserves_ret, loop_frame_refl].
  apply preserves_bind; [apply loop_frame_trans | | intros _].
  { intros w w' r [= <- _]. repeat split. exists []. simpl. now rewrite app_nil_r. }
  destruct (sunk (damage s)); [| apply preserves_ret, loop_frame_refl].
  apply preserves_bind; [apply loop_frame_trans | | intros _].
  { intros w w' r [= <- _]. repeat split. now eexists. }
  apply preserves_bind; [apply loop_frame_trans | | intros _; apply loop_frame_remove_points].
  intros w w' r. unfold remove_ship. destruct (remove_first a _); intros [= <- _];
    [| apply loop_frame_refl].
  repeat split. exists []. simpl. now rewrite app_nil_r.
Qed.

Lemma loop_frame_ships_loop fuel i : preserves loop_frame (ships_loop fuel i).
Proof.
  revert i. induction fuel as [| fuel IH]; intros i w w' r; simpl.
  - intros [= <- _]. apply loop_frame_refl.
  - destruct (ships (board w) !! i) as [a |];
      [| intros [= <- _]; apply loop_frame_refl].
    revert w w' r. fold (preserves loop_frame (shot_body a ;; ships_loop fuel (S i))).
    apply preserves_bind;
      [apply loop_frame_trans | apply loop_frame_shot_body | intros _; apply IH].
Qed.

(** A shot at an index that numpy reads as an unhit ship cell. *)
Lemma apply_shot_hit_at c k w :
  norm_coord (_n (board w)) c = Some k ->
  default 0 (_board (board w) !! k) = 1 ->
  apply_shot c w = ships_loop (S (length (ships (board w)))) 0 (hit_marked_at k c w).
Proof.
  intros Hk Hv. unfold apply_shot, bind, lift, cell. rewrite Hk, Hv.
  cbn [Z.eqb Pos.eqb]. unfold print, put_cell, bind, lift, set_cell, set_board.
  cbn [heap board target_coordinate stdout _n _board]. now rewrite Hk.
Qed.

(** A shot at an index that numpy reads as a cell hit or missed before. *)
Lemma apply_shot_resolved c w v :
  cell (board w) c = Ok v -> v = 2 \/ v = 3 ->
  apply_shot c w = (with_stdout w (stdout w ++ ["Miss."%string]), Ok tt).
Proof.
  intros Hcell Hv. unfold apply_shot, bind, lift, print, ret. rewrite Hcell.
  destruct Hv as [-> | ->]; simpl; rewrite Hcell; simpl;
    destruct w as [h [n g l ph] t out]; reflexivity.
Qed.

(** X4: [is_hit] tells what the shot at the same coordinate then reports:
    when it answers [True] the shot prints [Hit!] first, when it answers
    [False] the shot prints [Miss.] only and returns, and when the index is
    outside the grid both raise [IndexError] and the shot changes
    nothing. *)
Theorem is_hit_foretells_the_shot (w : World) (c : coord) :
  (is_hit (board w) c = Ok true /\
   exists more, stdout (fst (apply_shot c w)) = stdout w ++ "Hit!"%string :: more) \/
  (is_hit (board w) c = Ok false /\
   snd (apply_shot c w) = Ok tt /\
   stdout (fst (apply_shot c w)) = stdout w ++ ["Miss."%string]) \/
  (is_hit (board w) c = Raise IndexError /\
   norm_coord (_n (board w)) c = None /\
   apply_shot c w = (w, Raise IndexError)).
Proof.
  unfold is_hit. destruct (norm_coord (_n (board w)) c) as [k |] eqn:Hk.
  - assert (Hcell : cell (board w) c = Ok (default 0 (_board (board w) !! k)))
      by (unfold cell; now rewrite Hk).
    rewrite Hcell. cbn [obind].
    destruct (Z.eqb_spec (default 0 (_board (board w) !! k)) 1) as [H1 | H1].
    + left. split; [reflexivity |]. rewrite (apply_shot_hit_at c k w Hk H1).
      destruct (ships_loop _ 0 (hit_marked_at k c w)) as [w' r] eqn:Hloop.
      destruct (loop_frame_ships_loop _ _ _ _ _ Hloop) as (_ & [more Hmore] & _).
      exists more. cbn [fst]. rewrite Hmore. cbn [hit_marked_at stdout].
      now rewrite <- app_assoc.
    + right. left. split; [reflexivity |].
      unfold apply_shot, bind, lift. rewrite Hcell.
      destruct (Z.eqb_spec (default 0 (_board (board w) !! k)) 1); [contradiction |].
      unfold print. cbn [heap board target_coordinate stdout]. rewrite Hcell.
      destruct (_ =? 0); [| now split].
      unfold put_cell, bind, lift, set_cell, set_board.
      cbn [heap board target_coordinate stdout]. rewrite Hk. now split.
  - right. right. unfold cell, apply_shot, bind, lift, cell. rewrite Hk.
    repeat split.
Qed.

(** X5: once a shot has been applied at a cell of the grid, whatever it hit
    and however it ended, a second shot at the same coordinate prints
    [Miss.], returns, and changes nothing else. *)
Theorem second_shot_changes_nothing (w w1 : World) (c : coord) (v : Z)
    (r : outcome unit) :
  cells_valid (board w) ->
  cell (board w) c = Ok v ->
  apply_shot c w = (w1, r) ->
  apply_shot c w1 = (with_stdout w1 (stdout w1 ++ ["Miss."%string]), Ok tt).
Proof.
  intros Hvalid Hcell Hrun. pose proof Hcell as Hc. unfold cell in Hc.
  destruct (norm_coord (_n (board w)) c) as [k |] eqn:Hk; [| discriminate].
  injection Hc as Hv.
  assert (Hrange : 0 <= v <= 3).
  { subst v. destruct (_board (board w) !! k) as [x |] eqn:Hx; simpl;
      [exact (Hvalid _ _ Hx) | lia]. }
  assert (Hres : exists v', cell (board w1) c = Ok v' /\ (v' = 2 \/ v' = 3)).
  { destruct (Z.eq_dec v 1) as [H1 | H1].
    - rewrite (apply_shot_hit_at c k w Hk) in Hrun by congruence.
      destruct (loop_frame_ships_loop _ _ _ _ _ Hrun) as ([Hn Hb] & _ & _).
      exists 2. split; [| now left]. unfold cell. rewrite Hn, Hb.
      cbn [hit_marked_at board _n _board]. rewrite Hk. now rewrite lookup_insert_eq.
    - unfold apply_shot, bind, lift in Hrun. rewrite Hcell in Hrun.
      destruct (Z.eqb_spec v 1); [contradiction |].
      unfold print in Hrun. cbn [heap board target_coordinate stdout] in Hrun.
      rewrite Hcell in Hrun. destruct (Z.eqb_spec v 0) as [H0 | H0].
      + unfold put_cell, bind, lift, set_cell, set_board in Hrun.
        cbn [heap board target_coordinate stdout] in Hrun. rewrite Hk in Hrun.
        injection Hrun as <- _. exists 3. split; [| now right].
        unfold cell. cbn [board _n _board]. rewrite Hk. now rewrite lookup_insert_eq.
      + injection Hrun as <- _. exists v. split; [| lia].
        unfold cell. cbn [board]. rewrite Hk. now rewrite Hv. }
  destruct Hres as (v' & Hcell' & Hv'). exact (apply_shot_resolved c w1 v' Hcell' Hv').
Qed.

Lemma second_shot_changes_nothing_witness :
  let w1 := fst (apply_shot (0, 0) (with_target two_destroyers (Some (0, 0)))) in
  apply_shot (0, 0) w1 = (with_stdout w1 (stdout w1 ++ ["Miss."%string]), Ok tt).
Proof.
  apply (second_shot_changes_nothing
           (with_target two_destroyers (Some (0, 0))) _ (0, 0) 1 (Ok tt)).
  - change (map_Forall (fun (_ : Z * Z) v => 0 <= v <= 3)
              (_board (board two_destroyers))).
    apply map_Forall_to_list. vm_compute. repeat constructor; discriminate.
  - reflexivity.
  - reflexivity.
Defined.

(** ** Invariants of the grid and of the ship objects *)

Lemma cells_valid_insert b k v :
  cells_valid b -> 0 <= v <= 3 -> cells_valid (with_cells b (<[k := v]> (_board b))).
Proof.
  intros Hvalid Hv k' v'. unfold with_cells. cbn [_board].
  destruct (decide (k = k')) as [-> | Hne].
  - rewrite lookup_insert_eq. now intros [= <-].
  - rewrite lookup_insert_ne by assumption. apply Hvalid.
Qed.

Lemma cells_valid_put_cell c v w w' r :
  0 <= v <= 3 -> cells_valid (board w) -> put_cell c v w = (w', r) ->
  cells_valid (board w').
Proof.
  intros Hv Hvalid. unfold put_cell, bind, lift, set_cell, set_board.
  destruct (norm_coord _ c) as [k |]; intros [= <- _]; [| assumption].
  exact (cells_valid_insert _ k v Hvalid Hv).
Qed.

Lemma cells_valid_mark_points pts w w' r :
  cells_valid (board w) -> mark_points pts w = (w', r) -> cells_valid (board w').
Proof.
  revert w. induction pts as [| p rest IH]; intros w Hvalid; simpl.
  - now intros [= <- _].
  - unfold bind. destruct (put_cell p 1 w) as [w1 r1] eqn:Hput.
    assert (H1 : cells_valid (board w1))
      by (apply (cells_valid_put_cell p 1 w w1 r1); [lia | assumption | assumption]).
    destruct r1; try (now intros [= <- _]). now apply IH.
Qed.

Lemma cells_valid_try_place length start d w w' :
  cells_valid (board w) -> try_place length start d w = (w', Ok true) ->
  cells_valid (board w').
Proof.
  intros Hvalid (s & _ & _ & Hmark)%try_place_run.
  exact (cells_valid_mark_points _ (launched s w) _ _ Hvalid Hmark).
Qed.

Lemma cells_valid_apply_shot c w w' r :
  cells_valid (board w) -> apply_shot c w = (w', r) -> cells_valid (board w').
Proof.
  intros Hvalid. unfold apply_shot, bind, lift, cell.
  destruct (norm_coord (_n (board w)) c) as [k |] eqn:Hk; [| now intros [= <- _]].
  destruct (_ =? 1).
  - unfold print, put_cell, bind, lift, set_cell, set_board.
    cbn [heap board target_coordinate stdout]. rewrite Hk.
    cbn [heap board target_coordinate stdout ships with_hits _n _board].
    intros Hloop. destruct (loop_frame_ships_loop _ _ _ _ _ Hloop) as ([_ Hb] & _).
    intros k' v'. rewrite Hb. cbn [board _board].
    exact (cells_valid_insert _ k 2 Hvalid ltac:(lia) k' v').
  - unfold print. cbn [heap board target_coordinate stdout]. rewrite Hk.
    destruct (_ =? 0); [| now intros [= <- _]].
    intros Hput. apply (cells_valid_put_cell c 3 _ _ _ ltac:(lia)) in Hput; assumption.
Qed.

Lemma cells_valid_new_world n : cells_valid (board (new_world n)).
Proof. intros k v. simpl. now rewrite lookup_empty. Qed.

Lemma placed_cells_valid P n w : placed P n w -> cells_valid (board w).
Proof.
  induction 1 as [| w length start d w' _ IH _ Hplace];
    [apply cells_valid_new_world |].
  exact (cells_valid_try_place _ _ _ _ _ IH Hplace).
Qed.

Lemma game_cells_valid n w : game n w -> cells_valid (board w).
Proof.
  induction 1 as [w Hp | w c w' r _ IH _ Hfire];
    [exact (placed_cells_valid _ _ _ Hp) |].
  rewrite fire_as_shot in Hfire.
  exact (cells_valid_apply_shot c (with_target w (Some c)) _ _ IH Hfire).
Qed.

Lemma same_shapes_refl w : same_shapes w w.
Proof. intros a s Hs. now exists s. Qed.

Lemma same_shapes_trans w1 w2 w3 :
  same_shapes w1 w2 -> same_shapes w2 w3 -> same_shapes w1 w3.
Proof.
  intros H12 H23 a s3 Hs3. destruct (H23 a s3 Hs3) as (s2 & Hs2 & Hp & Hl & Hv).
  destruct (H12 a s2 Hs2) as (s1 & Hs1 & Hp' & Hl' & Hv').
  exists s1. repeat split; congruence.
Qed.

Lemma same_fleet_same_shapes w w' : same_fleet w w' -> same_shapes w w'.
Proof. intros [Hh _] a s. rewrite Hh. intros Hs. now exists s. Qed.

Lemma same_shapes_shot_body a : preserves same_shapes (shot_body a).
Proof.
  intros w w' r. unfold shot_body, bind, read_target, lift, deref.
  destruct (target_coordinate w); [| intros [= <- _]; apply same_shapes_refl].
  destruct (heap w !! a) as [s |] eqn:Hs; [| intros [= <- _]; apply same_shapes_refl].
  destruct (ship_contains _ s); [| intros [= <- _]; apply same_shapes_refl].
  unfold store.
  assert (Hstore : forall h' : list Ship, h' = <[a := damage s]> (heap w) ->
            forall a' s', h' !! a' = Some s' ->
            exists s0, heap w !! a' = Some s0 /\ _points s' = _points s0 /\
                       _length s' = _length s0 /\ variety s' = variety s0).
  { intros h' -> a' s'. pose proof (lookup_lt_Some _ _ _ Hs).
    destruct (decide (a' = a)) as [-> | Hne].
    - rewrite list_lookup_insert_eq by assumption. intros [= <-]. now exists s.
    - rewrite list_lookup_insert_ne by congruence. intros Hs'. now exists s'. }
  destruct (sunk (damage s)).
  - unfold print, remove_ship. cbn [heap board target_coordinate stdout].
    destruct (remove_first a _).
    + unfold set_board. cbn [heap board target_coordinate stdout]. intros Hrun.
      destruct (same_fleet_remove_points _ _ _ _ Hrun) as [Hh _].
      cbn [heap] in Hh. intros a' s'. now apply Hstore.
    + intros [= <- _]. intros a' s'. now apply Hstore.
  - unfold ret. intros [= <- _]. intros a' s'. now apply Hstore.
Qed.

Lemma same_shapes_ships_loop fuel i : preserves same_shapes (ships_loop fuel i).
Proof.
  revert i. induction fuel as [| fuel IH]; intros i w w' r; simpl.
  - intros [= <- _]. apply same_shapes_refl.
  - destruct (ships (board w) !! i) as [a |];
      [| intros [= <- _]; apply same_shapes_refl].
    revert w w' r. fold (preserves same_shapes (shot_body a ;; ships_loop fuel (S i))).
    apply preserves_bind;
      [apply same_shapes_trans | apply same_shapes_shot_body | intros _; apply IH].
Qed.

Lemma same_shapes_apply_shot c : preserves same_shapes (apply_shot c).
Proof.
  assert (Hfleet : forall (m : M unit), preserves same_fleet m -> preserves same_shapes m).
  { intros m. apply preserves_weaken, same_fleet_same_shapes. }
  unfold apply_shot.
  apply preserves_bind;
    [apply same_shapes_trans | apply preserves_lift, same_shapes_refl |].
  intros v. destruct (v =? 1).
  - apply preserves_bind;
      [apply same_shapes_trans | apply Hfleet, same_fleet_print | intros _].
    apply preserves_bind;
      [apply same_shapes_trans | apply Hfleet, same_fleet_put_cell | intros _].
    apply preserves_bind; [apply same_shapes_trans | | intros _].
    + intros w w' r [= <- _]. intros a s Hs. now exists s.
    + intros w w' r. apply same_shapes_ships_loop.
  - apply preserves_bind;
      [apply same_shapes_trans | apply Hfleet, same_fleet_print | intros _].
    apply preserves_bind;
      [apply same_shapes_trans | apply preserves_lift, same_shapes_refl |].
    intros v'. destruct (v' =? 0); [apply Hfleet, same_fleet_put_cell |].
    apply preserves_ret, same_shapes_refl.
Qed.

Lemma well_built_same_shapes w w' : same_shapes w w' -> well_built w -> well_built w'.
Proof.
  intros Hsame Hw a s' Hs'. destruct (Hsame a s' Hs') as (s & Hs & Hp & Hl & _).
  destruct (Hw a s Hs) as (Hlen & start & d & Hpts).
  split; [lia |]. exists start, d. congruence.
Qed.

Lemma placed_well_built P n w : placed P n w -> well_built w.
Proof.
  induction 1 as [| w length start d w' _ IH _ Hplace].
  - intros a s Hs. simpl in Hs. now rewrite lookup_nil in Hs.
  - apply try_place_fleet in Hplace as (s & Hinit & _ & Hh & _).
    apply Ship_init_ok in Hinit as (Hlen & Hl & _ & Hpts & _).
    intros a t. rewrite Hh. intros Ht.
    apply lookup_app_Some in Ht as [Ht | [_ Ht]]; [now apply (IH a) |].
    apply list_lookup_singleton_Some in Ht as [_ <-].
    split; [lia |]. exists start, d. now rewrite Hl.
Qed.

Lemma game_well_built n w : game n w -> well_built w.
Proof.
  induction 1 as [w Hp | w c w' r _ IH _ Hfire];
    [exact (placed_well_built _ _ _ Hp) |].
  rewrite fire_as_shot in Hfire.
  apply (well_built_same_shapes (with_target w (Some c)) w');
    [exact (same_shapes_apply_shot c _ _ _ Hfire) | exact IH].
Qed.

(** ** The board after the placements *)

Lemma placed_ships_in_order P n w :
  placed P n w -> ships (board w) = seq 0 (length (heap w)).
Proof.
  induction 1 as [| w length start d w' _ IH _ Hplace]; [reflexivity |].
  apply try_place_fleet in Hplace as (s & _ & _ & Hh & Hs).
  rewrite Hs, Hh, IH, length_app. cbn [Datatypes.length].
  now rewrite Nat.add_1_r, seq_S.
Qed.

(** X6: after any number of validated placements from starts on the board,
    [ships] lists every ship object in the order of placement, each ship has
    full health and lies on the board, its cells read [1], no two ships
    share a cell, and every other cell of the board reads [0]. *)
Theorem placements_keep_ships_apart (n : Z) (w : World) :
  placed (fun c => in_bounds n c = true) n w ->
  ships (board w) = seq 0 (length (heap w)) /\
  (forall a s, heap w !! a = Some s ->
     condition s = _length s /\
     forall p, p ∈ _points s -> in_bounds n p = true /\ cell (board w) p = Ok 1) /\
  (forall a a' s s' p, heap w !! a = Some s -> heap w !! a' = Some s' ->
     p ∈ _points s -> p ∈ _points s' -> a = a') /\
  (forall p, in_bounds n p = true ->
     (cell (board w) p = Ok 1 /\ exists a s, heap w !! a = Some s /\ p ∈ _points s) \/
     (cell (board w) p = Ok 0 /\ forall a s, heap w !! a = Some s -> p ∉ _points s)).
Proof.
  intros Hp. destruct (placed_consistent n w Hp) as [Hcons [_ Hfresh]].
  pose proof (placed_well_built _ _ _ Hp) as Hbuilt.
  destruct Hcons as [Hsize Hhealth Hcells Hlisted Hdisj _ _ Hunhit].
  assert (Hmarked : forall a s p, heap w !! a = Some s -> p ∈ _points s ->
                                  value (board w) p = 1).
  { intros a s p Hs Hin. destruct (Hcells a s Hs) as [_ Hc].
    destruct (Hc p Hin) as [_ [H1 | H2]]; [assumption |]. destruct (Hfresh p); lia. }
  split; [exact (placed_ships_in_order _ _ _ Hp) |]. split; [| split].
  - intros a s Hs. split.
    + rewrite (Hhealth a s Hs), unhit_cells_all by (intros p; apply (Hmarked a s p Hs)).
      destruct (Hbuilt a s Hs) as (Hlen & start & d & ->).
      rewrite length_points_from. lia.
    + intros p Hin. destruct (Hcells a s Hs) as [_ Hc].
      destruct (Hc p Hin) as [Hb _]. split; [assumption |].
      rewrite cell_value by now rewrite Hsize. now rewrite (Hmarked a s p Hs Hin).
  - exact Hdisj.
  - intros p Hb. rewrite cell_value by now rewrite Hsize.
    destruct (Hfresh p) as [H0 | H1].
    + right. split; [now rewrite H0 |]. intros a s Hs Hin.
      rewrite (Hmarked a s p Hs Hin) in H0. lia.
    + left. split; [now rewrite H1 |]. now apply Hunhit.
Qed.

Lemma placements_keep_ships_apart_witness :
  ships (board two_destroyers) = seq 0 (length (heap two_destroyers)) /\
  (forall a s, heap two_destroyers !! a = Some s ->
     condition s = _length s /\
     forall p, p ∈ _points s ->
       in_bounds 3 p = true /\ cell (board two_destroyers) p = Ok 1) /\
  (forall a a' s s' p, heap two_destroyers !! a = Some s ->
     heap two_destroyers !! a' = Some s' ->
     p ∈ _points s -> p ∈ _points s' -> a = a') /\
  (forall p, in_bounds 3 p = true ->
     (cell (board two_destroyers) p = Ok 1 /\
      exists a s, heap two_destroyers !! a = Some s /\ p ∈ _points s) \/
     (cell (board two_destroyers) p = Ok 0 /\
      forall a s, heap two_destroyers !! a = Some s -> p ∉ _points s)).
Proof.
  apply (placements_keep_ships_apart 3).
  apply (placed_ship _ 3 (fst (try_place 2 (0, 0) DirE (new_world 3)))
           2 (2, 0) DirE); [| reflexivity | reflexivity].
  apply (placed_ship _ 3 (new_world 3) 2 (0, 0) DirE);
    [| reflexivity | reflexivity].
  apply placed_new. lia.
Defined.

(** ** When a ship is sunk and when the fleet is destroyed *)

Lemma unhit_cells_none b pts :
  (forall p, p ∈ pts -> value b p <> 1) -> unhit_cells b pts = 0.
Proof.
  induction pts as [| q rest IH]; intros H; [reflexivity |]. simpl.
  rewrite IH by (intros p Hp; apply H; now right).
  destruct (Z.eqb_spec (value b q) 1) as [H1 | _]; [| reflexivity].
  destruct (H q ltac:(left) H1).
Qed.

Lemma unhit_cells_some b pts :
  1 <= unhit_cells b pts -> exists p, p ∈ pts /\ value b p = 1.
Proof.
  induction pts as [| q rest IH]; simpl; intros H; [lia |].
  destruct (Z.eqb_spec (value b q) 1) as [H1 | _].
  - exists q. split; [left | assumption].
  - destruct IH as (p & Hp & Hv); [lia |]. exists p. split; [now right | assumption].
Qed.

(** X7: in every state of a game a ship is sunk exactly when each of its
    cells reads [2] (hit), and [ships] is empty, which ends the main loop,
    exactly when [is_hit] answers [False] on every cell of the board. *)
Theorem fleet_destroyed_when_every_cell_is_hit (n : Z) (w : World) :
  game n w ->
  (forall a s, heap w !! a = Some s ->
     (sunk s = true <-> forall p, p ∈ _points s -> cell (board w) p = Ok 2)) /\
  (ships (board w) = [] <->
   forall c, in_bounds n c = true -> is_hit (board w) c = Ok false).
Proof.
  intros Hgame. destruct (game_consistent n w Hgame) as [Hcons Hhealthy].
  destruct Hcons as [Hsize Hhealth Hcells Hlisted _ _ _ Hunhit].
  assert (Hcell : forall p, in_bounds n p = true ->
                            cell (board w) p = Ok (value (board w) p)).
  { intros p Hb. apply cell_value. now rewrite Hsize. }
  split.
  - intros a s Hs. unfold sunk. rewrite Z.eqb_eq, (Hhealth a s Hs).
    destruct (Hcells a s Hs) as [_ Hc]. split.
    + intros H0 p Hin. destruct (Hc p Hin) as [Hb Hv]. rewrite (Hcell p Hb).
      pose proof (unhit_cells_zero _ _ H0 p Hin). f_equal. lia.
    + intros Hall. apply unhit_cells_none. intros p Hin H1.
      destruct (Hc p Hin) as [Hb _]. specialize (Hall p Hin).
      rewrite (Hcell p Hb), H1 in Hall. discriminate.
  - split.
    + intros Hnil c Hb. unfold is_hit. rewrite (Hcell c Hb). cbn [obind].
      destruct (Z.eqb_spec (value (board w) c) 1) as [H1 | _]; [| reflexivity].
      destruct (Hunhit c H1) as (a & s & Hs & Hin).
      assert (Ha : a ∈ ships (board w)).
      { apply (Hlisted a s Hs). rewrite (Hhealth a s Hs).
        pose proof (unhit_cells_pos _ _ c Hin H1). lia. }
      rewrite Hnil in Ha. inversion Ha.
    + intros Hall. destruct (ships (board w)) as [| a rest] eqn:Hl; [reflexivity |].
      destruct (healthy_afloat _ Hhealthy a) as (s & Hs & Hpos); [rewrite Hl; left |].
      rewrite (Hhealth a s Hs) in Hpos.
      destruct (unhit_cells_some _ _ Hpos) as (p & Hin & H1).
      destruct (Hcells a s Hs) as [_ Hc]. destruct (Hc p Hin) as [Hb _].
      specialize (Hall p Hb). unfold is_hit in Hall.
      rewrite (Hcell p Hb), H1 in Hall. discriminate.
Qed.

Lemma fleet_destroyed_when_every_cell_is_hit_witness :
  (forall a s, heap first_destroyer_hit !! a = Some s ->
     (sunk s = true <->
      forall p, p ∈ _points s -> cell (board first_destroyer_hit) p = Ok 2)) /\
  (ships (board first_destroyer_hit) = [] <->
   forall c, in_bounds 3 c = true -> is_hit (board first_destroyer_hit) c = Ok false).
Proof.
  apply (fleet_destroyed_when_every_cell_is_hit 3).
  apply (game_fire 3 two_destroyers (0, 0) _ (Ok tt)); [| reflexivity | reflexivity].
  apply game_placed.
  apply (placed_ship _ 3 (fst (try_place 2 (0, 0) DirE (new_world 3)))
           2 (2, 0) DirE); [| reflexivity | reflexivity].
  apply (placed_ship _ 3 (new_world 3) 2 (0, 0) DirE);
    [| reflexivity | reflexivity].
  apply placed_new. lia.
Defined.

(** ** Targeting during a game *)

Lemma smallest_ship_min w :
  ships_allocated w -> ships (board w) <> [] ->
  exists s, smallest_ship (heap w) (ships (board w)) = Ok s /\
    (exists a, a ∈ ships (board w) /\ heap w !! a = Some s) /\
    forall a s', a ∈ ships (board w) -> heap w !! a = Some s' ->
                 _length s <= _length s'.
Proof.
  intros Halloc Hne. unfold smallest_ship.
  destruct (ships (board w)) as [| a rest] eqn:Hl; [congruence |].
  destruct (Halloc a) as [sa Hsa]; [rewrite Hl; left |].
  unfold deref. rewrite Hsa. cbn [obind].
  destruct (min_by_len_spec (heap w) sa rest) as (s & Hs & Hfrom & Hle & Hall).
  { intros a' Ha'. apply Halloc. rewrite Hl. now right. }
  exists s. split; [exact Hs |]. split.
  - destruct Hfrom as [-> | (a' & Ha' & Hs')].
    + exists a. split; [left | assumption].
    + exists a'. split; [now right | assumption].
  - intros a' s' [-> | Ha']%elem_of_cons Hs'; [| now apply (Hall a')].
    rewrite Hsa in Hs'. now injection Hs' as <-.
Qed.

(** A stretch of non-Miss cells of the board through [x] lies within the
    run the scans measure. *)
Lemma run_covers b (line : Z -> coord) x lo hi a z :
  lo <= x <= hi ->
  miss_or_edge b (line (lo - 1)) -> miss_or_edge b (line (hi + 1)) ->
  a <= x <= z ->
  (forall j, a <= j <= z ->
     in_bounds (_n b) (line j) = true /\ cell b (line j) <> Ok 3) ->
  lo <= a /\ z <= hi.
Proof.
  intros Hx Hlo Hhi Hxz Hcells. split.
  - destruct (Z.le_gt_cases lo a) as [| Hlt]; [assumption | exfalso].
    destruct (Hcells (lo - 1)) as [H1 H2]; [lia |].
    exact (miss_or_edge_contra _ _ Hlo H1 H2).
  - destruct (Z.le_gt_cases z hi) as [| Hlt]; [assumption | exfalso].
    destruct (Hcells (hi + 1)) as [H1 H2]; [lia |].
    exact (miss_or_edge_contra _ _ Hhi H1 H2).
Qed.

(** The cells of a ship fill a stretch of its row or of its column. *)
Lemma ship_line start d len p :
  0 < len ->
  p ∈ points_from start (direction_vectors d) 0 (Z.to_nat len) ->
  exists a z, z - a + 1 = len /\
    ((a <= snd p <= z /\
      forall j, a <= j <= z ->
        (fst p, j) ∈ points_from start (direction_vectors d) 0 (Z.to_nat len)) \/
     (a <= fst p <= z /\
      forall j, a <= j <= z ->
        (j, snd p) ∈ points_from start (direction_vectors d) 0 (Z.to_nat len))).
Proof.
  intros Hlen Hp. apply elem_of_points_from in Hp as (i & Hi & ->).
  rewrite Z2Nat.id in Hi by lia. destruct start as [r0 c0].
  destruct d; cbn [direction_vectors fst snd].
  - exists (r0 - (len - 1)), r0. split; [lia |]. right. split; [lia |].
    intros j Hj. apply elem_of_points_from. exists (r0 - j).
    rewrite Z2Nat.id by lia. split; [lia |]. cbn [fst snd]. f_equal; lia.
  - exists c0, (c0 + (len - 1)). split; [lia |]. left. split; [lia |].
    intros j Hj. apply elem_of_points_from. exists (j - c0).
    rewrite Z2Nat.id by lia. split; [lia |]. cbn [fst snd]. f_equal; lia.
  - exists r0, (r0 + (len - 1)). split; [lia |]. right. split; [lia |].
    intros j Hj. apply elem_of_points_from. exists (j - r0).
    rewrite Z2Nat.id by lia. split; [lia |]. cbn [fst snd]. f_equal; lia.
  - exists (c0 - (len - 1)), c0. split; [lia |]. left. split; [lia |].
    intros j Hj. apply elem_of_points_from. exists (c0 - j).
    rewrite Z2Nat.id by lia. split; [lia |]. cbn [fst snd]. f_equal; lia.
Qed.

(** The feasibility check on a cell of the board, with the runs it measures. *)
Lemma can_contain_ship_on_board w row col :
  cells_valid (board w) -> ships_allocated w -> ships (board w) <> [] ->
  in_bounds (_n (board w)) (row, col) = true ->
  exists s lo hi lo' hi',
    (exists a, a ∈ ships (board w) /\ heap w !! a = Some s) /\
    (forall a s', a ∈ ships (board w) -> heap w !! a = Some s' ->
                  _length s <= _length s') /\
    lo <= col <= hi /\
    (forall j, lo <= j <= hi -> j <> col ->
       in_bounds (_n (board w)) (row, j) = true /\ cell (board w) (row, j) <> Ok 3) /\
    miss_or_edge (board w) (row, lo - 1) /\ miss_or_edge (board w) (row, hi + 1) /\
    lo' <= row <= hi' /\
    (forall j, lo' <= j <= hi' -> j <> row ->
       in_bounds (_n (board w)) (j, col) = true /\ cell (board w) (j, col) <> Ok 3) /\
    miss_or_edge (board w) (lo' - 1, col) /\ miss_or_edge (board w) (hi' + 1, col) /\
    can_contain_ship w (row, col) =
      Ok ((value (board w) (row, col) <? 2) &&
          (_length s <=? Z.max (1 + (hi - lo)) (1 + (hi' - lo')))).
Proof.
  intros Hvalid Halloc Hne Hc.
  pose proof Hc as [Hrow Hcol]%andb_true_iff. simpl in Hrow, Hcol.
  destruct (scans_return w row col Hc) as (x1 & x2 & y1 & y2 & H1 & H2 & H3 & H4).
  destruct (smallest_ship_min w Halloc Hne) as (s & Hs & Hlisted & Hmin).
  destruct (two_scans_measure (board w) (fun j => (row, j)) col
              (scan_fuel (board w)) 1 x1 x2 Hvalid)
    as (lo & hi & Hx2 & Hlohi & Hrun & Hlo & Hhi); try assumption.
  { intros j Hj. unfold in_bounds. simpl. now rewrite Hrow, Hj. }
  { intros j Hj. unfold in_bounds. simpl. now rewrite Hj, andb_false_r. }
  destruct (two_scans_measure (board w) (fun j => (j, col)) row
              (scan_fuel (board w)) 1 y1 y2 Hvalid)
    as (lo' & hi' & Hy2 & Hlohi' & Hrun' & Hlo' & Hhi'); try assumption.
  { intros j Hj. unfold in_bounds. simpl. now rewrite Hcol, Hj. }
  { intros j Hj. unfold in_bounds. simpl. now rewrite Hj. }
  exists s, lo, hi, lo', hi'. repeat (split; [assumption |]).
  unfold can_contain_ship.
  rewrite H1; cbn [obind]. rewrite H2; cbn [obind].
  rewrite H3; cbn [obind]. rewrite H4; cbn [obind].
  rewrite Hs; cbn [obind]. rewrite (cell_value _ _ Hc); cbn [obind].
  now rewrite Hx2, Hy2.
Qed.

Lemma healthy_ships_allocated w : healthy w -> ships_allocated w.
Proof.
  intros Hw a Ha. destruct (healthy_afloat _ Hw a Ha) as (s & Hs & _). now exists s.
Qed.

(** In a game, a cell of a ship that has not been hit passes the check. *)
Lemma game_unhit_cell_feasible n w p :
  game n w -> in_bounds n p = true -> value (board w) p = 1 ->
  can_contain_ship w p = Ok true.
Proof.
  intros Hgame Hb H1. destruct (game_consistent n w Hgame) as [Hcons Hhealthy].
  pose proof (game_cells_valid n w Hgame) as Hvalid.
  pose proof (game_well_built n w Hgame) as Hbuilt.
  destruct Hcons as [Hsize Hhealth Hcells Hlisted _ _ _ Hunhit].
  destruct (Hunhit p H1) as (a0 & s0 & Hs0 & Hin0).
  assert (Ha0 : a0 ∈ ships (board w)).
  { apply (Hlisted a0 s0 Hs0). rewrite (Hhealth a0 s0 Hs0).
    pose proof (unhit_cells_pos _ _ p Hin0 H1). lia. }
  destruct p as [row col]. rewrite <- Hsize in Hb.
  destruct (can_contain_ship_on_board w row col Hvalid
              (healthy_ships_allocated _ Hhealthy))
    as (s & lo & hi & lo' & hi' & _ & Hmin & Hx & _ & Hlo & Hhi
        & Hy & _ & Hlo' & Hhi' & ->);
    [intros Hnil; rewrite Hnil in Ha0; inversion Ha0 | assumption |].
  rewrite H1. specialize (Hmin a0 s0 Ha0 Hs0).
  destruct (Hbuilt a0 s0 Hs0) as (Hlen & start & d & Hpts).
  destruct (Hcells a0 s0 Hs0) as [_ Hc0].
  assert (Hnonmiss : forall q, q ∈ _points s0 ->
            in_bounds (_n (board w)) q = true /\ cell (board w) q <> Ok 3).
  { intros q Hq. destruct (Hc0 q Hq) as [Hqb Hqv]. rewrite Hsize.
    split; [assumption |]. rewrite cell_value by now rewrite Hsize.
    intros [= E]. lia. }
  rewrite Hpts in Hin0.
  destruct (ship_line start d (_length s0) (row, col) ltac:(lia) Hin0)
    as (a & z & Hsize' & [[Hspan Hfill] | [Hspan Hfill]]); cbn [fst snd] in *.
  - destruct (run_covers (board w) (fun j => (row, j)) col lo hi a z)
      as [Ha Hz]; try assumption.
    { intros j Hj. apply Hnonmiss. rewrite Hpts. now apply Hfill. }
    f_equal. apply andb_true_iff. split; [reflexivity |]. apply Z.leb_le. lia.
  - destruct (run_covers (board w) (fun j => (j, col)) row lo' hi' a z)
      as [Ha Hz]; try assumption.
    { intros j Hj. apply Hnonmiss. rewrite Hpts. now apply Hfill. }
    f_equal. apply andb_true_iff. split; [reflexivity |]. apply Z.leb_le. lia.
Qed.

(** X8: in every state of a game, [can_contain_ship] answers [True] on
    every ship cell that has not been hit yet: the filter of the targeting
    never rules out a cell that holds a ship. *)
Theorem feasibility_filter_keeps_ship_cells (n : Z) (w : World) (p : coord) :
  game n w -> in_bounds n p = true -> is_hit (board w) p = Ok true ->
  can_contain_ship w p = Ok true.
Proof.
  intros Hgame Hb Hhit. apply (game_unhit_cell_feasible n); [assumption .. |].
  destruct (game_consistent n w Hgame) as [[Hsize _ _ _ _ _ _ _] _].
  unfold is_hit in Hhit. rewrite cell_value in Hhit by now rewrite Hsize.
  cbn [obind] in Hhit. injection Hhit as Hhit. now apply Z.eqb_eq.
Qed.

Lemma feasibility_filter_keeps_ship_cells_witness :
  can_contain_ship first_destroyer_hit (0, 1) = Ok true.
Proof.
  apply (feasibility_filter_keeps_ship_cells 3); [| reflexivity | reflexivity].
  apply (game_fire 3 two_destroyers (0, 0) _ (Ok tt)); [| reflexivity | reflexivity].
  apply game_placed.
  apply (placed_ship _ 3 (fst (try_place 2 (0, 0) DirE (new_world 3)))
           2 (2, 0) DirE); [| reflexivity | reflexivity].
  apply (placed_ship _ 3 (new_world 3) 2 (0, 0) DirE);
    [| reflexivity | reflexivity].
  apply placed_new. lia.
Defined.

Lemma filter_ok_total {A} (f : A -> outcome bool) l :
  (forall x, x ∈ l -> exists keep, f x = Ok keep) ->
  exists r, filter_ok f l = Ok r.
Proof.
  induction l as [| x l IH]; intros H; simpl; [now exists [] |].
  destruct (H x) as [keep ->]; [left |].
  destruct IH as [r ->]; [intros y Hy; apply H; now right |].
  simpl. destruct keep; eauto.
Qed.

Lemma elem_of_all_coordinates n p :
  p ∈ all_coordinates n <-> in_bounds n p = true.
Proof.
  unfold all_coordinates. rewrite list_elem_of_In, in_flat_map, in_bounds_spec.
  split.
  - intros (row & Hrow & Hp). apply in_map_iff in Hp as (col & <- & Hcol).
    apply list_elem_of_In, elem_of_seqZ in Hrow.
    apply list_elem_of_In, elem_of_seqZ in Hcol. simpl. lia.
  - intros [Hr Hc]. exists (fst p). split.
    + apply list_elem_of_In, elem_of_seqZ. lia.
    + apply in_map_iff. exists (snd p). split; [now destruct p |].
      apply list_elem_of_In, elem_of_seqZ. lia.
Qed.

Lemma value_range b p : cells_valid b -> 0 <= value b p <= 3.
Proof.
  intros Hvalid. unfold value. destruct (_board b !! p) as [v |] eqn:Hv; simpl.
  - exact (Hvalid _ _ Hv).
  - lia.
Qed.

(** In a game the recorded hits are cells of the board. *)
Lemma game_hits_on_board n w p :
  game n w -> p ∈ _previous_hits (board w) -> in_bounds n p = true.
Proof.
  intros Hgame Hp. destruct (game_consistent n w Hgame) as [Hcons _].
  apply (cons_hits _ _ Hcons) in Hp as (_ & a & s & _ & Hs & Hin).
  destruct (cons_cells _ _ Hcons a s Hs) as [_ Hc]. now destruct (Hc p Hin).
Qed.

(** In a game with a ship left the feasibility check returns on every cell
    of the board, and it answers [True] only where no shot has landed. *)
Lemma game_can_contain_returns n w p :
  game n w -> ships (board w) <> [] -> in_bounds n p = true ->
  exists keep, can_contain_ship w p = Ok keep /\
               (keep = true -> value (board w) p < 2).
Proof.
  intros Hgame Hne Hp. destruct (game_consistent n w Hgame) as [Hcons Hhealthy].
  destruct p as [row col]. rewrite <- (cons_size _ _ Hcons) in Hp.
  destruct (can_contain_ship_on_board w row col (game_cells_valid n w Hgame)
              (healthy_ships_allocated _ Hhealthy) Hne Hp)
    as (s & lo & hi & lo' & hi' & _ & _ & _ & _ & _ & _ & _ & _ & _ & _ & ->).
  eexists. split; [reflexivity |].
  intros [H _]%andb_true_iff. now apply Z.ltb_lt.
Qed.

Lemma game_filter_returns n w l :
  game n w -> ships (board w) <> [] ->
  (forall x, x ∈ l -> in_bounds n x = true) ->
  exists r, filter_ok (can_contain_ship w) l = Ok r.
Proof.
  intros Hgame Hne Hl. apply filter_ok_total. intros x Hx.
  destruct (game_can_contain_returns n w x Hgame Hne (Hl x Hx)) as (keep & Hk & _).
  now exists keep.
Qed.

(** The candidates of the first two stages are cells of the board, each
    next to a recorded hit. *)
Lemma game_line_candidates n w x :
  game n w ->
  x ∈ flat_map (line_neighbours (board w))
        (adjacent_coordinates_in (_previous_hits (board w))) ->
  in_bounds n x = true /\
  exists h, h ∈ _previous_hits (board w) /\ next_to h x.
Proof.
  intros Hgame Hx. destruct (game_consistent n w Hgame) as [Hcons _].
  pose proof (cons_size _ _ Hcons) as Hsize.
  apply list_elem_of_In, in_flat_map in Hx as ([c1 c2] & Hpair & Hx).
  apply list_elem_of_In, elem_of_adjacent_coordinates_in in Hpair
    as (H1 & H2 & _).
  pose proof (game_hits_on_board n w c1 Hgame H1) as B1%in_bounds_spec.
  pose proof (game_hits_on_board n w c2 Hgame H2) as B2%in_bounds_spec.
  apply list_elem_of_In, elem_of_line_neighbours in Hx.
  unfold extends_line in Hx. rewrite Hsize in Hx. unfold next_to.
  destruct Hx as [[_ (e & [-> | ->] & Hs & Ha & Hr%in_range_spec)]
                 | [_ (e & [-> | ->] & Hs & Ha & Hr%in_range_spec)]];
    (split; [apply in_bounds_spec; lia |]);
    [exists c1 | exists c2 | exists c1 | exists c2]; (split; [assumption | lia]).
Qed.

Lemma game_near_candidates n w x :
  game n w ->
  x ∈ flat_map (all_neighbours (board w)) (_previous_hits (board w)) ->
  in_bounds n x = true /\
  exists h, h ∈ _previous_hits (board w) /\ next_to h x.
Proof.
  intros Hgame Hx. destruct (game_consistent n w Hgame) as [Hcons _].
  pose proof (cons_size _ _ Hcons) as Hsize.
  apply list_elem_of_In, in_flat_map in Hx as (c & Hc & Hx).
  apply list_elem_of_In in Hc. pose proof (game_hits_on_board n w c Hgame Hc) as Hb.
  apply list_elem_of_In, elem_of_all_neighbours in Hx; rewrite Hsize in *;
    [| assumption].
  split; [tauto |]. exists c. tauto.
Qed.

(** X9: in every state of a game with a ship left, [generate_targets]
    returns a list that is not empty, and every coordinate in it is a cell
    of the board that has not been fired at and that passes
    [can_contain_ship]. *)
Theorem generate_targets_proposes_open_cells (n : Z) (w : World) :
  game n w -> ships (board w) <> [] ->
  exists targets, generate_targets w = Ok targets /\ targets <> [] /\
    forall p, p ∈ targets ->
      in_bounds n p = true /\
      (cell (board w) p = Ok 0 \/ cell (board w) p = Ok 1) /\
      can_contain_ship w p = Ok true.
Proof.
  intros Hgame Hne. destruct (game_consistent n w Hgame) as [Hcons Hhealthy].
  pose proof (game_cells_valid n w Hgame) as Hvalid.
  pose proof (cons_size _ _ Hcons) as Hsize.
  pose proof (fun p => game_can_contain_returns n w p Hgame Hne) as Hcan.
  assert (Hopen : forall l r, filter_ok (can_contain_ship w) l = Ok r ->
            (forall x, x ∈ l -> in_bounds n x = true) ->
            forall p, p ∈ r ->
              in_bounds n p = true /\
              (cell (board w) p = Ok 0 \/ cell (board w) p = Ok 1) /\
              can_contain_ship w p = Ok true).
  { intros l r Hr Hl p Hp. apply (filter_ok_elem _ _ _ Hr) in Hp as [Hin Htrue].
    pose proof (Hl p Hin) as Hb. split; [assumption |]. split; [| assumption].
    destruct (Hcan p Hb) as (keep & Hk & Hlt). rewrite Hk in Htrue.
    injection Htrue as ->. specialize (Hlt eq_refl).
    rewrite cell_value by now rewrite Hsize.
    pose proof (value_range (board w) p Hvalid).
    assert (value (board w) p = 0 \/ value (board w) p = 1) as [-> | ->] by lia;
      auto. }
  pose proof (fun l => game_filter_returns n w l Hgame Hne) as Htotal.
  pose proof (fun x Hx => proj1 (game_line_candidates n w x Hgame Hx)) as Hline.
  pose proof (fun x Hx => proj1 (game_near_candidates n w x Hgame Hx)) as Hnear.
  assert (Hall : forall x, x ∈ all_coordinates (_n (board w)) ->
            in_bounds n x = true).
  { intros x Hx. apply elem_of_all_coordinates in Hx. now rewrite <- Hsize. }
  destruct (Htotal _ Hline) as [r1 Hr1].
  destruct (Htotal _ Hnear) as [r2 Hr2].
  destruct (Htotal _ Hall) as [r3 Hr3].
  assert (Hr3ne : r3 <> []).
  { destruct (ships (board w)) as [| a rest] eqn:Hships; [congruence |].
    destruct (healthy_afloat _ Hhealthy a) as (s & Hs & Hpos);
      [rewrite Hships; left |].
    rewrite (cons_health _ _ Hcons a s Hs) in Hpos.
    destruct (unhit_cells_some _ _ Hpos) as (p0 & Hp0 & Hv0).
    destruct (cons_cells _ _ Hcons a s Hs) as [_ Hc].
    destruct (Hc p0 Hp0) as [Hb0 _].
    assert (Hin : p0 ∈ r3).
    { apply (filter_ok_elem _ _ _ Hr3). split.
      - apply elem_of_all_coordinates. now rewrite Hsize.
      - exact (game_unhit_cell_feasible n w p0 Hgame Hb0 Hv0). }
    intros ->. inversion Hin. }
  rewrite generate_targets_tiers.
  unfold line_inference_pool, hit_adjacency_pool, full_scan_pool.
  rewrite Hr1. cbn [obind].
  destruct r1 as [| x1 r1]; cbn [is_nil].
  - rewrite Hr2. cbn [obind]. destruct r2 as [| x2 r2]; cbn [is_nil].
    + exists r3. split; [assumption |]. split; [assumption |].
      exact (Hopen _ _ Hr3 Hall).
    + exists (x2 :: r2). split; [reflexivity |]. split; [discriminate |].
      exact (Hopen _ _ Hr2 Hnear).
  - exists (x1 :: r1). split; [reflexivity |]. split; [discriminate |].
    exact (Hopen _ _ Hr1 Hline).
Qed.

Lemma generate_targets_proposes_open_cells_witness :
  exists targets, generate_targets first_destroyer_hit = Ok targets /\
    targets <> [] /\
    forall p, p ∈ targets ->
      in_bounds 3 p = true /\
      (cell (board first_destroyer_hit) p = Ok 0 \/
       cell (board first_destroyer_hit) p = Ok 1) /\
      can_contain_ship first_destroyer_hit p = Ok true.
Proof.
  apply (generate_targets_proposes_open_cells 3); [| vm_compute; discriminate].
  apply (game_fire 3 two_destroyers (0, 0) _ (Ok tt)); [| reflexivity | reflexivity].
  apply game_placed.
  apply (placed_ship _ 3 (fst (try_place 2 (0, 0) DirE (new_world 3)))
           2 (2, 0) DirE); [| reflexivity | reflexivity].
  apply (placed_ship _ 3 (new_world 3) 2 (0, 0) DirE);
    [| reflexivity | reflexivity].
  apply placed_new. lia.
Defined.

(** ** A turn that hits *)

Lemma remove_points_stdout pts w w' r :
  remove_points pts w = (w', r) -> stdout w' = stdout w.
Proof.
  revert w. induction pts as [| q rest IH]; intros w; simpl.
  - unfold ret. now intros [= <- _].
  - unfold bind. destruct (remove_first q (_previous_hits (board w))) as [l |].
    + unfold set_board. cbn [fst snd]. intros Hrun. now apply IH in Hrun.
    + now intros [= <- _].
Qed.

(** The loop over the ships when exactly the ship [s0] contains the target:
    what it leaves and what it prints. *)
Lemma ships_loop_hit_prints fuel i w t k a0 s0 :
  target_coordinate w = Some t ->
  NoDup (ships (board w)) ->
  ships (board w) !! k = Some a0 -> heap w !! a0 = Some s0 ->
  ship_contains t s0 = true ->
  (forall a, a ∈ ships (board w) -> a <> a0 ->
     exists s, heap w !! a = Some s /\ ship_contains t s = false) ->
  NoDup (_previous_hits (board w)) -> NoDup (_points s0) ->
  (sunk (damage s0) = true ->
   forall p, p ∈ _points s0 -> p ∈ _previous_hits (board w)) ->
  (i <= k)%nat -> (length (ships (board w)) - i < fuel)%nat ->
  exists w', ships_loop fuel i w = (w', Ok tt) /\ hit_result a0 s0 w w' /\
    stdout w' = stdout w ++
      (if sunk (damage s0) then [(variety s0 ++ " sunk!")%string] else []).
Proof.
  intros Ht Hnd Hk Hs0 Hc Hothers Hhits Hpts Hall. revert i.
  induction fuel as [| fuel IH]; intros i Hi Hfuel; [lia |].
  pose proof (lookup_lt_Some _ _ _ Hk) as Hklt.
  pose proof (lookup_lt_Some _ _ _ Hs0) as Ha0lt.
  simpl. destruct (decide (i = k)) as [-> | Hne].
  - rewrite Hk. unfold bind at 1.
    unfold shot_body, bind, read_target, lift, deref. rewrite Ht, Hs0, Hc.
    unfold store. destruct (sunk (damage s0)) eqn:Hsunk.
    + unfold print, remove_ship. cbn [heap board target_coordinate stdout].
      destruct (remove_first_present a0 (ships (board w))) as [l' Hl'];
        [apply list_elem_of_lookup; now exists k |].
      rewrite Hl'. unfold set_board. cbn [heap board target_coordinate stdout].
      destruct (remove_first_spec _ _ _ Hl' Hnd) as [Hnd' Hin'].
      pose proof (remove_first_length _ _ _ Hl') as Hlen.
      match goal with
      | |- context [remove_points _ ?w2] =>
          pose proof (remove_points_stdout (_points s0) w2) as Hout;
          destruct (remove_points_present (_points s0) w2 Hpts)
            as (w3 & Hrun & Hh3 & Hsh3 & Hn3 & Hb3 & Ht3 & Hnd3 & Hin3)
      end; cbn [heap board ships _n _board _previous_hits with_ships
                target_coordinate stdout] in *; [assumption | now apply Hall |].
      rewrite Hrun. specialize (Hout _ _ Hrun). exists w3. split; [| split].
      * apply (ships_loop_idle _ _ _ t); [congruence | | rewrite Hsh3; lia].
        intros j a _ Ha. rewrite Hsh3 in Ha.
        assert (Hal : a ∈ l') by (apply list_elem_of_lookup; now exists j).
        apply Hin' in Hal as [Hal Hne]. destruct (Hothers a Hal Hne) as (s & Hs & Hcs).
        exists s. rewrite Hh3, list_lookup_insert_ne by congruence. now split.
      * unfold hit_result. rewrite Hsunk.
        split; [assumption |]. split; [assumption |]. split; [assumption |].
        split; split; [now rewrite Hsh3 | | assumption | exact Hin3].
        intros a. rewrite Hsh3. apply Hin'.
      * exact Hout.
    + unfold ret. cbn [heap board target_coordinate stdout].
      eexists. split; [| split].
      * apply (ships_loop_idle _ _ _ t); [exact Ht | | simpl; lia].
        cbn [heap board]. intros j a Hj Ha.
        assert (Hne : a <> a0).
        { intros ->. pose proof (NoDup_lookup _ _ _ _ Hnd Ha Hk). lia. }
        destruct (Hothers a) as (s & Hs & Hcs);
          [apply list_elem_of_lookup; now exists j | assumption |].
        exists s. rewrite list_lookup_insert_ne by congruence. now split.
      * unfold hit_result. rewrite Hsunk. now repeat split.
      * cbn [stdout]. now rewrite app_nil_r.
  - destruct (ships (board w) !! i) as [a |] eqn:Ha;
      [| apply lookup_ge_None in Ha; lia].
    assert (Hne' : a <> a0).
    { intros ->. pose proof (NoDup_lookup _ _ _ _ Hnd Ha Hk). lia. }
    destruct (Hothers a) as (s & Hs & Hcs);
      [apply list_elem_of_lookup; now exists i | assumption |].
    unfold bind. rewrite (shot_body_idle a w t s Ht Hs Hcs).
    apply IH; lia.
Qed.

(** A shot at an unhit ship cell of a consistent board, with the global
    name bound to the target. *)
Lemma apply_shot_hit_effect n w c :
  consistent n w -> healthy w -> in_bounds n c = true ->
  target_coordinate w = Some c -> value (board w) c = 1 ->
  exists a0 s0 w1,
    a0 ∈ ships (board w) /\ heap w !! a0 = Some s0 /\ c ∈ _points s0 /\
    apply_shot c w = (w1, Ok tt) /\
    hit_result a0 s0 (hit_marked c w) w1 /\
    stdout w1 = (stdout w ++ ["Hit!"%string]) ++
      (if sunk (damage s0) then [(variety s0 ++ " sunk!")%string] else []).
Proof.
  intros Hcons Hw Hc Ht Hv.
  destruct Hcons as [Hsize Hhealth Hcells Hlisted Hdisj Hhnd Hhits Hunhit].
  rewrite <- Hsize in Hc.
  rewrite apply_shot_hit by assumption.
  destruct (Hunhit c Hv) as (a0 & s0 & Hs0 & Hc0).
  destruct (Hcells a0 s0 Hs0) as [Hnd0 Hin0].
  assert (Hpos : 1 <= condition s0).
  { rewrite (Hhealth a0 s0 Hs0). now apply (unhit_cells_pos _ _ c). }
  assert (Ha0 : a0 ∈ ships (board w)) by (apply (Hlisted a0 s0 Hs0); lia).
  destruct (proj1 (list_elem_of_lookup _ _) Ha0) as [k Hk].
  assert (Hcfresh : c ∉ _previous_hits (board w)).
  { intros [H2 _]%Hhits. lia. }
  assert (Hhnd1 : NoDup (_previous_hits (board w) ++ [c])).
  { apply NoDup_app. split; [assumption |]. split; [| apply NoDup_singleton].
    intros x Hx ->%list_elem_of_singleton. contradiction. }
  assert (Hcount : unhit_cells (board (hit_marked c w)) (_points s0)
                   = condition s0 - 1).
  { rewrite (Hhealth a0 s0 Hs0).
    apply (unhit_cells_hit _ _ _ c); try assumption.
    - rewrite value_hit_marked. destruct (decide (c = c)); [lia | congruence].
    - intros p Hne. rewrite value_hit_marked. now destruct (decide (p = c)). }
  destruct (ships_loop_hit_prints (S (length (ships (board w)))) 0 (hit_marked c w)
              c k a0 s0) as (w1 & Hloop & Hres & Hout);
    try assumption; try (exact Ht); try (exact (healthy_nodup _ Hw));
    try (cbn [hit_marked board ships]; lia).
  { unfold ship_contains. now apply bool_decide_eq_true. }
  { intros a Ha Hne. destruct (healthy_afloat _ Hw a Ha) as (s & Hs & _).
    exists s. split; [exact Hs |]. apply bool_decide_eq_false. intros Hin.
    apply Hne. exact (Hdisj a a0 s s0 c Hs Hs0 Hin Hc0). }
  { intros Hsunk p Hp. cbn [hit_marked board _previous_hits].
    apply elem_of_app. destruct (decide (p = c)) as [-> | Hne]; [right; left |].
    left. apply Hhits. split; [| now exists a0, s0].
    unfold sunk in Hsunk. apply Z.eqb_eq in Hsunk. simpl in Hsunk.
    assert (H0 : unhit_cells (board (hit_marked c w)) (_points s0) = 0) by lia.
    pose proof (unhit_cells_zero _ _ H0 p Hp) as Hp1.
    rewrite value_hit_marked in Hp1. destruct (decide (p = c)); [congruence |].
    destruct (Hin0 p Hp) as [_ [H1 | H2]]; [contradiction | assumption]. }
  exists a0, s0, w1. repeat (split; [assumption |]). exact Hout.
Qed.

(** X10: in a game, a turn on a cell for which [is_hit] answers [True]
    returns; exactly one ship of the list holds the cell and it loses one
    point of health, no other ship object changes; the cell becomes a
    Hit cell and no other cell changes; [Hit!] is printed, followed by the
    sunk line exactly when the ship has no health left, and it is then
    that the ship leaves the list. *)
Theorem hit_damages_the_ship_on_the_cell (n : Z) (w w' : World) (c : coord)
    (r : outcome unit) :
  game n w -> in_bounds n c = true -> is_hit (board w) c = Ok true ->
  fire c w = (w', r) ->
  r = Ok tt /\
  exists a0 s0,
    a0 ∈ ships (board w) /\ heap w !! a0 = Some s0 /\ c ∈ _points s0 /\
    (forall a s, heap w !! a = Some s -> c ∈ _points s -> a = a0) /\
    heap w' = <[a0 := damage s0]> (heap w) /\
    _board (board w') = <[c := 2]> (_board (board w)) /\
    (if sunk (damage s0)
     then stdout w' = stdout w ++ ["Hit!"; variety s0 ++ " sunk!"]%string /\
          forall a, a ∈ ships (board w') <-> a ∈ ships (board w) /\ a <> a0
     else stdout w' = stdout w ++ ["Hit!"%string] /\
          ships (board w') = ships (board w)).
Proof.
  intros Hgame Hc Hhit Hfire. destruct (game_consistent n w Hgame) as [Hcons Hh].
  pose proof (cons_size _ _ Hcons) as Hsize.
  assert (Hv : value (board w) c = 1).
  { unfold is_hit in Hhit. rewrite cell_value in Hhit by now rewrite Hsize.
    cbn [obind] in Hhit. injection Hhit as Hhit. now apply Z.eqb_eq. }
  rewrite fire_as_shot in Hfire.
  assert (Hc0 : consistent n (with_target w (Some c))) by (destruct Hcons; now split).
  assert (Hh0 : healthy (with_target w (Some c))) by (destruct Hh; now split).
  destruct (apply_shot_hit_effect n (with_target w (Some c)) c Hc0 Hh0 Hc eq_refl Hv)
    as (a0 & s0 & w1 & Ha0 & Hs0 & Hin & Hrun & Hres & Hout).
  rewrite Hrun in Hfire. injection Hfire as <- <-. split; [reflexivity |].
  exists a0, s0.
  cbn [with_target heap board ships stdout] in Ha0, Hs0, Hout.
  destruct Hres as (Hheap & _ & Hgrid & Hlist).
  cbn [hit_marked with_target heap board _board ships] in Hheap, Hgrid, Hlist.
  split; [assumption |]. split; [assumption |]. split; [assumption |].
  split.
  { intros a s Hs Hp. exact (cons_disjoint _ _ Hcons a a0 s s0 c Hs Hs0 Hp Hin). }
  split; [assumption |]. split; [assumption |].
  destruct (sunk (damage s0)).
  - split; [now rewrite Hout, <- app_assoc | apply Hlist].
  - split; [now rewrite Hout, app_nil_r | apply Hlist].
Qed.

Lemma hit_damages_the_ship_on_the_cell_witness :
  Ok tt = Ok tt /\
  exists a0 s0,
    a0 ∈ ships (board two_destroyers) /\
    heap two_destroyers !! a0 = Some s0 /\ (0, 0) ∈ _points s0 /\
    (forall a s, heap two_destroyers !! a = Some s -> (0, 0) ∈ _points s -> a = a0) /\
    heap first_destroyer_hit = <[a0 := damage s0]> (heap two_destroyers) /\
    _board (board first_destroyer_hit)
      = <[(0, 0) := 2]> (_board (board two_destroyers)) /\
    (if sunk (damage s0)
     then stdout first_destroyer_hit
            = stdout two_destroyers ++ ["Hit!"; variety s0 ++ " sunk!"]%string /\
          forall a, a ∈ ships (board first_destroyer_hit) <->
                    a ∈ ships (board two_destroyers) /\ a <> a0
     else stdout first_destroyer_hit = stdout two_destroyers ++ ["Hit!"%string] /\
          ships (board first_destroyer_hit) = ships (board two_destroyers)).
Proof.
  apply (hit_damages_the_ship_on_the_cell 3 two_destroyers first_destroyer_hit
           (0, 0) (Ok tt)); [| reflexivity | reflexivity | reflexivity].
  apply game_placed.
  apply (placed_ship _ 3 (fst (try_place 2 (0, 0) DirE (new_world 3)))
           2 (2, 0) DirE); [| reflexivity | reflexivity].
  apply (placed_ship _ 3 (new_world 3) 2 (0, 0) DirE);
    [| reflexivity | reflexivity].
  apply placed_new. lia.
Defined.

(** ** What the random placement leaves *)

Lemma placed_size P n w : placed P n w -> _n (board w) = n.
Proof.
  induction 1 as [| w length start d w' _ IH _ Hplace]; [reflexivity |].
  now rewrite (try_place_same_size _ _ _ _ _ Hplace).
Qed.

(** When the loop for one ship returns, its last attempt placed the ship
    from a start on the board and the earlier ones changed nothing. *)
Lemma place_randomly_placed fuel rng k ship_length w w' k' :
  place_randomly fuel rng k ship_length w = (w', Ok k') ->
  (k < k')%nat /\
  exists start d, in_bounds (_n (board w)) start = true /\
                  try_place ship_length start d w = (w', Ok true).
Proof.
  revert k. induction fuel as [| fuel IH]; intros k; [discriminate |].
  destruct (Z.leb_spec (_n (board w)) 0) as [Hn | Hn].
  - cbn [place_randomly]. unfold bind at 1, lift, randint_below.
    destruct (Z.leb_spec (_n (board w)) 0); [discriminate | lia].
  - rewrite place_randomly_step by assumption. cbv zeta. unfold bind.
    destruct (try_place ship_length _ _ w) as [w1 [[|] | e | |]] eqn:Htry;
      try discriminate.
    + unfold ret. intros [= <- <-]. split; [lia |].
      exists (fst (draw rng (_n (board w)) k)), (snd (draw rng (_n (board w)) k)).
      split; [now apply draw_in_bounds | exact Htry].
    + apply try_place_turned_down in Htry as ->. intros Hrun.
      destruct (IH _ Hrun) as [Hk Hrest]. split; [lia | exact Hrest].
Qed.

(** X11: when [initialise_ships_randomly] returns on a board that holds
    placed ships only, the board is again such a board: every start was
    drawn on the board and every placement was checked; the ship objects it
    added have the requested lengths, in the order of the request, at full
    health, and they are listed in that order after the ships that were
    there. *)
Theorem random_placement_places_the_request (n : Z) (fuel : nat)
    (rng : nat -> Z) (k k' : nat) (ship_lengths : list Z) (w w' : World) :
  placed (fun c => in_bounds n c = true) n w ->
  initialise_ships_randomly fuel rng k ship_lengths w = (w', Ok k') ->
  placed (fun c => in_bounds n c = true) n w' /\
  exists fleet,
    heap w' = heap w ++ fleet /\
    map _length fleet = ship_lengths /\
    map condition fleet = ship_lengths /\
    ships (board w') = ships (board w) ++
                       seq (length (heap w)) (length ship_lengths).
Proof.
  revert k w. induction ship_lengths as [| l rest IH]; intros k w Hplaced; simpl.
  - unfold ret. intros [= <- _]. split; [assumption |].
    exists []. now rewrite !app_nil_r.
  - unfold bind.
    destruct (place_randomly fuel rng k l w) as [w1 [k1 | e | |]] eqn:Hone;
      try discriminate.
    intros Hrest.
    destruct (place_randomly_placed _ _ _ _ _ _ _ Hone)
      as (_ & start & d & Hstart & Htry).
    rewrite (placed_size _ _ _ Hplaced) in Hstart.
    assert (Hplaced1 : placed (fun c => in_bounds n c = true) n w1)
      by exact (placed_ship _ n w l start d w1 Hplaced Hstart Htry).
    destruct (IH _ _ Hplaced1 Hrest) as (Hplaced' & fleet & Hheap & Hlen & Hcond & Hships).
    split; [assumption |].
    apply try_place_fleet in Htry as (s & Hinit & _ & Hh1 & Hs1).
    apply Ship_init_ok in Hinit as (_ & Hl & Hc & _).
    exists (s :: fleet). rewrite Hheap, Hships, Hh1, Hs1, <- !app_assoc, length_app.
    cbn [app map Datatypes.length seq]. rewrite Hlen, Hcond, Hl, Hc, Nat.add_1_r.
    auto.
Qed.

Lemma random_placement_places_the_request_witness :
  placed (fun c => in_bounds 3 c = true) 3
    (fst (initialise_ships_randomly 2 (fun _ => 1) 0 [2] (new_world 3))) /\
  exists fleet,
    heap (fst (initialise_ships_randomly 2 (fun _ => 1) 0 [2] (new_world 3)))
      = heap (new_world 3) ++ fleet /\
    map _length fleet = [2] /\
    map condition fleet = [2] /\
    ships (board (fst (initialise_ships_randomly 2 (fun _ => 1) 0 [2] (new_world 3))))
      = ships (board (new_world 3)) ++
        seq (length (heap (new_world 3))) (length [2]).
Proof.
  apply (random_placement_places_the_request 3 2 (fun _ => 1) 0 3 [2] (new_world 3));
    [| reflexivity].
  apply placed_new. lia.
Defined.

(** ** Indices that numpy wraps around *)

(** X12: [apply_shot] accepts a negative index that numpy wraps around.
    In a game, a shot at such an index that reads an unhit ship cell prints
    [Hit!], marks the cell it reads as hit and records the index as given;
    the loop over the ships compares that index with the ships' own cells and
    finds none: no ship is damaged.  The ship on the cell is left with one
    more point of health than it has unhit cells. *)
Theorem wrapped_shot_damages_no_ship (n : Z) (w w' : World) (c k : coord)
    (r : outcome unit) :
  game n w -> in_bounds n c = false -> norm_coord n c = Some k ->
  is_hit (board w) c = Ok true -> fire c w = (w', r) ->
  r = Ok tt /\
  heap w' = heap w /\ ships (board w') = ships (board w) /\
  _board (board w') = <[k := 2]> (_board (board w)) /\
  _previous_hits (board w') = _previous_hits (board w) ++ [c] /\
  stdout w' = stdout w ++ ["Hit!"%string] /\
  exists a s, a ∈ ships (board w') /\ heap w' !! a = Some s /\ k ∈ _points s /\
              unhit_cells (board w') (_points s) = condition s - 1.
Proof.
  intros Hgame Hout Hk Hhit Hfire. destruct (game_consistent n w Hgame) as [Hcons Hh].
  destruct Hcons as [Hsize Hhealth Hcells Hlisted Hdisj Hhnd Hhits Hunhit].
  rewrite <- Hsize in Hk.
  assert (Hv : value (board w) k = 1).
  { unfold is_hit, cell in Hhit. rewrite Hk in Hhit. cbn [obind] in Hhit.
    injection Hhit as Hhit. now apply Z.eqb_eq. }
  rewrite fire_as_shot in Hfire.
  rewrite (apply_shot_hit_at c k) in Hfire by assumption.
  rewrite (ships_loop_idle _ _ _ c) in Hfire; cbn [hit_marked_at with_target
    heap board ships target_coordinate]; [| reflexivity | | lia].
  2: { intros j a _ Ha.
       destruct (healthy_afloat _ Hh a) as (s & Hs & _);
         [apply list_elem_of_lookup; now exists j |].
       exists s. split; [assumption |]. apply bool_decide_eq_false. intros Hin.
       destruct (Hcells a s Hs) as [_ Hc]. destruct (Hc c Hin) as [Hb _]. congruence. }
  injection Hfire as <- <-.
  cbn [hit_marked_at with_target heap board ships _board _previous_hits stdout].
  repeat (split; [reflexivity |]).
  destruct (Hunhit k Hv) as (a & s & Hs & Hin).
  destruct (Hcells a s Hs) as [Hnd _].
  exists a, s. split.
  { apply (Hlisted a s Hs). rewrite (Hhealth a s Hs).
    pose proof (unhit_cells_pos _ _ k Hin Hv). lia. }
  split; [assumption |]. split; [assumption |].
  rewrite (Hhealth a s Hs). apply (unhit_cells_hit _ _ _ k); try assumption.
  - unfold value. cbn [_board]. now rewrite lookup_insert_eq.
  - intros p Hne. unfold value. cbn [_board].
    now rewrite lookup_insert_ne by congruence.
Qed.

Lemma wrapped_shot_damages_no_ship_witness :
  Ok tt = Ok tt /\
  heap (fst (fire (-3, 0) two_destroyers)) = heap two_destroyers /\
  ships (board (fst (fire (-3, 0) two_destroyers))) = ships (board two_destroyers) /\
  _board (board (fst (fire (-3, 0) two_destroyers)))
    = <[(0, 0) := 2]> (_board (board two_destroyers)) /\
  _previous_hits (board (fst (fire (-3, 0) two_destroyers)))
    = _previous_hits (board two_destroyers) ++ [(-3, 0)] /\
  stdout (fst (fire (-3, 0) two_destroyers))
    = stdout two_destroyers ++ ["Hit!"%string] /\
  exists a s, a ∈ ships (board (fst (fire (-3, 0) two_destroyers))) /\
              heap (fst (fire (-3, 0) two_destroyers)) !! a = Some s /\
              (0, 0) ∈ _points s /\
              unhit_cells (board (fst (fire (-3, 0) two_destroyers))) (_points s)
                = condition s - 1.
Proof.
  apply (wrapped_shot_damages_no_ship 3 two_destroyers _ (-3, 0) (0, 0) (Ok tt));
    [| reflexivity | reflexivity | reflexivity | reflexivity].
  apply game_placed.
  apply (placed_ship _ 3 (fst (try_place 2 (0, 0) DirE (new_world 3)))
           2 (2, 0) DirE); [| reflexivity | reflexivity].
  apply (placed_ship _ 3 (new_world 3) 2 (0, 0) DirE);
    [| reflexivity | reflexivity].
  apply placed_new. lia.
Defined.

(** ** Placing a ship that was not checked *)

Lemma mark_points_off_grid pts w p :
  p ∈ pts -> norm_coord (_n (board w)) p = None ->
  exists w', mark_points pts w = (w', Raise IndexError) /\
    heap w' = heap w /\ ships (board w') = ships (board w) /\
    _n (board w') = _n (board w).
Proof.
  revert w. induction pts as [| q rest IH]; intros w Hp Hnone; [inversion Hp |].
  simpl. unfold bind at 1, put_cell, bind, lift, set_cell, set_board.
  destruct (norm_coord (_n (board w)) q) as [kq |] eqn:Hq.
  - apply elem_of_cons in Hp as [-> | Hp]; [congruence |].
    match goal with
    | |- context [mark_points rest ?w1] =>
        destruct (IH w1 Hp) as (w' & Hrun & Hrest); [exact Hnone |]
    end.
    exists w'. split; [exact Hrun | exact Hrest].
  - exists w. auto.
Qed.

(** X13: [place_ship] does not check the ship and is not undone by the
    exception: when a point of the ship is outside the grid, also for
    numpy's negative indices, [IndexError] is raised with the ship already
    at the end of the list of ships. *)
Theorem place_ship_off_grid_keeps_the_ship (w : World) (s : Ship) (p : coord) :
  p ∈ _points s -> norm_coord (_n (board w)) p = None ->
  exists w', (a <~ alloc s ;; place_ship a) w = (w', Raise IndexError) /\
    heap w' = heap w ++ [s] /\
    ships (board w') = ships (board w) ++ [length (heap w)].
Proof.
  intros Hp Hnone. unfold bind at 1, alloc, place_ship, bind, set_board, lift, deref.
  cbn [heap board ships with_ships target_coordinate stdout].
  rewrite lookup_app_r, Nat.sub_diag by lia. cbn [lookup list_lookup].
  fold (launched s w).
  destruct (mark_points_off_grid (_points s) (launched s w) p Hp Hnone)
    as (w' & -> & Hheap & Hships & _).
  exists w'. split; [reflexivity |]. now rewrite Hheap, Hships.
Qed.

Lemma place_ship_off_grid_keeps_the_ship_witness :
  exists w', (a <~ alloc (mkShip 2 "Destroyer" 2 [(2, 2); (2, 3)] (2, 3)) ;;
              place_ship a) (new_world 3) = (w', Raise IndexError) /\
    heap w' = heap (new_world 3) ++ [mkShip 2 "Destroyer" 2 [(2, 2); (2, 3)] (2, 3)] /\
    ships (board w') = ships (board (new_world 3)) ++ [length (heap (new_world 3))].
Proof.
  apply (place_ship_off_grid_keeps_the_ship (new_world 3)
           (mkShip 2 "Destroyer" 2 [(2, 2); (2, 3)] (2, 3)) (2, 3));
    [right; left | reflexivity].
Defined.

(** ** Rendering *)

Lemma map_ok_ext {A B} (f g : A -> outcome B) l :
  (forall x, x ∈ l -> f x = g x) -> map_ok f l = map_ok g l.
Proof.
  induction l as [| x l IH]; intros H; simpl; [reflexivity |].
  rewrite (H x) by left. rewrite IH; [reflexivity |].
  intros y Hy. apply H. now right.
Qed.

Lemma map_ok_total {A B} (f : A -> outcome B) l :
  (forall x, x ∈ l -> exists y, f x = Ok y) -> exists ys, map_ok f l = Ok ys.
Proof.
  induction l as [| x l IH]; intros H; simpl; [now exists [] |].
  destruct (H x) as [y ->]; [left |].
  destruct IH as [ys ->]; [intros z Hz; apply H; now right |].
  simpl. eauto.
Qed.

Lemma map_ok_map {A B C} (f : B -> outcome C) (g : A -> B) l :
  map_ok f (map g l) = map_ok (fun x => f (g x)) l.
Proof. induction l as [| x l IH]; simpl; [reflexivity | now rewrite IH]. Qed.

Lemma hidden_symbol_of v :
  0 <= v <= 3 ->
  symbol_of hidden_symbols v =
  Ok (if v =? 2 then "X"%string else if v =? 3 then "O"%string else "~"%string).
Proof.
  intros Hv. assert (v = 0 \/ v = 1 \/ v = 2 \/ v = 3) as [-> | [-> | [-> | ->]]]
    by lia; reflexivity.
Qed.

Lemma default_symbol_of v :
  0 <= v <= 3 -> exists sym, symbol_of default_symbols v = Ok sym.
Proof.
  intros Hv. assert (v = 0 \/ v = 1 \/ v = 2 \/ v = 3) as [-> | [-> | [-> | ->]]]
    by lia; eexists; reflexivity.
Qed.

(** Boards on which ships were placed and no shot was fired show nothing
    to tell them apart. *)
Lemma placed_same_shots n w w' :
  placed (fun c => in_bounds n c = true) n w ->
  placed (fun c => in_bounds n c = true) n w' ->
  same_shots (board w) (board w').
Proof.
  intros Hw Hw'. split.
  - now rewrite (placed_size _ _ _ Hw), (placed_size _ _ _ Hw').
  - destruct (placed_consistent _ _ Hw) as [_ [_ Hv]].
    destruct (placed_consistent _ _ Hw') as [_ [_ Hv']].
    intros p _. specialize (Hv p). specialize (Hv' p). lia.
Qed.

(** X14: on a board whose cells hold the four values of the game, printing
    the board raises no [KeyError], with ships shown or hidden; and the view
    with hidden ships is the same string for two boards of the same size
    with the same Hit and Miss cells, wherever their unhit ships lie. *)
Theorem hidden_view_hides_unhit_ships (ROWS COLS : list string) (b b' : Board) :
  cells_valid b -> cells_valid b' -> same_shots b b' ->
  (exists shown, Board_str ROWS COLS b = Ok shown) /\
  (exists view, with_hidden_ships ROWS COLS b = Ok view) /\
  with_hidden_ships ROWS COLS b' = with_hidden_ships ROWS COLS b.
Proof.
  intros Hvalid Hvalid' [Hsize Hsame].
  assert (Hrows : forall (given : option (gmap Z string)),
            (forall syms, given = Some syms -> forall v, 0 <= v <= 3 ->
               exists sym, symbol_of syms v = Ok sym) ->
            exists view, to_string ROWS COLS b given = Ok view).
  { intros given Hgiven. unfold to_string.
    set (used := match given with
                 | Some m => if decide (m = ∅) then default_symbols else m
                 | None => default_symbols
                 end).
    assert (Hused : forall v, 0 <= v <= 3 -> exists sym, symbol_of used v = Ok sym).
    { unfold used. destruct given as [m |]; [| apply default_symbol_of].
      destruct (decide (m = ∅)); [apply default_symbol_of | now apply Hgiven]. }
    destruct (map_ok_total
      (fun '(row_name, r) =>
         cells <- map_ok (symbol_of used) (board_row b r) ;;;
         Ok (String.append row_name
               (String.append "|" (String.append (String.concat "|" cells) "|"))))
      (zip ROWS (seqZ 0 (_n b)))) as [rows Hrows].
    { intros [row_name r] _.
      destruct (map_ok_total (symbol_of used) (board_row b r)) as [cells ->].
      - intros v Hv. unfold board_row in Hv.
        apply list_elem_of_In, in_map_iff in Hv as (c & <- & _).
        apply Hused, (value_range b (r, c) Hvalid).
      - simpl. eauto. }
    rewrite Hrows. simpl. eauto. }
  split; [| split].
  - apply Hrows. discriminate.
  - apply Hrows. intros syms [= <-] v Hv. rewrite hidden_symbol_of by assumption.
    eauto.
  - unfold with_hidden_ships, to_string. rewrite Hsize.
    destruct (decide (hidden_symbols = ∅)) as [Hempty | _].
    { apply (f_equal (fun m => m !! 2)) in Hempty. discriminate. }
    rewrite (map_ok_ext
      (fun '(row_name, r) =>
         cells <- map_ok (symbol_of hidden_symbols) (board_row b' r) ;;;
         Ok (String.append row_name
               (String.append "|" (String.append (String.concat "|" cells) "|"))))
      (fun '(row_name, r) =>
         cells <- map_ok (symbol_of hidden_symbols) (board_row b r) ;;;
         Ok (String.append row_name
               (String.append "|" (String.append (String.concat "|" cells) "|"))))
      (zip ROWS (seqZ 0 (_n b)))); [reflexivity |].
    intros [row_name r] Hr. apply elem_of_zip_r, elem_of_seqZ in Hr.
    unfold board_row. rewrite Hsize, !map_ok_map.
    rewrite (map_ok_ext
      (fun c => symbol_of hidden_symbols (default 0 (_board b' !! (r, c))))
      (fun c => symbol_of hidden_symbols (default 0 (_board b !! (r, c))))
      (seqZ 0 (_n b))); [reflexivity |].
    intros c Hc. apply elem_of_seqZ in Hc.
    fold (value b' (r, c)). fold (value b (r, c)).
    pose proof (value_range b (r, c) Hvalid) as Hv.
    pose proof (value_range b' (r, c) Hvalid') as Hv'.
    destruct (Hsame (r, c)) as [H2 H3]; [apply in_bounds_spec; simpl; lia |].
    rewrite !hidden_symbol_of by assumption. unfold value in *.
    destruct (Z.eqb_spec (default 0 (_board b !! (r, c))) 2),
             (Z.eqb_spec (default 0 (_board b' !! (r, c))) 2);
      [reflexivity | tauto | tauto |].
    destruct (Z.eqb_spec (default 0 (_board b !! (r, c))) 3),
             (Z.eqb_spec (default 0 (_board b' !! (r, c))) 3);
      [reflexivity | tauto | tauto | reflexivity].
Qed.

Lemma hidden_view_hides_unhit_ships_witness :
  (exists shown,
     Board_str ["A"; "B"; "C"]%string ["1"; "2"; "3"]%string (board two_destroyers)
       = Ok shown) /\
  (exists view,
     with_hidden_ships ["A"; "B"; "C"]%string ["1"; "2"; "3"]%string
       (board two_destroyers) = Ok view) /\
  with_hidden_ships ["A"; "B"; "C"]%string ["1"; "2"; "3"]%string
    (board (new_world 3))
  = with_hidden_ships ["A"; "B"; "C"]%string ["1"; "2"; "3"]%string
      (board two_destroyers).
Proof.
  assert (H0 : placed (fun c => in_bounds 3 c = true) 3 (new_world 3))
    by (apply placed_new; lia).
  assert (H2 : placed (fun c => in_bounds 3 c = true) 3 two_destroyers).
  { apply (placed_ship _ 3 (fst (try_place 2 (0, 0) DirE (new_world 3)))
             2 (2, 0) DirE); [| reflexivity | reflexivity].
    apply (placed_ship _ 3 (new_world 3) 2 (0, 0) DirE);
      [exact H0 | reflexivity | reflexivity]. }
  apply (hidden_view_hides_unhit_ships ["A"; "B"; "C"]%string ["1"; "2"; "3"]%string
           (board two_destroyers) (board (new_world 3))).
  - exact (placed_cells_valid _ _ _ H2).
  - exact (placed_cells_valid _ _ _ H0).
  - exact (placed_same_shots 3 _ _ H2 H0).
Defined.

(** ** Targets while a hit ship is afloat *)

(** Between an index where [P] holds and a later one where it does not, two
    neighbouring indices differ. *)
Lemma first_change (P : Z -> Prop) (k : nat) a :
  (forall i, P i \/ ~ P i) -> P a -> ~ P (a + Z.of_nat k) ->
  exists i, a <= i < a + Z.of_nat k /\ P i /\ ~ P (i + 1).
Proof.
  intros Hdec. revert a. induction k as [| k IH]; intros a Ha Hb.
  - rewrite Z.add_0_r in Hb. contradiction.
  - destruct (Hdec (a + 1)) as [Hnext | Hnext].
    + destruct (IH (a + 1) Hnext) as (i & Hi & Hrest).
      * now replace (a + 1 + Z.of_nat k) with (a + Z.of_nat (S k)) by lia.
      * exists i. split; [lia | exact Hrest].
    + exists a. split; [lia | auto].
Qed.

(** While a recorded hit is on the board, some recorded hit has an unhit
    ship cell next to it. *)
Lemma game_hit_beside_unhit n w :
  game n w -> _previous_hits (board w) <> [] ->
  exists h q, h ∈ _previous_hits (board w) /\ in_bounds n q = true /\
              next_to h q /\ value (board w) q = 1.
Proof.
  intros Hgame Hne. destruct (game_consistent n w Hgame) as [Hcons Hh].
  pose proof (game_well_built n w Hgame) as Hbuilt.
  destruct (_previous_hits (board w)) as [| h0 rest] eqn:Hhits; [congruence |].
  assert (Hh0 : h0 ∈ _previous_hits (board w)) by (rewrite Hhits; left).
  rewrite <- Hhits. clear Hhits Hne rest.
  apply (cons_hits _ _ Hcons) in Hh0 as (Hv0 & a & s & Ha & Hs & Hin0).
  destruct (healthy_afloat _ Hh a Ha) as (s' & Hs' & Hpos).
  rewrite Hs in Hs'. injection Hs' as <-.
  rewrite (cons_health _ _ Hcons a s Hs) in Hpos.
  destruct (unhit_cells_some _ _ Hpos) as (u & Hu & Hvu).
  destruct (cons_cells _ _ Hcons a s Hs) as [_ Hcells].
  destruct (Hbuilt a s Hs) as (Hlen & start & d & Hpts).
  set (pt := fun i : Z => (fst start + i * fst (direction_vectors d),
                           snd start + i * snd (direction_vectors d))).
  assert (Hpt : forall i, 0 <= i < _length s -> pt i ∈ _points s).
  { intros i Hi. rewrite Hpts. apply elem_of_points_from. exists i.
    rewrite Z2Nat.id by lia. split; [lia | reflexivity]. }
  assert (Hnext : forall i, next_to (pt i) (pt (i + 1)) /\ next_to (pt (i + 1)) (pt i)).
  { intros i. unfold next_to, pt. destruct d; simpl; lia. }
  assert (Hfound : exists i j, 0 <= i < _length s /\ 0 <= j < _length s /\
            (j = i + 1 \/ i = j + 1) /\
            value (board w) (pt i) = 2 /\ value (board w) (pt j) = 1).
  { rewrite Hpts in Hin0, Hu.
    apply elem_of_points_from in Hin0 as (i & Hi & ->).
    apply elem_of_points_from in Hu as (j & Hj & ->).
    rewrite Z2Nat.id in Hi, Hj by lia. fold (pt i) in Hv0. fold (pt j) in Hvu.
    destruct (Z.lt_trichotomy i j) as [Hlt | [-> | Hlt]]; [| lia |].
    - destruct (first_change (fun k => value (board w) (pt k) = 2)
                  (Z.to_nat (j - i)) i) as (k & Hk & H2 & H1);
        [intros k; lia | assumption | rewrite Z2Nat.id by lia;
         replace (i + (j - i)) with j by lia; lia |].
      rewrite Z2Nat.id in Hk by lia. exists k, (k + 1).
      split; [lia |]. split; [lia |]. split; [now left |]. split; [assumption |].
      destruct (Hcells (pt (k + 1))) as [_ [H | H]]; [apply Hpt; lia | assumption |].
      contradiction.
    - destruct (first_change (fun k => value (board w) (pt k) = 1)
                  (Z.to_nat (i - j)) j) as (k & Hk & H1 & H2);
        [intros k; lia | assumption | rewrite Z2Nat.id by lia;
         replace (j + (i - j)) with i by lia; lia |].
      rewrite Z2Nat.id in Hk by lia. exists (k + 1), k.
      split; [lia |]. split; [lia |]. split; [now right |]. split; [| assumption].
      destruct (Hcells (pt (k + 1))) as [_ [H | H]]; [apply Hpt; lia | | assumption].
      contradiction. }
  destruct Hfound as (i & j & Hi & Hj & Hij & H2 & H1).
  exists (pt i), (pt j). split; [| split; [| split]].
  - apply (cons_hits _ _ Hcons). split; [assumption |]. exists a, s. auto.
  - now destruct (Hcells (pt j) (Hpt j Hj)).
  - destruct Hij as [-> | ->]; apply Hnext.
  - assumption.
Qed.

(** X15: in every state of a game in which a hit is recorded (a ship was
    hit and is not sunk yet), [generate_targets] returns a list that is not
    empty and holds only cells next to a recorded hit: the scan of the whole
    board is not reached. *)
Theorem targets_stay_next_to_recorded_hits (n : Z) (w : World) :
  game n w -> _previous_hits (board w) <> [] ->
  exists targets, generate_targets w = Ok targets /\ targets <> [] /\
    forall p, p ∈ targets ->
      in_bounds n p = true /\
      exists h, h ∈ _previous_hits (board w) /\ next_to h p.
Proof.
  intros Hgame Hhits. destruct (game_consistent n w Hgame) as [Hcons _].
  destruct (game_hit_beside_unhit n w Hgame Hhits) as (h & q & Hh & Hq & Hnext & Hv).
  assert (Hne : ships (board w) <> []).
  { apply (cons_hits _ _ Hcons) in Hh as (_ & a & s & Ha & _).
    intros Hnil. rewrite Hnil in Ha. inversion Ha. }
  destruct (game_filter_returns n w _ Hgame Hne
              (fun x Hx => proj1 (game_line_candidates n w x Hgame Hx))) as [r1 Hr1].
  destruct (game_filter_returns n w _ Hgame Hne
              (fun x Hx => proj1 (game_near_candidates n w x Hgame Hx))) as [r2 Hr2].
  assert (Hq2 : q ∈ r2).
  { apply (filter_ok_elem _ _ _ Hr2). split.
    - apply list_elem_of_In, in_flat_map. exists h.
      split; [now apply list_elem_of_In |].
      pose proof (game_hits_on_board n w h Hgame Hh) as Hb.
      apply list_elem_of_In, elem_of_all_neighbours;
        rewrite (cons_size _ _ Hcons); auto.
    - exact (game_unhit_cell_feasible n w q Hgame Hq Hv). }
  rewrite generate_targets_tiers. unfold line_inference_pool, hit_adjacency_pool.
  rewrite Hr1. cbn [obind]. destruct r1 as [| x1 r1]; cbn [is_nil].
  - rewrite Hr2. cbn [obind]. destruct r2 as [| x2 r2]; [inversion Hq2 |].
    cbn [is_nil]. exists (x2 :: r2). split; [reflexivity |]. split; [discriminate |].
    intros p [Hp _]%(filter_ok_elem _ _ _ Hr2).
    exact (game_near_candidates n w p Hgame Hp).
  - exists (x1 :: r1). split; [reflexivity |]. split; [discriminate |].
    intros p [Hp _]%(filter_ok_elem _ _ _ Hr1).
    exact (game_line_candidates n w p Hgame Hp).
Qed.

Lemma targets_stay_next_to_recorded_hits_witness :
  exists targets, generate_targets first_destroyer_hit = Ok targets /\
    targets <> [] /\
    forall p, p ∈ targets ->
      in_bounds 3 p = true /\
      exists h, h ∈ _previous_hits (board first_destroyer_hit) /\ next_to h p.
Proof.
  apply (targets_stay_next_to_recorded_hits 3); [| vm_compute; discriminate].
  apply (game_fire 3 two_destroyers (0, 0) _ (Ok tt)); [| reflexivity | reflexivity].
  apply game_placed.
  apply (placed_ship _ 3 (fst (try_place 2 (0, 0) DirE (new_world 3)))
           2 (2, 0) DirE); [| reflexivity | reflexivity].
  apply (placed_ship _ 3 (new_world 3) 2 (0, 0) DirE);
    [| reflexivity | reflexivity].
  apply placed_new. lia.
Defined.

(** ** Every shot at an open cell uses it up *)

Lemma NoDup_all_coordinates n : NoDup (all_coordinates n).
Proof.
  unfold all_coordinates.
  change (NoDup (seqZ 0 n ≫= (fun row => (fun col => (row, col)) <$> seqZ 0 n))).
  apply NoDup_bind.
  - intros r1 r2 [r c] _ _ H1 H2.
    apply list_elem_of_fmap in H1 as (c1 & [= -> _] & _).
    apply list_elem_of_fmap in H2 as (c2 & [= -> _] & _). reflexivity.
  - intros row _. apply NoDup_fmap_2; [| apply NoDup_seqZ].
    intros c1 c2 [= ->]. reflexivity.
  - apply NoDup_seqZ.
Qed.

Lemma filter_agree {A} (P Q : A -> Prop) `{!forall x, Decision (P x)}
    `{!forall x, Decision (Q x)} (l : list A) :
  (forall x, x ∈ l -> (Q x <-> P x)) -> filter Q l = filter P l.
Proof.
  induction l as [| x l IH]; intros Hl; [reflexivity |].
  rewrite !filter_cons, IH by (intros y Hy; apply Hl; now right).
  specialize (Hl x ltac:(left)).
  destruct (decide (Q x)), (decide (P x)); tauto.
Qed.

(** Taking one item out of those a filter keeps shortens what it keeps by
    one. *)
Lemma filter_one_less {A} `{!EqDecision A} (P Q : A -> Prop)
    `{!forall x, Decision (P x)} `{!forall x, Decision (Q x)}
    (l : list A) (c : A) :
  NoDup l -> c ∈ l -> P c -> ~ Q c -> (forall x, x <> c -> (Q x <-> P x)) ->
  S (length (filter Q l)) = length (filter P l).
Proof.
  intros Hnd Hc HP HQ Hrest. induction l as [| x l IH]; [inversion Hc |].
  apply NoDup_cons in Hnd as [Hx Hnd].
  destruct (decide (x = c)) as [-> | Hne].
  - rewrite filter_cons_False, filter_cons_True by assumption.
    rewrite (filter_agree P Q l); [reflexivity |].
    intros y Hy. apply Hrest. intros ->. contradiction.
  - apply elem_of_cons in Hc as [-> | Hc]; [congruence |].
    specialize (IH Hnd Hc). rewrite !filter_cons.
    pose proof (Hrest x Hne).
    destruct (decide (Q x)), (decide (P x)); try tauto; simpl; now rewrite IH.
Qed.

(** A turn of a game on a cell of the board changes that cell only, and
    leaves it hit or missed. *)
Lemma game_fire_marks n w c w' r :
  game n w -> in_bounds n c = true -> fire c w = (w', r) ->
  r = Ok tt /\ _n (board w') = _n (board w) /\
  2 <= value (board w') c /\
  (forall p, p <> c -> value (board w') p = value (board w) p) /\
  (value (board w) c = 3 -> value (board w') c = 3).
Proof.
  intros Hgame Hc Hfire. destruct (game_consistent n w Hgame) as [Hcons Hh].
  pose proof (cons_size _ _ Hcons) as Hsize.
  pose proof (value_range (board w) c (game_cells_valid n w Hgame)) as Hrange.
  rewrite fire_as_shot in Hfire.
  assert (Hc0 : consistent n (with_target w (Some c))) by (destruct Hcons; now split).
  assert (Hh0 : healthy (with_target w (Some c))) by (destruct Hh; now split).
  destruct (decide (value (board w) c = 1)) as [Hv | Hv].
  - destruct (apply_shot_hit_effect n (with_target w (Some c)) c Hc0 Hh0 Hc eq_refl Hv)
      as (a0 & s0 & w1 & _ & _ & _ & Hrun & (_ & Hn & Hgrid & _) & _).
    rewrite Hrun in Hfire. injection Hfire as <- <-.
    cbn [hit_marked with_target board _n _board] in Hn, Hgrid.
    split; [reflexivity |]. split; [assumption |].
    split; [| split; [| lia]]; unfold value; rewrite Hgrid.
    + rewrite lookup_insert_eq. simpl. lia.
    + intros p Hne. now rewrite lookup_insert_ne by congruence.
  - destruct (apply_shot_miss c (with_target w (Some c)))
      as (w1 & Hrun & _ & Hn & _ & _ & Hval);
      [cbn [with_target board]; now rewrite Hsize | assumption |].
    rewrite Hrun in Hfire. injection Hfire as <- <-.
    cbn [with_target board] in Hn, Hval.
    split; [reflexivity |]. split; [assumption |]. split; [| split].
    + rewrite Hval. destruct (decide (c = c)); [| congruence].
      destruct (Z.eqb_spec (value (board w) c) 0); lia.
    + intros p Hne. rewrite Hval. now destruct (decide (p = c)).
    + intros H3. rewrite Hval. destruct (decide (c = c)); [| congruence].
      now rewrite H3.
Qed.

(** X16: in a game, a turn on a cell of the board that no shot has landed
    on yet returns and takes exactly that cell out of the open cells: one
    open cell fewer after every such turn, so at most [n * n] of them can
    be played. *)
Theorem turn_uses_up_one_open_cell (n : Z) (w w' : World) (c : coord)
    (r : outcome unit) :
  game n w -> c ∈ open_cells (board w) -> fire c w = (w', r) ->
  r = Ok tt /\
  (c ∉ open_cells (board w')) /\
  (forall p, p <> c -> (p ∈ open_cells (board w') <-> p ∈ open_cells (board w))) /\
  S (length (open_cells (board w'))) = length (open_cells (board w)) /\
  Z.of_nat (length (open_cells (board w))) <= n * n.
Proof.
  intros Hgame Hopen Hfire. destruct (game_consistent n w Hgame) as [Hcons _].
  pose proof (cons_size _ _ Hcons) as Hsize.
  unfold open_cells in Hopen. apply list_elem_of_filter in Hopen as [Hlt Hc].
  pose proof Hc as Hb%elem_of_all_coordinates. rewrite Hsize in Hb.
  destruct (game_fire_marks n w c w' r Hgame Hb Hfire)
    as (-> & Hn & Hmark & Hrest & _).
  split; [reflexivity |]. unfold open_cells. rewrite Hn.
  split; [| split; [| split]].
  - intros [H _]%list_elem_of_filter. lia.
  - intros p Hne. rewrite !list_elem_of_filter, (Hrest p Hne). tauto.
  - apply (filter_one_less _ _ _ c); try assumption.
    + apply NoDup_all_coordinates.
    + lia.
    + intros p Hne. now rewrite (Hrest p Hne).
  - etransitivity; [apply inj_le, length_filter |].
    rewrite Hsize. unfold all_coordinates.
    assert (Hlen : forall l : list Z,
              length (flat_map (fun row => map (fun col => (row, col)) (seqZ 0 n)) l)
              = (length l * Z.to_nat n)%nat).
    { induction l as [| x l IH]; [reflexivity |]. simpl.
      now rewrite length_app, length_map, length_seqZ, IH. }
    rewrite Hlen, length_seqZ. apply in_bounds_spec in Hb. nia.
Qed.

Lemma turn_uses_up_one_open_cell_witness :
  Ok tt = Ok tt /\
  ((0, 0) ∉ open_cells (board first_destroyer_hit)) /\
  (forall p, p <> (0, 0) ->
     (p ∈ open_cells (board first_destroyer_hit) <->
      p ∈ open_cells (board two_destroyers))) /\
  S (length (open_cells (board first_destroyer_hit)))
    = length (open_cells (board two_destroyers)) /\
  Z.of_nat (length (open_cells (board two_destroyers))) <= 3 * 3.
Proof.
  apply (turn_uses_up_one_open_cell 3 two_destroyers first_destroyer_hit (0, 0)
           (Ok tt)); [| | reflexivity].
  - apply game_placed.
    apply (placed_ship _ 3 (fst (try_place 2 (0, 0) DirE (new_world 3)))
             2 (2, 0) DirE); [| reflexivity | reflexivity].
    apply (placed_ship _ 3 (new_world 3) 2 (0, 0) DirE);
      [| reflexivity | reflexivity].
    apply placed_new. lia.
  - vm_compute. left.
Defined.

(** ** Cells the feasibility check has ruled out *)

(** A turn of a game lists no ship that was not listed before. *)
Lemma game_fire_listed n w c w' r :
  game n w -> in_bounds n c = true -> fire c w = (w', r) ->
  forall a, a ∈ ships (board w') -> a ∈ ships (board w).
Proof.
  intros Hgame Hc Hfire. destruct (game_consistent n w Hgame) as [Hcons Hh].
  rewrite fire_as_shot in Hfire.
  assert (Hc0 : consistent n (with_target w (Some c))) by (destruct Hcons; now split).
  assert (Hh0 : healthy (with_target w (Some c))) by (destruct Hh; now split).
  destruct (decide (value (board w) c = 1)) as [Hv | Hv].
  - destruct (apply_shot_hit_effect n (with_target w (Some c)) c Hc0 Hh0 Hc eq_refl Hv)
      as (a0 & s0 & w1 & _ & _ & _ & Hrun & (_ & _ & _ & Hlist) & _).
    rewrite Hrun in Hfire. injection Hfire as <- <-.
    cbn [hit_marked with_target board ships] in Hlist. intros a Ha.
    destruct (sunk (damage s0)).
    + destruct Hlist as [[_ Hin] _]. now apply Hin in Ha.
    + destruct Hlist as [Heq _]. now rewrite Heq in Ha.
  - destruct (apply_shot_miss c (with_target w (Some c)))
      as (w1 & Hrun & _ & _ & Hs & _);
      [cbn [with_target board]; now rewrite (cons_size _ _ Hcons) | assumption |].
    rewrite Hrun in Hfire. injection Hfire as <- <-.
    cbn [with_target board] in Hs. intros a Ha. now rewrite Hs in Ha.
Qed.

(** X17: in a game, a cell of the board on which [can_contain_ship] has
    answered [False] is never proposed again: after a turn that leaves a
    ship on the board the answer on that cell is [False] again, since shots
    only shorten the runs of cells between misses and sinking ships only
    raises the length of the shortest ship left. *)
Theorem ruled_out_cells_stay_ruled_out (n : Z) (w w' : World) (c p : coord)
    (r : outcome unit) :
  game n w -> in_bounds n c = true -> in_bounds n p = true ->
  fire c w = (w', r) -> ships (board w') <> [] ->
  can_contain_ship w p = Ok false -> can_contain_ship w' p = Ok false.
Proof.
  intros Hgame Hc Hp Hfire Hne' Hfalse.
  pose proof (game_fire n w c w' r Hgame Hc Hfire) as Hgame'.
  destruct (game_consistent n w Hgame) as [Hcons Hh].
  destruct (game_consistent n w' Hgame') as [Hcons' Hh'].
  pose proof (cons_size _ _ Hcons) as Hsize.
  pose proof (cons_size _ _ Hcons') as Hsize'.
  pose proof (game_cells_valid n w Hgame) as Hvalid.
  pose proof (game_cells_valid n w' Hgame') as Hvalid'.
  destruct (game_fire_marks n w c w' r Hgame Hc Hfire) as (_ & _ & Hmark & Hrest & Hmiss).
  pose proof (game_fire_listed n w c w' r Hgame Hc Hfire) as Hlisted.
  assert (Hshapes : same_shapes w w').
  { rewrite fire_as_shot in Hfire.
    exact (same_shapes_apply_shot c (with_target w (Some c)) _ _ Hfire). }
  assert (Hne : ships (board w) <> []).
  { destruct (ships (board w')) as [| a rest] eqn:Hl; [congruence |].
    intros Hnil. pose proof (Hlisted a ltac:(left)) as Ha. rewrite Hnil in Ha.
    inversion Ha. }
  assert (Hkeep : forall q, in_bounds n q = true ->
            cell (board w') q <> Ok 3 -> cell (board w) q <> Ok 3).
  { intros q Hq. rewrite !cell_value by (rewrite ?Hsize, ?Hsize'; assumption).
    intros H' [= H3]. apply H'. f_equal.
    destruct (decide (q = c)) as [-> | Hqc]; [now apply Hmiss |].
    now rewrite (Hrest q Hqc). }
  destruct p as [row col].
  destruct (can_contain_ship_on_board w row col Hvalid
              (healthy_ships_allocated _ Hh) Hne)
    as (s & lo & hi & lo' & hi' & _ & Hmin & Hx & _ & Hlo & Hhi
        & Hy & _ & Hlo' & Hhi' & Hcan); [now rewrite Hsize |].
  destruct (can_contain_ship_on_board w' row col Hvalid'
              (healthy_ships_allocated _ Hh') Hne')
    as (s2 & l & h & l' & h' & (a2 & Ha2 & Hs2) & _ & Hx2 & Hrun2 & _ & _
        & Hy2 & Hrun2' & _ & _ & ->); [now rewrite Hsize' |].
  rewrite Hcan in Hfalse. injection Hfalse as Hfalse. f_equal.
  apply andb_false_iff in Hfalse as [Hfired | Hshort]; apply andb_false_iff.
  - left. apply Z.ltb_ge in Hfired. apply Z.ltb_ge.
    destruct (decide ((row, col) = c)) as [<- | Hpc]; [assumption |].
    now rewrite (Hrest _ Hpc).
  - destruct (Z.ltb_spec (value (board w) (row, col)) 2) as [Hopen | Hfired].
    2: { left. apply Z.ltb_ge.
         destruct (decide ((row, col) = c)) as [<- | Hpc]; [assumption |].
         now rewrite (Hrest _ Hpc). }
    right. apply Z.leb_gt in Hshort. apply Z.leb_gt.
    assert (Hlen : _length s <= _length s2).
    { destruct (Hshapes a2 s2 Hs2) as (s1 & Hs1 & _ & -> & _).
      exact (Hmin a2 s1 (Hlisted a2 Ha2) Hs1). }
    assert (Hself : cell (board w) (row, col) <> Ok 3).
    { rewrite cell_value by now rewrite Hsize. intros [= E]. lia. }
    destruct (run_covers (board w) (fun j => (row, j)) col lo hi l h)
      as [Hl1 Hh1]; try assumption.
    { intros j Hj. destruct (Z.eq_dec j col) as [-> | Hjc].
      - split; [now rewrite Hsize | assumption].
      - destruct (Hrun2 j Hj Hjc) as [Hb H3]. rewrite Hsize' in Hb.
        split; [now rewrite Hsize | now apply Hkeep]. }
    destruct (run_covers (board w) (fun j => (j, col)) row lo' hi' l' h')
      as [Hl2 Hh2]; try assumption.
    { intros j Hj. destruct (Z.eq_dec j row) as [-> | Hjr].
      - split; [now rewrite Hsize | assumption].
      - destruct (Hrun2' j Hj Hjr) as [Hb H3]. rewrite Hsize' in Hb.
        split; [now rewrite Hsize | now apply Hkeep]. }
    lia.
Qed.

Lemma ruled_out_cells_stay_ruled_out_witness :
  can_contain_ship (fst (fire (1, 1) first_destroyer_hit)) (0, 0) = Ok false.
Proof.
  apply (ruled_out_cells_stay_ruled_out 3 first_destroyer_hit _ (1, 1) (0, 0) (Ok tt));
    [| reflexivity | reflexivity | vm_compute; reflexivity
     | vm_compute; discriminate | vm_compute; reflexivity].
  apply (game_fire 3 two_destroyers (0, 0) _ (Ok tt)); [| reflexivity | reflexivity].
  apply game_placed.
  apply (placed_ship _ 3 (fst (try_place 2 (0, 0) DirE (new_world 3)))
           2 (2, 0) DirE); [| reflexivity | reflexivity].
  apply (placed_ship _ 3 (new_world 3) 2 (0, 0) DirE);
    [| reflexivity | reflexivity].
  apply placed_new. lia.
Defined.
